(** * Satellite fleet control: assignment optimizer and dispatch coordinator

    A shallow embedding of

    - [sat_mqtt/groundstation/ground.py]   (module [Ground]),
    - [sat_mqtt/satellite/satellite.py]    (module [Satellite]),
    - [sat_multiprocessing/src/sat.py]     (module [Sat]),

    together with the part of OR-tools' CP-SAT interface the two [cp_solve]
    functions call (module [CpSat]).

    Conventions.  A Python [float] is an IEEE 754 binary64 number, in the
    Standard Library's specification of that format ([spec_float]), and the
    arithmetic on payoffs rounds as Python's does; failure probabilities,
    random draws and waiting times are only compared or added up by the
    clock and stay rationals ([Q]).  Python lists are [list]; a Python
    [dict] whose iteration order is observable is an association list kept
    in insertion order; an uncaught Python exception is the [Raise] case of
    [res]; the CP-SAT search itself is an external library and enters as a
    [CpSolver] value whose contract is stated by [solver_sound_on] and
    [solver_optimal_on]. *)

From Stdlib Require Import Ascii String.
From Stdlib Require Import List ZArith QArith Bool Lia Lqa Arith Permutation.
From Stdlib Require Import SpecFloat.
Import ListNotations.
Close Scope Q_scope.

(* ================================================================== *)
(** * Python preliminaries *)

(** [range(n)] *)
Definition range (n : nat) : list nat := seq 0 n.

(** [for x in xs: body], the loop state threaded explicitly. *)
Definition for_each {A S : Type} (xs : list A) (body : A -> S -> S) (st : S) : S :=
  fold_left (fun st x => body x st) xs st.

(** Uncaught exceptions the modelled code can end with. *)
Inductive exn : Type :=
| ZeroDivisionError
| RuntimeError (msg : string)
| TypeError (msg : string)
| ValueError (msg : string)
| OverflowError (msg : string).

(** [RuntimeError("No feasible assignment found")], which the specification
    calls [Infeasible]. *)
Definition Infeasible : exn := RuntimeError "No feasible assignment found".

(** What [sum(len(s) for s in assignment)] raises when [assignment] is [None]. *)
Definition NoneType_not_iterable : exn := TypeError "'NoneType' object is not iterable".

Inductive res (A : Type) : Type :=
| Ok (a : A)
| Raise (e : exn).
Arguments Ok {A} a.
Arguments Raise {A} e.

Definition bind {A B : Type} (c : res A) (k : A -> res B) : res B :=
  match c with
  | Ok a => k a
  | Raise e => Raise e
  end.

Notation "x <- c ;; k" := (bind c (fun x => k))
  (at level 61, c at next level, right associativity).

(** [for x in xs: body] when the body can raise. *)
Fixpoint for_each_res {A S : Type} (xs : list A) (body : A -> S -> res S) (st : S) : res S :=
  match xs with
  | [] => Ok st
  | x :: xs' => st' <- body x st ;; for_each_res xs' body st'
  end.

(** [a / b] on ints: true division, [ZeroDivisionError] when [b = 0]. *)
Definition truediv (a b : Z) : res Q :=
  if (b =? 0)%Z then Raise ZeroDivisionError
  else Ok (inject_Z a / inject_Z b)%Q.

(** [int(x)] on the quotient of two list lengths: truncation toward zero.
    The quotient is kept exact; for lengths below 2^53 its truncation is the
    one of the rounded float. *)
Definition int_ (x : Q) : Z := Z.quot (Qnum x) (Z.pos (Qden x)).

(** ** Floats *)

(** A Python [float] is a binary64 number: 53 bits of precision, exponents
    below 1024, signed zeros, infinities and NaN. *)
Definition double : Type := spec_float.
Definition prec : Z := 53.
Definition emax : Z := 1024.

(** [0.0] *)
Definition fzero : double := S754_zero false.

(** [x + y], [x * y] and [x / y] on floats: the exact result rounded to the
    nearest float, ties to even; overflow gives an infinity. *)
Definition fadd : double -> double -> double := SFadd prec emax.
Definition fmul : double -> double -> double := SFmul prec emax.
Definition fdiv : double -> double -> double := SFdiv prec emax.

(** The float nearest to an int; an infinity when the int is out of range,
    where Python's conversion raises [OverflowError]. *)
Definition of_int (z : Z) : double := binary_normalize prec emax z 0 false.

(** The float a decimal literal [m * 10^-k] denotes, for [m] and [10^k]
    below 2^53: both are floats then, and their quotient is rounded once. *)
Definition dec (m : Z) (k : nat) : double := fdiv (of_int m) (of_int (10 ^ Z.of_nat k)).

(** A finite float without its fractional part. *)
Definition truncate (x : double) : Z :=
  match x with
  | S754_finite s m e =>
      let a := match e with
               | Z.neg p => Z.shiftr (Z.pos m) (Z.pos p)
               | _ => Z.shiftl (Z.pos m) e
               end in
      if s then (- a)%Z else a
  | _ => 0%Z
  end.

(** [int(x)] on a float: truncation toward zero; NaN and the infinities have
    no integer value. *)
Definition int_of_float (x : double) : res Z :=
  match x with
  | S754_infinity _ => Raise (OverflowError "cannot convert float infinity to integer")
  | S754_nan => Raise (ValueError "cannot convert float NaN to integer")
  | _ => Ok (truncate x)
  end.

Definition is_finite (x : double) : bool :=
  match x with
  | S754_zero _ | S754_finite _ _ _ => true
  | _ => false
  end.

(** The real number a finite float stands for ([0] for the others, which
    stand for none). *)
Definition value (x : double) : Q :=
  match x with
  | S754_finite s m e =>
      let a := match e with
               | Z.neg p => (Z.pos m # Pos.pow 2 p)%Q
               | _ => inject_Z (Z.shiftl (Z.pos m) e)
               end in
      if s then (- a)%Q else a
  | _ => 0%Q
  end.

(** [sum(xs)] over floats: the items are added to [0] from left to right,
    every addition rounded (CPython's [sum] up to 3.11; later versions also
    carry a correction term for the rounding errors).  The int [0] of an
    empty sum is the float [0.0] here. *)
Definition sum (xs : list double) : double := fold_left fadd xs fzero.

(** Sums of rationals, and the sum of floats without rounding, on the
    numbers they stand for. *)
Definition sumQ (xs : list Q) : Q := fold_left Qplus xs 0%Q.

Definition exact_sum (xs : list double) : Q := sumQ (map value xs).

(** [sorted(set(xs))] over ints: duplicates dropped, ascending order. *)
Fixpoint insert_sorted (x : Z) (l : list Z) : list Z :=
  match l with
  | [] => [x]
  | y :: l' =>
      if (x <? y)%Z then x :: l
      else if (x =? y)%Z then l
      else y :: insert_sorted x l'
  end.

Definition sorted_set (xs : list Z) : list Z :=
  fold_right insert_sorted [] xs.

(** [x in xs] over ints. *)
Definition mem (x : Z) (xs : list Z) : bool := existsb (Z.eqb x) xs.

(** [a[s].append(x)] on a list of lists.  Python raises [IndexError] when [s]
    is out of range; every call below has [s < len(a)]. *)
Fixpoint append_at {A : Type} (s : nat) (x : A) (a : list (list A)) : list (list A) :=
  match a, s with
  | [], _ => []
  | l :: a', O => (l ++ [x]) :: a'
  | l :: a', S s' => l :: append_at s' x a'
  end.

(* ================================================================== *)
(** * Data model *)

(** A task dictionary as [load_tasks_from_json] builds it. *)
Record Task : Type := mkTask {
  name : string;
  payoff : double;
  resources : list Z;
  execution_time : option Z
}.

(** The message a satellite publishes for one executed task. *)
Record Result : Type := mkResult {
  sat_id : nat;
  task_name : string;
  success : bool;
  task : Task
}.

(** The task every out-of-range [tasks[i]] stands for; [cp_solve] only indexes
    with [i < len(tasks)]. *)
Definition no_task : Task := mkTask "" fzero [] None.

Definition task_at (tasks : list Task) (i : nat) : Task := nth i tasks no_task.

(* ================================================================== *)
(** * The CP-SAT interface used by [cp_solve] *)

Module CpSat.

(** Variables, identified by the names [cp_solve] creates them under:
    [assign_{i}_to_{s}], [load_{s}], [diff_{s}], [sq_{s}]. *)
Inductive var : Type :=
| Assign (i s : nat)
| Load (s : nat)
| Diff (s : nat)
| Sq (s : nat).

(** Integer linear expressions: [sum of coef * var] plus a constant. *)
Record LinearExpr : Type := mkLin {
  terms : list (Z * var);
  offset : Z
}.

Definition evar (x : var) : LinearExpr := mkLin [(1%Z, x)] 0.
Definition econst (k : Z) : LinearExpr := mkLin [] k.
Definition eadd (a b : LinearExpr) : LinearExpr :=
  mkLin (terms a ++ terms b) (offset a + offset b).
Definition escale (k : Z) (a : LinearExpr) : LinearExpr :=
  mkLin (map (fun cx => ((k * fst cx)%Z, snd cx)) (terms a)) (k * offset a).
Definition esub (a b : LinearExpr) : LinearExpr := eadd a (escale (-1) b).
(** Python's [sum(...)] over expressions starts from the int [0]. *)
Definition esum (es : list LinearExpr) : LinearExpr :=
  fold_left eadd es (econst 0).

Inductive constraint : Type :=
| Le (a b : LinearExpr)            (* model.Add(a <= b) *)
| Eq (a b : LinearExpr)            (* model.Add(a == b) *)
| MulEq (target a b : var).        (* AddMultiplicationEquality(target, [a, b]) *)

(** The objective is an integer expression in ground.py and has float
    coefficients in sat.py. *)
Inductive Objective : Type :=
| NoObjective
| IntObjective (e : LinearExpr)
| FloatObjective (e : list (double * var)).

Record CpModel : Type := mkModel {
  variables : list (var * (Z * Z));
  constraints : list constraint;
  objective : Objective
}.

Definition new_model : CpModel := mkModel [] [] NoObjective.

Definition NewIntVar (lb ub : Z) (x : var) (m : CpModel) : CpModel :=
  mkModel (variables m ++ [(x, (lb, ub))]) (constraints m) (objective m).

Definition NewBoolVar (x : var) (m : CpModel) : CpModel := NewIntVar 0 1 x m.

Definition Add (c : constraint) (m : CpModel) : CpModel :=
  mkModel (variables m) (constraints m ++ [c]) (objective m).

Definition AddMultiplicationEquality (target a b : var) (m : CpModel) : CpModel :=
  Add (MulEq target a b) m.

Definition Maximize (o : Objective) (m : CpModel) : CpModel :=
  mkModel (variables m) (constraints m) o.

(** ** Semantics *)

Definition valuation : Type := var -> Z.

Definition eval_terms (v : valuation) (ts : list (Z * var)) : Z :=
  fold_right (fun cx acc => (fst cx * v (snd cx) + acc)%Z) 0%Z ts.

Definition eval (v : valuation) (e : LinearExpr) : Z :=
  (eval_terms v (terms e) + offset e)%Z.

(** The value of an objective with float coefficients is the exact value of
    the expression, every (finite) coefficient read as the number it stands
    for. *)
Definition eval_float (v : valuation) (ts : list (double * var)) : Q :=
  fold_right (fun cx acc => (value (fst cx) * inject_Z (v (snd cx)) + acc)%Q) 0%Q ts.

Definition holds (v : valuation) (c : constraint) : Prop :=
  match c with
  | Le a b => (eval v a <= eval v b)%Z
  | Eq a b => eval v a = eval v b
  | MulEq t a b => v t = (v a * v b)%Z
  end.

Definition in_domain (v : valuation) (d : var * (Z * Z)) : Prop :=
  (fst (snd d) <= v (fst d) <= snd (snd d))%Z.

(** [v] is a feasible solution of [m]. *)
Definition satisfies (m : CpModel) (v : valuation) : Prop :=
  Forall (in_domain v) (variables m) /\ Forall (holds v) (constraints m).

Definition objective_value (m : CpModel) (v : valuation) : Q :=
  match objective m with
  | NoObjective => 0%Q
  | IntObjective e => inject_Z (eval v e)
  | FloatObjective ts => eval_float v ts
  end.

(** Executable counterparts, used to check concrete solutions. *)
Definition holdsb (v : valuation) (c : constraint) : bool :=
  match c with
  | Le a b => (eval v a <=? eval v b)%Z
  | Eq a b => (eval v a =? eval v b)%Z
  | MulEq t a b => (v t =? v a * v b)%Z
  end.

Definition in_domainb (v : valuation) (d : var * (Z * Z)) : bool :=
  ((fst (snd d) <=? v (fst d)) && (v (fst d) <=? snd (snd d)))%Z.

Definition satisfiesb (m : CpModel) (v : valuation) : bool :=
  forallb (in_domainb v) (variables m) && forallb (holdsb v) (constraints m).

(** ** The solver *)

Inductive CpSolverStatus : Type :=
| UNKNOWN | MODEL_INVALID | FEASIBLE | INFEASIBLE | OPTIMAL.

Record SatParameters : Type := mkParams {
  max_time_in_seconds : Q;
  num_search_workers : nat
}.

(** [solver.Solve(model)]: the status, and the values [solver.Value] and
    [solver.BooleanValue] read afterwards. *)
Record CpSolver : Type := mkSolver {
  Solve : SatParameters -> CpModel -> CpSolverStatus * valuation
}.

(** [status in (cp_model.OPTIMAL, cp_model.FEASIBLE)] *)
Definition has_solution (st : CpSolverStatus) : bool :=
  match st with
  | OPTIMAL | FEASIBLE => true
  | _ => false
  end.

Definition BooleanValue (v : valuation) (x : var) : bool := negb (v x =? 0)%Z.

(** The solver's contract on a model: a reported solution is feasible. *)
Definition solver_sound_on (solver : CpSolver) (p : SatParameters) (m : CpModel) : Prop :=
  has_solution (fst (Solve solver p m)) = true -> satisfies m (snd (Solve solver p m)).

(** ... and one reported [OPTIMAL] is a maximum of the objective over the
    feasible solutions. *)
Definition solver_optimal_on (solver : CpSolver) (p : SatParameters) (m : CpModel) : Prop :=
  fst (Solve solver p m) = OPTIMAL ->
  forall v', satisfies m v' ->
    (objective_value m v' <= objective_value m (snd (Solve solver p m)))%Q.

End CpSat.

(** [a < b] on times and probabilities, as a boolean. *)
Definition Qltb (a b : Q) : bool := negb (Qle_bool b a).

(** A [dict] with string keys, in insertion order.  [d[k] = v] keeps the
    position of an existing key and replaces its value. *)
Fixpoint dict_set {V : Type} (k : string) (v : V) (d : list (string * V)) : list (string * V) :=
  match d with
  | [] => [(k, v)]
  | (k', v') :: d' =>
      if String.eqb k k' then (k', v) :: d' else (k', v') :: dict_set k v d'
  end.

Fixpoint dict_get {V : Type} (d : list (string * V)) (k : string) : option V :=
  match d with
  | [] => None
  | (k', v') :: d' => if String.eqb k k' then Some v' else dict_get d' k
  end.

Definition keys {V : Type} (d : list (string * V)) : list string := map fst d.

(** What the ground station stores per task name. *)
Record Info : Type := mkInfo {
  satellite : nat;
  info_success : bool;
  info_task : Task
}.

(** [d[k]] for a key the loop has just read from [d]; the default stands for
    the [KeyError] that cannot happen there. *)
Definition getitem (d : list (string * Info)) (k : string) : Info :=
  match dict_get d k with
  | Some i => i
  | None => mkInfo 0 false no_task
  end.

(* ================================================================== *)
(** * sat_mqtt/groundstation/ground.py *)

Module Ground.
Import CpSat.

Definition ALL_RESOURCES (tasks : list Task) : list Z :=
  sorted_set (flat_map resources tasks).

(** Lines 33-36: the decision variables. *)
Definition assign_vars (TASK_COUNT num_sats : nat) : CpModel -> CpModel :=
  for_each (range TASK_COUNT) (fun i =>
    for_each (range num_sats) (fun s => NewBoolVar (Assign i s))).

(** Lines 39-40: each task on at most one satellite. *)
Definition task_constraints (TASK_COUNT num_sats : nat) : CpModel -> CpModel :=
  for_each (range TASK_COUNT) (fun i =>
    Add (Le (esum (map (fun s => evar (Assign i s)) (range num_sats))) (econst 1))).

(** Lines 44-47: the variables of the tasks on [s] that need [r]. *)
Definition conflicts (tasks : list Task) (s : nat) (r : Z) : list LinearExpr :=
  for_each (range (List.length tasks)) (fun i acc =>
    if mem r (resources (task_at tasks i)) then acc ++ [evar (Assign i s)] else acc) [].

(** Lines 42-49: resource exclusivity per satellite. *)
Definition exclusivity_constraints (tasks : list Task) (num_sats : nat) : CpModel -> CpModel :=
  for_each (range num_sats) (fun s =>
    for_each (ALL_RESOURCES tasks) (fun r m =>
      match conflicts tasks s r with
      | [] => m
      | c => Add (Le (esum c) (econst 1)) m
      end)).

(** Lines 52-54: the load of each satellite. *)
Definition load_vars (TASK_COUNT num_sats : nat) (m : CpModel) : CpModel :=
  let m := for_each (range num_sats) (fun s => NewIntVar 0 (Z.of_nat TASK_COUNT) (Load s)) m in
  for_each (range num_sats) (fun s =>
    Add (Eq (evar (Load s)) (esum (map (fun i => evar (Assign i s)) (range TASK_COUNT))))) m.

(** Lines 60-68: the squared deviation of each load from [int(avg_load)];
    the state is the model and [imbalance_terms]. *)
Definition imbalance (TASK_COUNT num_sats : nat) (avg_load : Q)
    (st : CpModel * list LinearExpr) : CpModel * list LinearExpr :=
  for_each (range num_sats) (fun s st =>
    let '(m, imbalance_terms) := st in
    let m := NewIntVar (- Z.of_nat TASK_COUNT) (Z.of_nat TASK_COUNT) (Diff s) m in
    let m := Add (Eq (evar (Diff s)) (esub (evar (Load s)) (econst (int_ avg_load)))) m in
    let m := NewIntVar 0 (Z.of_nat TASK_COUNT * Z.of_nat TASK_COUNT) (Sq s) m in
    let m := AddMultiplicationEquality (Sq s) (Diff s) (Diff s) m in
    (m, imbalance_terms ++ [evar (Sq s)])) st.

Definition LAMBDA_BALANCE : Z := 1.

(** [int(task["payoff"] * 100)]: the product is a float product, rounded
    before it is truncated; it is an infinity for a payoff near the top of
    the float range, and [int] raises on an infinity and on NaN. *)
Definition scaled_payoff (task : Task) : res Z :=
  int_of_float (fmul (payoff task) (of_int 100)).

(** Lines 73-76. *)
Definition payoff_terms (tasks : list Task) (num_sats : nat) : res (list LinearExpr) :=
  for_each_res (range (List.length tasks)) (fun i =>
    for_each_res (range num_sats) (fun s acc =>
      c <- scaled_payoff (task_at tasks i) ;;
      Ok (acc ++ [escale c (evar (Assign i s))]))) [].

(** Lines 29-80: the model handed to the solver; the division of line 56
    fails for [num_sats = 0], the conversion of line 76 for a payoff whose
    hundredfold is not finite. *)
Definition build_model (tasks : list Task) (num_sats : nat) : res CpModel :=
  let TASK_COUNT := List.length tasks in
  let m := assign_vars TASK_COUNT num_sats new_model in
  let m := task_constraints TASK_COUNT num_sats m in
  let m := exclusivity_constraints tasks num_sats m in
  let m := load_vars TASK_COUNT num_sats m in
  avg_load <- truediv (Z.of_nat TASK_COUNT) (Z.of_nat num_sats) ;;
  let '(m, imbalance_terms) := imbalance TASK_COUNT num_sats avg_load (m, []) in
  payoff_terms <- payoff_terms tasks num_sats ;;
  Ok (Maximize
        (IntObjective (esub (esum payoff_terms)
                            (escale LAMBDA_BALANCE (esum imbalance_terms)))) m).

Definition parameters : SatParameters := mkParams 5%Q 8.

(** Lines 91-95. *)
Definition read_assignment (tasks : list Task) (num_sats : nat) (v : valuation)
    : list (list Task) :=
  for_each (range num_sats) (fun s =>
    for_each (range (List.length tasks)) (fun i assignment =>
      if BooleanValue v (Assign i s) then append_at s (task_at tasks i) assignment
      else assignment)) (repeat [] num_sats).

Definition cp_solve (solver : CpSolver) (tasks : list Task) (num_sats : nat)
    : res (list (list Task)) :=
  model <- build_model tasks num_sats ;;
  let '(status, v) := Solve solver parameters model in
  if negb (has_solution status) then
    Raise Infeasible
  else Ok (read_assignment tasks num_sats v).

(** ** The coordinator, [main] *)

(** One [client.publish(f"fleet/tasks/sat/{sat_id}", json.dumps(sat_tasks))]. *)
Record Publish : Type := mkPublish {
  topic_sat_id : nat;
  payload : list Task
}.

(** One [results_q.get(timeout=1.0)]: an item after some wait, or
    [queue.Empty] once the timeout has passed. *)
Inductive poll : Type :=
| Got (item : Result) (waited : Q)
| Empty (waited : Q).

Definition timeout_seconds : Q := 30%Q.

(** Lines 156-162.  [env n] is what the [n]-th call of [get] does;
    [elapsed] is [time.time() - start]; [None] when the fuel runs out. *)
Fixpoint collect (fuel : nat) (env : nat -> poll) (expected : nat)
    (n : nat) (elapsed : Q) (collected : list Result) : option (list Result * Q) :=
  if (List.length collected <? expected) && Qltb elapsed timeout_seconds then
    match fuel with
    | O => None
    | S fuel' =>
        match env n with
        | Got item waited =>
            collect fuel' env expected (S n) (elapsed + waited)%Q (collected ++ [item])
        | Empty waited =>
            collect fuel' env expected (S n) (elapsed + waited)%Q collected
        end
    end
  else Some (collected, elapsed).

(** Lines 171-174. *)
Definition summarize (collected : list Result) : list (string * Info) :=
  for_each collected (fun r summary =>
    dict_set (task_name r) (mkInfo (sat_id r) (success r) (task r)) summary) [].

(** Lines 176-177. *)
Definition success_payoff (summary : list (string * Info)) : double :=
  sum (map (fun t => payoff (info_task (getitem summary t)))
           (filter (fun t => info_success (getitem summary t)) (keys summary))).

Definition failed_payoff (summary : list (string * Info)) : double :=
  sum (map (fun t => payoff (info_task (getitem summary t)))
           (filter (fun t => negb (info_success (getitem summary t))) (keys summary))).

(** What [main] prints after the wait: the shortfall warning of line 168 and
    the final summary.  [finished_at] is not printed; it records
    [time.time() - start] when the loop of line 156 was left. *)
Record Report : Type := mkReport {
  assigned : nat;                       (* "Assigned" *)
  theoretical_payoff : double;           (* "Theoretical payoff" *)
  achieved_payoff : double;              (* "Achieved payoff" *)
  lost_payoff : double;                  (* "Lost payoff" *)
  per_task : list (string * Info);
  warning : option (nat * nat);         (* expected, got *)
  finished_at : Q
}.

Inductive outcome : Type :=
| Finished (r : Report)
| Failed (e : exn)
| OutOfFuel.

Record Run : Type := mkRun {
  published : list Publish;
  result : outcome
}.

Definition total_assigned (assignment : list (list Task)) : nat :=
  list_sum (map (@List.length Task) assignment).

Definition total_payoff (assignment : list (list Task)) : double :=
  sum (map (fun s => sum (map payoff s)) assignment).

(** Lines 144-149: [enumerate(assignment)], [sat_id = idx + 1]. *)
Definition publish_all (assignment : list (list Task)) : list Publish :=
  map (fun p => mkPublish (fst p + 1) (snd p))
      (combine (range (List.length assignment)) assignment).

Definition report (assignment : list (list Task)) (collected : list Result) (t : Q) : Report :=
  let expected := total_assigned assignment in
  let summary := summarize collected in
  mkReport expected (total_payoff assignment)
           (success_payoff summary) (failed_payoff summary) summary
           (if List.length collected <? expected then Some (expected, List.length collected) else None)
           t.

Definition main (fuel : nat) (solver : CpSolver) (env : nat -> poll)
    (tasks : list Task) (SAT_COUNT : nat) : Run :=
  match cp_solve solver tasks SAT_COUNT with
  | Raise e => mkRun [] (Failed e)
  | Ok assignment =>
      let pubs := publish_all assignment in
      match collect fuel env (total_assigned assignment) 0 0%Q [] with
      | None => mkRun pubs OutOfFuel
      | Some (collected, t) => mkRun pubs (Finished (report assignment collected t))
      end
  end.

End Ground.

(* ================================================================== *)
(** * sat_mqtt/satellite/satellite.py *)

Module Satellite.

(** Lines 36-48 of [on_message]: one result per task of the payload, in
    payload order.  [rnd n] is the [n]-th value [random.random()] returns.
    Every [Task] has a name, so [task.get('name', '<unnamed>')] is its name. *)
Fixpoint execute (SAT_ID : nat) (FAILURE_PROB : Q) (rnd : nat -> Q) (n : nat)
    (payload : list Task) : list Result :=
  match payload with
  | [] => []
  | task :: rest =>
      let tname := name task in
      let success := Qle_bool FAILURE_PROB (rnd n) in
      mkResult SAT_ID tname success task
        :: execute SAT_ID FAILURE_PROB rnd (S n) rest
  end.

Definition on_message (SAT_ID : nat) (FAILURE_PROB : Q) (rnd : nat -> Q)
    (payload : list Task) : list Result :=
  execute SAT_ID FAILURE_PROB rnd 0 payload.

End Satellite.

(* ================================================================== *)
(** * sat_multiprocessing/src/sat.py *)

Module Sat.
Import CpSat.

Definition ALL_RESOURCES (tasks : list Task) : list Z :=
  sorted_set (flat_map resources tasks).

(** Lines 40-43. *)
Definition assign_vars (TASK_COUNT num_sats : nat) : CpModel -> CpModel :=
  for_each (range TASK_COUNT) (fun i =>
    for_each (range num_sats) (fun s => NewBoolVar (Assign i s))).

(** Lines 46-47. *)
Definition task_constraints (TASK_COUNT num_sats : nat) : CpModel -> CpModel :=
  for_each (range TASK_COUNT) (fun i =>
    Add (Le (esum (map (fun s => evar (Assign i s)) (range num_sats))) (econst 1))).

(** Lines 52-55. *)
Definition conflicting (tasks : list Task) (s : nat) (r : Z) : list LinearExpr :=
  for_each (range (List.length tasks)) (fun i acc =>
    if mem r (resources (task_at tasks i)) then acc ++ [evar (Assign i s)] else acc) [].

(** Lines 50-57. *)
Definition exclusivity_constraints (tasks : list Task) (num_sats : nat) : CpModel -> CpModel :=
  for_each (range num_sats) (fun s =>
    for_each (ALL_RESOURCES tasks) (fun r m =>
      match conflicting tasks s r with
      | [] => m
      | c => Add (Le (esum c) (econst 1)) m
      end)).

(** Lines 60-63: float coefficients, no balance term. *)
Definition objective_terms (tasks : list Task) (num_sats : nat) : list (double * var) :=
  for_each (range (List.length tasks)) (fun i =>
    for_each (range num_sats) (fun s acc =>
      acc ++ [(payoff (task_at tasks i), Assign i s)])) [].

Definition build_model (tasks : list Task) (num_sats : nat) : CpModel :=
  let TASK_COUNT := List.length tasks in
  let m := assign_vars TASK_COUNT num_sats new_model in
  let m := task_constraints TASK_COUNT num_sats m in
  let m := exclusivity_constraints tasks num_sats m in
  Maximize (FloatObjective (objective_terms tasks num_sats)) m.

Definition parameters : SatParameters := mkParams 5%Q 8.

(** Lines 78-82: tasks outermost, satellites innermost. *)
Definition read_assignment (tasks : list Task) (num_sats : nat) (v : valuation)
    : list (list Task) :=
  for_each (range (List.length tasks)) (fun i =>
    for_each (range num_sats) (fun s assignment =>
      if BooleanValue v (Assign i s) then append_at s (task_at tasks i) assignment
      else assignment)) (repeat [] num_sats).

(** [None] is Python's [None], returned when no solution was found. *)
Definition cp_solve (solver : CpSolver) (tasks : list Task) (num_sats : nat)
    : option (list (list Task)) :=
  let model := build_model tasks num_sats in
  let '(status, v) := Solve solver parameters model in
  if negb (has_solution status) then None
  else Some (read_assignment tasks num_sats v).

(** ** [satellite_process] *)

(** Lines 100-106: one result per task of a received list.  [rnd n] is the
    [n]-th value [random.random()] returns. *)
Fixpoint execute (sat_id : nat) (failure_prob : Q) (rnd : nat -> Q) (n : nat)
    (item : list Task) : list Result :=
  match item with
  | [] => []
  | task :: rest =>
      let tname := name task in
      let success := Qle_bool failure_prob (rnd n) in
      mkResult sat_id tname success task
        :: execute sat_id failure_prob rnd (S n) rest
  end.

(** Lines 92-106.  [queue] is what the task queue will hand out, [None]
    being the shutdown sentinel; the value is what the process has put on the
    result queue when it ends, or when it waits on an exhausted queue. *)
Fixpoint satellite_process (sat_id : nat) (failure_prob : Q) (rnd : nat -> Q) (n : nat)
    (queue : list (option (list Task))) : list Result :=
  match queue with
  | [] => []
  | None :: _ => []
  | Some item :: queue' =>
      execute sat_id failure_prob rnd n item
        ++ satellite_process sat_id failure_prob rnd (n + List.length item) queue'
  end.

(** ** [run_groundstation] *)

(** Lines 143-146: [n] results are still awaited; [result_queue.get()] has
    no timeout, so an exhausted queue blocks for ever ([None]). *)
Fixpoint collect (n : nat) (result_queue : list Result) (results : list Result)
    : option (list Result) :=
  match n with
  | O => Some results
  | S n' =>
      match result_queue with
      | [] => None
      | res :: queue' => collect n' queue' (results ++ [res])
      end
  end.

(** Lines 153-158. *)
Definition summarize (results : list Result) : list (string * Info) :=
  for_each results (fun r summary =>
    let tname := task_name r in
    let satid := sat_id r in
    let ok := success r in
    dict_set tname (mkInfo satid ok (task r)) summary) [].

(** Lines 160-161. *)
Definition total_success_payoff (summary : list (string * Info)) : double :=
  sum (map (fun t => if info_success (getitem summary t)
                     then payoff (info_task (getitem summary t)) else fzero)
           (keys summary)).

Definition total_fail_payoff (summary : list (string * Info)) : double :=
  sum (map (fun t => if negb (info_success (getitem summary t))
                     then payoff (info_task (getitem summary t)) else fzero)
           (keys summary)).

Record Report : Type := mkReport {
  assigned : nat;                 (* "Assigned tasks" *)
  theoretical_payoff : double;     (* "Total theoretical payoff assigned" *)
  achieved_payoff : double;        (* "Payoff achieved (successful tasks)" *)
  lost_payoff : double;            (* "Payoff lost (failed tasks)" *)
  per_task : list (string * Info)
}.

Inductive outcome : Type :=
| Finished (r : Report)
| Failed (e : exn)
| Blocked.                        (* waits on [result_queue.get()] for ever *)

(** What was put on the task queues, queue by queue, and how the call ended. *)
Record Run : Type := mkRun {
  task_queues : list (list (option (list Task)));
  result : outcome
}.

Definition total_assigned (assignment : list (list Task)) : nat :=
  list_sum (map (@List.length Task) assignment).

Definition total_payoff (assignment : list (list Task)) : double :=
  sum (map (fun s => sum (map payoff s)) assignment).

(** Lines 132-137: [assignment[i]], then the sentinel, on queue [i]. *)
Definition send_all (k_sats : nat) (assignment : list (list Task))
    : list (list (option (list Task))) :=
  map (fun i => [Some (nth i assignment []); None]) (range k_sats).

Definition report (assignment : list (list Task)) (results : list Result) : Report :=
  let summary := summarize results in
  mkReport (total_assigned assignment) (total_payoff assignment)
           (total_success_payoff summary) (total_fail_payoff summary) summary.

(** Lines 110-168.  [result_queue] is what the result queue will deliver.
    [sum(len(s) for s in assignment)] on [None] is a [TypeError], raised
    before anything is put on a task queue. *)
Definition run_groundstation (solver : CpSolver) (result_queue : list Result)
    (tasks : list Task) (k_sats : nat) : Run :=
  match cp_solve solver tasks k_sats with
  | None =>
      mkRun (repeat [] k_sats) (Failed NoneType_not_iterable)
  | Some assignment =>
      let sent := send_all k_sats assignment in
      match collect (total_assigned assignment) result_queue [] with
      | None => mkRun sent Blocked
      | Some results => mkRun sent (Finished (report assignment results))
      end
  end.

End Sat.


(* ================================================================== *)
(** * Properties of assignments *)

(** The tasks whose variable for satellite [s] the solution sets, in catalog
    order. *)
Definition picked (tasks : list Task) (v : CpSat.valuation) (s : nat) : list Task :=
  map (task_at tasks)
      (filter (fun i => CpSat.BooleanValue v (CpSat.Assign i s)) (range (List.length tasks))).

(** The tasks of a sequence that require resource [r]. *)
Definition requiring (r : Z) (l : list Task) : list Task :=
  filter (fun t => mem r (resources t)) l.

(** Resource exclusivity: no satellite holds two tasks needing one resource. *)
Definition exclusive (assignment : list (list Task)) : Prop :=
  forall (s : nat) (r : Z), (List.length (requiring r (nth s assignment [])) <= 1)%nat.

Definition Task_eq_dec : forall a b : Task, {a = b} + {a <> b}.
Proof.
  decide equality.
  - decide equality. apply Z.eq_dec.
  - apply (list_eq_dec Z.eq_dec).
  - decide equality;
      try apply Bool.bool_dec; try apply Pos.eq_dec; try apply Z.eq_dec.
  - apply string_dec.
Defined.

(** How often a task record occurs in all sequences together. *)
Definition placements (assignment : list (list Task)) (t : Task) : nat :=
  count_occ Task_eq_dec (concat assignment) t.

(* ================================================================== *)
(** * The models of [cp_solve] as comprehensions *)

(** The coefficient line 76 of ground.py gives a task, where the conversion
    succeeds. *)
Definition cents (t : Task) : Z :=
  match Ground.scaled_payoff t with
  | Ok c => c
  | Raise _ => 0%Z
  end.

(** The tasks line 76 can convert: those whose hundredfold payoff is
    finite. *)
Definition convertible (t : Task) : Prop := Ground.scaled_payoff t = Ok (cents t).

Module Model.
Import CpSat.

Definition assign_decls (TASK_COUNT num_sats : nat) : list (var * (Z * Z)) :=
  flat_map (fun i => map (fun s => (Assign i s, (0, 1)%Z)) (range num_sats))
           (range TASK_COUNT).

Definition task_cs (TASK_COUNT num_sats : nat) : list constraint :=
  map (fun i => Le (esum (map (fun s => evar (Assign i s)) (range num_sats))) (econst 1))
      (range TASK_COUNT).

Definition conflict_vars (tasks : list Task) (s : nat) (r : Z) : list LinearExpr :=
  map (fun i => evar (Assign i s))
      (filter (fun i => mem r (resources (task_at tasks i))) (range (List.length tasks))).

Definition exclusivity_cs (tasks : list Task) (num_sats : nat) : list constraint :=
  flat_map (fun s =>
    flat_map (fun r =>
      match conflict_vars tasks s r with
      | [] => []
      | c => [Le (esum c) (econst 1)]
      end) (Ground.ALL_RESOURCES tasks)) (range num_sats).

Definition load_decls (TASK_COUNT num_sats : nat) : list (var * (Z * Z)) :=
  map (fun s => (Load s, (0%Z, Z.of_nat TASK_COUNT))) (range num_sats).

Definition load_cs (TASK_COUNT num_sats : nat) : list constraint :=
  map (fun s => Eq (evar (Load s))
                   (esum (map (fun i => evar (Assign i s)) (range TASK_COUNT))))
      (range num_sats).

Definition imbalance_decls (TASK_COUNT num_sats : nat) : list (var * (Z * Z)) :=
  flat_map (fun s =>
    [(Diff s, (- Z.of_nat TASK_COUNT, Z.of_nat TASK_COUNT)%Z);
     (Sq s, (0, Z.of_nat TASK_COUNT * Z.of_nat TASK_COUNT)%Z)]) (range num_sats).

Definition imbalance_cs (num_sats : nat) (k : Z) : list constraint :=
  flat_map (fun s =>
    [Eq (evar (Diff s)) (esub (evar (Load s)) (econst k));
     MulEq (Sq s) (Diff s) (Diff s)]) (range num_sats).

Definition payoff_exprs (tasks : list Task) (num_sats : nat) : list LinearExpr :=
  flat_map (fun i =>
    map (fun s => escale (cents (task_at tasks i)) (evar (Assign i s)))
        (range num_sats)) (range (List.length tasks)).

Definition float_terms (tasks : list Task) (num_sats : nat) : list (double * var) :=
  flat_map (fun i => map (fun s => (payoff (task_at tasks i), Assign i s))
                         (range num_sats))
           (range (List.length tasks)).

(** The model of ground.py when it is built; [k] is [int(avg_load)]. *)
Definition ground (tasks : list Task) (num_sats : nat) (k : Z) : CpModel :=
  let TASK_COUNT := List.length tasks in
  mkModel
    (assign_decls TASK_COUNT num_sats ++ load_decls TASK_COUNT num_sats
       ++ imbalance_decls TASK_COUNT num_sats)
    (task_cs TASK_COUNT num_sats ++ exclusivity_cs tasks num_sats
       ++ load_cs TASK_COUNT num_sats ++ imbalance_cs num_sats k)
    (IntObjective
       (esub (esum (payoff_exprs tasks num_sats))
             (escale Ground.LAMBDA_BALANCE (esum (map (fun s => evar (Sq s)) (range num_sats)))))).

(** The model of sat.py. *)
Definition sat (tasks : list Task) (num_sats : nat) : CpModel :=
  let TASK_COUNT := List.length tasks in
  mkModel (assign_decls TASK_COUNT num_sats)
          (task_cs TASK_COUNT num_sats ++ exclusivity_cs tasks num_sats)
          (FloatObjective (float_terms tasks num_sats)).

End Model.

(** [sum(...)] over ints. *)
Definition sumZ (l : list Z) : Z := fold_right Z.add 0%Z l.

(** The two hard constraints, read on the values of the decision variables. *)
Definition at_most_one_satellite (tasks : list Task) (num_sats : nat)
    (v : CpSat.valuation) : Prop :=
  forall i, (i < List.length tasks)%nat ->
    (List.length (filter (fun s => CpSat.BooleanValue v (CpSat.Assign i s)) (range num_sats))
     <= 1)%nat.

Definition no_conflict (tasks : list Task) (num_sats : nat) (v : CpSat.valuation) : Prop :=
  forall s r, (s < num_sats)%nat ->
    (List.length
       (filter (fun i => mem r (resources (task_at tasks i))
                         && CpSat.BooleanValue v (CpSat.Assign i s))
               (range (List.length tasks)))
     <= 1)%nat.

(* ================================================================== *)
(** * A reference solver

    Exhaustive search over the declared domains.  It stands in for the CP-SAT
    library wherever a concrete solver is needed: it meets the contract
    ([solver_sound_on], [solver_optimal_on]) on every model, and it lets
    [cp_solve] run on small catalogs. *)

Module Reference.
Import CpSat.

Definition var_eqb (x y : var) : bool :=
  match x, y with
  | Assign i s, Assign j t => (i =? j)%nat && (s =? t)%nat
  | Load s, Load t => (s =? t)%nat
  | Diff s, Diff t => (s =? t)%nat
  | Sq s, Sq t => (s =? t)%nat
  | _, _ => false
  end.

(** A candidate solution lists a value per declared variable. *)
Fixpoint lookup (a : list (var * Z)) (x : var) : Z :=
  match a with
  | [] => 0%Z
  | (y, z) :: a' => if var_eqb x y then z else lookup a' x
  end.

Definition zrange (lo hi : Z) : list Z :=
  map (fun k => (lo + Z.of_nat k)%Z) (seq 0 (Z.to_nat (hi - lo + 1))).

Fixpoint enumerate (decls : list (var * (Z * Z))) : list (list (var * Z)) :=
  match decls with
  | [] => [[]]
  | (x, (lo, hi)) :: decls' =>
      flat_map (fun z => map (cons (x, z)) (enumerate decls')) (zrange lo hi)
  end.

Definition better (m : CpModel) (a b : list (var * Z)) : list (var * Z) :=
  if Qle_bool (objective_value m (lookup a)) (objective_value m (lookup b))
  then b else a.

Definition best (m : CpModel) (cands : list (list (var * Z))) : option (list (var * Z)) :=
  match cands with
  | [] => None
  | c :: cs => Some (fold_left (better m) cs c)
  end.

Definition expr_vars (e : LinearExpr) : list var := map snd (terms e).

Definition constraint_vars (c : constraint) : list var :=
  match c with
  | Le a b | Eq a b => expr_vars a ++ expr_vars b
  | MulEq t a b => [t; a; b]
  end.

Definition objective_vars (o : Objective) : list var :=
  match o with
  | NoObjective => []
  | IntObjective e => expr_vars e
  | FloatObjective ts => map snd ts
  end.

Definition declared (m : CpModel) (x : var) : bool :=
  existsb (var_eqb x) (map fst (variables m)).

(** Every variable the model mentions has been declared. *)
Definition closedb (m : CpModel) : bool :=
  forallb (declared m)
          (flat_map constraint_vars (constraints m) ++ objective_vars (objective m)).

Definition feasible_candidates (m : CpModel) : list (list (var * Z)) :=
  filter (fun a => satisfiesb m (lookup a)) (enumerate (variables m)).

Definition Solve (p : SatParameters) (m : CpModel) : CpSolverStatus * valuation :=
  match best m (feasible_candidates m) with
  | None => (if closedb m then INFEASIBLE else UNKNOWN, fun _ => 0%Z)
  | Some a => (if closedb m then OPTIMAL else FEASIBLE, lookup a)
  end.

Definition solver : CpSolver := mkSolver Solve.

(** The candidate that agrees with [v] on the declared variables. *)
Definition restrict (v : valuation) (decls : list (var * (Z * Z))) : list (var * Z) :=
  map (fun d => (fst d, v (fst d))) decls.

End Reference.

(** The catalog of the specification's first scenario. *)
Definition task_A : Task := mkTask "A" (of_int 10) [1%Z] None.
Definition task_B : Task := mkTask "B" (of_int 5) [1%Z] None.
Definition catalog_AB : list Task := [task_A; task_B].

(** At-most-once placement: no catalog entry is placed more often than it
    occurs in the catalog, and a catalog of distinct records never has one
    record in the sequences of two satellites. *)
Definition placed_at_most_once (tasks : list Task) (assignment : list (list Task)) : Prop :=
  (forall t, (placements assignment t <= count_occ Task_eq_dec tasks t)%nat) /\
  (NoDup tasks ->
   forall t s1 s2,
     In t (nth s1 assignment []) -> In t (nth s2 assignment []) -> s1 = s2).

(** A solver whose time budget always runs out before a solution is found. *)
Definition timed_out_solver : CpSat.CpSolver :=
  CpSat.mkSolver (fun _ _ => (CpSat.UNKNOWN, fun _ => 0%Z)).

(* ================================================================== *)
(** * The objective *)

(** The payoff of the assigned (task, worker) pairs, without rounding. *)
Definition exact_payoff (assignment : list (list Task)) : Q :=
  sumQ (map (fun w => exact_sum (map payoff w)) assignment).


(** The objective ground.py maximizes, read on the assignment: every payoff
    as [int(payoff * 100)], the loads measured against [int(avg_load)]. *)
Definition code_objective (tasks : list Task) (num_sats : nat)
    (assignment : list (list Task)) : Z :=
  let avg := Z.quot (Z.of_nat (List.length tasks)) (Z.of_nat num_sats) in
  let load (w : list Task) := Z.of_nat (List.length w) in
  (sumZ (map (fun w => sumZ (map cents w)) assignment)
   - Ground.LAMBDA_BALANCE
     * sumZ (map (fun w => (load w - avg) * (load w - avg)) assignment))%Z.


(** Values of the decision variables that obey the two hard constraints. *)
Definition hard_feasible (tasks : list Task) (num_sats : nat) (v : CpSat.valuation) : Prop :=
  (forall i s, (i < List.length tasks)%nat -> (s < num_sats)%nat ->
               (0 <= v (CpSat.Assign i s) <= 1)%Z) /\
  at_most_one_satellite tasks num_sats v /\
  no_conflict tasks num_sats v.

(** The values ground.py's auxiliary variables must take once the decision
    variables are fixed. *)
Definition complete (tasks : list Task) (num_sats : nat) (v : CpSat.valuation)
    : CpSat.valuation :=
  let avg := Z.quot (Z.of_nat (List.length tasks)) (Z.of_nat num_sats) in
  let load (s : nat) := Z.of_nat (List.length (picked tasks v s)) in
  fun x =>
    match x with
    | CpSat.Assign i s => v (CpSat.Assign i s)
    | CpSat.Load s => load s
    | CpSat.Diff s => (load s - avg)%Z
    | CpSat.Sq s => ((load s - avg) * (load s - avg))%Z
    end.







(** Decision values that place task [B] of [catalog_AB] on the only satellite. *)
Definition place_B : CpSat.valuation :=
  fun x => match x with CpSat.Assign 1 0 => 1%Z | _ => 0%Z end.

(* ================================================================== *)
(** * Properties of summaries *)

(** What the summary stores for a result. *)
Definition info_of (r : Result) : Info := mkInfo (sat_id r) (success r) (task r).

(** The last result, in arrival order, that carries task name [k]. *)
Definition last_result (k : string) (rs : list Result) : option Result :=
  find (fun r => String.eqb k (task_name r)) (rev rs).

(** A result some satellite of the MQTT fleet publishes for the task list it
    was sent: satellite [s + 1] receives [assignment[s]]. *)
Definition published_by_satellite (assignment : list (list Task)) (r : Result) : Prop :=
  exists (s : nat) (FAILURE_PROB : Q) (rnd : nat -> Q),
    In r (Satellite.on_message (s + 1) FAILURE_PROB rnd (nth s assignment [])).

(** A result some satellite process puts on the result queue, given what
    [run_groundstation] put on its task queue. *)
Definition put_by_process (k_sats : nat) (assignment : list (list Task)) (r : Result) : Prop :=
  exists (s : nat) (failure_prob : Q) (rnd : nat -> Q),
    In r (Sat.satellite_process (s + 1) failure_prob rnd 0
            (nth s (Sat.send_all k_sats assignment) [])).

(** The last result of every task name in [ks]. *)
Definition final_results (rs : list Result) (ks : list string) : list Result :=
  flat_map (fun k => match last_result k rs with Some r => [r] | None => [] end) ks.

(** The tasks whose payoff the achieved payoff counts, given the last result
    of every task name. *)
Definition counted (finals : list Result) : list Task := map task (filter success finals).

(** Two results for task ["A"]: a failure, then a success. *)
Definition result_A_fail : Result := mkResult 1 "A" false task_A.
Definition result_A_ok : Result := mkResult 1 "A" true task_A.

(** The lost payoff in the specification's words: the payoff of the results
    that report failure plus the payoff of the dispatched tasks no collected
    result names. *)
Definition spec_lost_payoff (assignment : list (list Task)) (collected : list Result) : double :=
  fadd (sum (map (fun r => payoff (task r)) (filter (fun r => negb (success r)) collected)))
       (sum (map payoff
               (filter (fun t => negb (existsb (fun r => String.eqb (task_name r) (name t))
                                               collected))
                       (concat assignment)))).

(** Three tasks worth 0.1, 0.2 and 0.3 that share no resource; decision
    values that put the first on satellite 1 and the others on satellite 2,
    with the auxiliary variables ground.py adds; a solver that reports these
    values, an optimum of ground.py's model, as optimal; and a channel that
    delivers the successes of the three tasks, satellite by satellite. *)
Definition task_P1 : Task := mkTask "P1" (dec 1 1) [1%Z] None.
Definition task_P2 : Task := mkTask "P2" (dec 2 1) [2%Z] None.
Definition task_P3 : Task := mkTask "P3" (dec 3 1) [3%Z] None.
Definition catalog_P : list Task := [task_P1; task_P2; task_P3].

Definition place_P : CpSat.valuation :=
  complete catalog_P 2
    (fun x => match x with
              | CpSat.Assign 0 0 | CpSat.Assign 1 1 | CpSat.Assign 2 1 => 1%Z
              | _ => 0%Z
              end).

Definition solver_P : CpSat.CpSolver :=
  CpSat.mkSolver (fun _ _ => (CpSat.OPTIMAL, place_P)).

Definition env_P : nat -> Ground.poll :=
  fun k => match k with
           | 0 => Ground.Got (mkResult 1 "P1" true task_P1) (1 # 10)%Q
           | 1 => Ground.Got (mkResult 2 "P2" true task_P2) (1 # 10)%Q
           | 2 => Ground.Got (mkResult 2 "P3" true task_P3) (1 # 10)%Q
           | _ => Ground.Empty 1%Q
           end.

(** A channel on which nothing ever arrives: every [get] times out after one
    second. *)
Definition silent_env : nat -> Ground.poll := fun _ => Ground.Empty 1%Q.

(** A channel that delivers the success of task [A] and is silent afterwards. *)
Definition one_result_env : nat -> Ground.poll :=
  fun k => match k with
           | O => Ground.Got result_A_ok (1 # 10)%Q
           | S _ => Ground.Empty 1%Q
           end.

(** Results for tasks [A] and [B], the second a failure. *)
Definition result_B_fail : Result := mkResult 2 "B" false task_B.

(* ================================================================== *)
(** * Further properties: definitions *)

(** The decision values that leave every task unassigned. *)
Definition unassigned : CpSat.valuation := fun _ => 0%Z.

(** The results among the [k] calls of [get] from the [n]-th on, in arrival
    order. *)
Fixpoint delivered (env : nat -> Ground.poll) (n k : nat) : list Result :=
  match k with
  | O => []
  | S k' =>
      match env n with
      | Ground.Got item _ => item :: delivered env (S n) k'
      | Ground.Empty _ => delivered env (S n) k'
      end
  end.

(** Draws that always fall in the middle of [0, 1). *)
Definition half_draws : nat -> Q := fun _ => (1 # 2)%Q.

(** What the satellite processes of sat.py put on the result queue when they
    run one after the other: process [s + 1] works through what
    [run_groundstation] put on task queue [s], with its own failure
    probability and random draws. *)
Definition fleet_results (k_sats : nat) (assignment : list (list Task))
    (failure_probs : nat -> Q) (rnds : nat -> nat -> Q) : list Result :=
  flat_map (fun s => Sat.satellite_process (s + 1) (failure_probs s) (rnds s) 0
                       (nth s (Sat.send_all k_sats assignment) []))
           (range k_sats).

(* ================================================================== *)
(** * JSON values and the Python operations applied to them *)

Module Py.

(** What [json.load] returns.  An object is an association list read by its
    first entry for a key. *)
#[warnings="-register-all"]
Inductive json : Type :=
| JNull
| JBool (b : bool)
| JInt (z : Z)
| JFloat (x : double)
| JStr (s : string)
| JList (l : list json)
| JDict (d : list (string * json)).

Inductive error : Type :=
| KeyError (key : string)
| TypeError
| ValueError
| OverflowError
| AssertionError
| AttributeError
| SystemExit (msg : string).

Inductive outcome (A : Type) : Type :=
| Return (a : A)
| Throw (e : error).
Arguments Return {A} a.
Arguments Throw {A} e.

Definition bind {A B : Type} (c : outcome A) (k : A -> outcome B) : outcome B :=
  match c with
  | Return a => k a
  | Throw e => Throw e
  end.

Notation "x <-- c ;; k" := (bind c (fun x => k))
  (at level 61, c at next level, right associativity).

(** [[f(x) for x in xs]]: left to right, the first exception ends it. *)
Fixpoint mapM {A B : Type} (f : A -> outcome B) (xs : list A) : outcome (list B) :=
  match xs with
  | [] => Return []
  | x :: xs' =>
      y <-- f x ;;
      ys <-- mapM f xs' ;;
      Return (y :: ys)
  end.

Fixpoint lookup (d : list (string * json)) (k : string) : option json :=
  match d with
  | [] => None
  | (k', v) :: d' => if String.eqb k k' then Some v else lookup d' k
  end.

(** [x[k]] for a string [k]: only an object can be indexed by a string. *)
Definition getitem (x : json) (k : string) : outcome json :=
  match x with
  | JDict d =>
      match lookup d k with
      | Some v => Return v
      | None => Throw (KeyError k)
      end
  | _ => Throw TypeError
  end.

Definition is_str (k : string) (x : json) : bool :=
  match x with
  | JStr s => String.eqb s k
  | _ => false
  end.

(** [k in x] for a string [k]: a key of an object, an element of a list, a
    substring of a string; the other values are not containers. *)
Definition contains (k : string) (x : json) : outcome bool :=
  match x with
  | JDict d => Return (match lookup d k with Some _ => true | None => false end)
  | JList l => Return (existsb (is_str k) l)
  | JStr s => Return (match String.index 0 k s with Some _ => true | None => false end)
  | _ => Throw TypeError
  end.

(** [iter(x)]: the elements of a list, the characters of a string, the keys
    of an object. *)
Definition iter (x : json) : outcome (list json) :=
  match x with
  | JList l => Return l
  | JStr s => Return (map (fun c => JStr (String c EmptyString)) (list_ascii_of_string s))
  | JDict d => Return (map (fun kv => JStr (fst kv)) d)
  | _ => Throw TypeError
  end.

(** [bool(x)]. *)
Definition truthy (x : json) : bool :=
  match x with
  | JNull => false
  | JBool b => b
  | JInt z => negb (z =? 0)%Z
  | JFloat x => negb (SFeqb x fzero)
  | JStr s => negb (String.eqb s EmptyString)
  | JList l => match l with [] => false | _ => true end
  | JDict d => match d with [] => false | _ => true end
  end.

(** [float(z)] for an int. *)
Definition float_of_int (z : Z) : outcome double :=
  match of_int z with
  | S754_infinity _ => Throw OverflowError
  | x => Return x
  end.

Section Conversions.
(** How Python prints a value that is not a string, and how it reads a number
    from a string: text formats this development does not spell out. *)
Variable repr : json -> string.
Variable parse_float : string -> option double.
Variable parse_int : string -> option Z.

(** [str(x)] *)
Definition str (x : json) : string :=
  match x with
  | JStr s => s
  | _ => repr x
  end.

(** [float(x)]: an int is rounded to the nearest float, and one beyond the
    float range is refused. *)
Definition float (x : json) : outcome double :=
  match x with
  | JInt z => float_of_int z
  | JFloat x => Return x
  | JBool b => Return (of_int (if b then 1 else 0))
  | JStr s =>
      match parse_float s with
      | Some x => Return x
      | None => Throw ValueError
      end
  | _ => Throw TypeError
  end.

(** [int(x)] *)
Definition int (x : json) : outcome Z :=
  match x with
  | JInt z => Return z
  | JFloat (S754_infinity _) => Throw OverflowError
  | JFloat S754_nan => Throw ValueError
  | JFloat x => Return (truncate x)
  | JBool b => Return (if b then 1%Z else 0%Z)
  | JStr s =>
      match parse_int s with
      | Some z => Return z
      | None => Throw ValueError
      end
  | _ => Throw TypeError
  end.

(** Lines 17-24 of ground.py, 22-29 of sat.py: the task built from one item. *)
Definition build_task (it : json) : outcome Task :=
  n <-- getitem it "name" ;;
  p <-- getitem it "payoff" ;;
  p <-- float p ;;
  r <-- getitem it "resources" ;;
  r <-- iter r ;;
  r <-- mapM int r ;;
  has <-- contains "execution_time" it ;;
  if (has : bool) then
    e <-- getitem it "execution_time" ;;
    e <-- int e ;;
    Return (mkTask (str n) p r (Some e))
  else Return (mkTask (str n) p r None).

(** ground.py, [load_tasks_from_json], applied to what [json.load] returned. *)
Definition ground_load_tasks_from_json (items : json) : outcome (list Task) :=
  its <-- iter items ;;
  mapM build_task its.

(** Line 21 of sat.py: [assert 'name' in it and 'payoff' in it and 'resources' in it]. *)
Definition assert_keys (it : json) : outcome unit :=
  a <-- contains "name" it ;;
  if negb a then Throw AssertionError else
  b <-- contains "payoff" it ;;
  if negb b then Throw AssertionError else
  c <-- contains "resources" it ;;
  if negb c then Throw AssertionError else Return tt.

Definition sat_load_item (it : json) : outcome Task :=
  _ <-- assert_keys it ;;
  build_task it.

(** sat.py, [load_tasks_from_json]. *)
Definition sat_load_tasks_from_json (items : json) : outcome (list Task) :=
  its <-- iter items ;;
  mapM sat_load_item its.

End Conversions.

(** The object [json.dumps] writes for a task dictionary. *)
Definition dump_task (t : Task) : json :=
  JDict ([("name"%string, JStr (name t));
          ("payoff"%string, JFloat (payoff t));
          ("resources"%string, JList (map JInt (resources t)))]
         ++ match execution_time t with
            | Some e => [("execution_time"%string, JInt e)]
            | None => []
            end).

End Py.

(** Stand-ins for Python's text formats in examples: every value prints as
    ["?"], and no string reads as a number. *)
Definition no_repr : Py.json -> string := fun _ => "?"%string.
Definition no_float : string -> option double := fun _ => None.
Definition no_int : string -> option Z := fun _ => None.

(** An item whose payoff is the int 2^53 + 1, which is no float, and the
    task it loads to: the payoff becomes the float 2^53. *)
Definition item_big_payoff : Py.json :=
  Py.JDict [("name", Py.JStr "big"); ("payoff", Py.JInt (2 ^ 53 + 1));
            ("resources", Py.JList [Py.JInt 1])]%string.

Definition task_big_payoff : Task := mkTask "big" (of_int (2 ^ 53)) [1%Z] None.

(** An item without a payoff. *)
Definition item_without_payoff : list (string * Py.json) :=
  [("name"%string, Py.JStr "A"); ("resources"%string, Py.JList [Py.JInt 1])].

(* ================================================================== *)
(** * sat.py, [main]: the failure probabilities *)

Module SatMain.
Import Py.

(** [s.split(',')] *)
Fixpoint split_comma (s : string) : list string :=
  match s with
  | EmptyString => [EmptyString]
  | String c s' =>
      if Ascii.eqb c ","%char then EmptyString :: split_comma s'
      else match split_comma s' with
           | p :: ps => String c p :: ps
           | [] => [String c EmptyString]
           end
  end.

Definition length_mismatch : error :=
  SystemExit "failure-probs length must match number of satellites or be a single value".

Section Main.
Variable parse_float : string -> option Q.

(** [float(p)] for a string [p]. *)
Definition float_of_str (p : string) : outcome Q :=
  match parse_float p with
  | Some q => Return q
  | None => Throw ValueError
  end.

(** Lines 180-189: the list handed to [run_groundstation] as
    [failure_probs], from [args.failure_probs] ([None] when the option is
    absent) and [k = args.satellites]. *)
Definition failure_probs (arg : option string) (k : nat) : outcome (list Q) :=
  match arg with
  | None => Return (repeat (1 # 10)%Q k)
  | Some s =>
      if String.eqb s EmptyString then Return (repeat (1 # 10)%Q k)
      else
        probs <-- mapM float_of_str (split_comma s) ;;
        if (List.length probs =? 1)%nat then Return (concat (repeat probs k))
        else if negb (List.length probs =? k)%nat then Throw length_mismatch
        else Return probs
  end.

End Main.
End SatMain.

(** A reader of the two numerals used in examples. *)
Definition two_numerals (s : string) : option Q :=
  if String.eqb s "0.05" then Some (1 # 20)%Q
  else if String.eqb s "0.15" then Some (3 # 20)%Q
  else None.

(* ================================================================== *)
(** * The MQTT callbacks and the summary over parsed payloads *)

(** The typed [Result] and [Info] above describe the messages the satellites
    publish.  The callbacks themselves take whatever [json.loads] returns;
    this module follows them on arbitrary JSON values.  A published value
    stands for its JSON text. *)
Module Payload.
Import Py.

Definition is_object (x : json) : bool :=
  match x with
  | JDict _ => true
  | _ => false
  end.

(** [x.get(k, default)]: only a dict has the method. *)
Definition get (x : json) (k : string) (default : json) : outcome json :=
  match x with
  | JDict d => Return (match lookup d k with Some v => v | None => default end)
  | _ => Throw AttributeError
  end.

(** satellite.py, lines 36-48: the loop of [on_message].  The pair holds the
    results published so far and the exception that ended the callback, if
    any; [rnd n] is the [n]-th value [random.random()] returns. *)
Fixpoint execute (SAT_ID : Z) (FAILURE_PROB : Q) (rnd : nat -> Q) (n : nat)
    (payload : list json) : list json * option error :=
  match payload with
  | [] => ([], None)
  | task :: rest =>
      match get task "name" (JStr "<unnamed>") with
      | Throw e => ([], Some e)
      | Return tname =>
          let success := Qle_bool FAILURE_PROB (rnd n) in
          let result := JDict [("sat_id", JInt SAT_ID); ("task_name", tname);
                               ("success", JBool success); ("task", task)]%string in
          let (published, raised) := execute SAT_ID FAILURE_PROB rnd (S n) rest in
          (result :: published, raised)
      end
  end.

(** satellite.py, lines 24-48.  [msg] is [None] when decoding or parsing the
    payload raises. *)
Definition satellite_on_message (SAT_ID : Z) (FAILURE_PROB : Q) (rnd : nat -> Q)
    (msg : option json) : list json * option error :=
  match msg with
  | None => ([], None)
  | Some (JList payload) => execute SAT_ID FAILURE_PROB rnd 0 payload
  | Some _ => ([], None)
  end.

(** ground.py, lines 118-124: [on_message] queues every payload that
    parses. *)
Definition ground_on_message (msg : option json) (results_q : list json) : list json :=
  match msg with
  | None => results_q
  | Some payload => results_q ++ [payload]
  end.

(** Lists and objects cannot be dictionary keys. *)
Definition hashable (x : json) : bool :=
  match x with
  | JList _ | JDict _ => false
  | _ => true
  end.

(** A Python number: an int or a float. *)
Inductive num : Type :=
| NInt (z : Z)
| NFloat (x : double).

(** [True] and [False] are the integers 1 and 0. *)
Definition number (x : json) : option num :=
  match x with
  | JBool b => Some (NInt (if b then 1 else 0)%Z)
  | JInt z => Some (NInt z)
  | JFloat x => Some (NFloat x)
  | _ => None
  end.

(** [a == b] on numbers: an int and a float are compared exactly. *)
Definition num_eqb (a b : num) : bool :=
  match a, b with
  | NInt x, NInt y => (x =? y)%Z
  | NFloat x, NFloat y => SFeqb x y
  | NInt x, NFloat y => is_finite y && Qeq_bool (value y) (inject_Z x)
  | NFloat x, NInt y => is_finite x && Qeq_bool (value x) (inject_Z y)
  end.

(** Equality of dictionary keys: numbers by value, strings by content. *)
Definition key_eqb (x y : json) : bool :=
  match x, y with
  | JNull, JNull => true
  | JStr s, JStr s' => String.eqb s s'
  | _, _ =>
      match number x, number y with
      | Some a, Some b => num_eqb a b
      | _, _ => false
      end
  end.

(** [d[k] = v] for a [dict] with arbitrary hashable keys, in insertion order,
    [k] being a key just read from a payload: an equal key keeps its place
    and its first spelling. *)
Fixpoint setitem (k v : json) (d : list (json * json)) : list (json * json) :=
  match d with
  | [] => [(k, v)]
  | (k', v') :: d' =>
      if key_eqb k k' then (k', v) :: d' else (k', v') :: setitem k v d'
  end.

Definition store (k v : json) (d : list (json * json)) : outcome (list (json * json)) :=
  if hashable k then Return (setitem k v d) else Throw TypeError.

(** ground.py, lines 171-174. *)
Fixpoint summarize (collected : list json) (summary : list (json * json))
    : outcome (list (json * json)) :=
  match collected with
  | [] => Return summary
  | r :: rest =>
      tn <-- get r "task_name" JNull ;;
      sid <-- get r "sat_id" JNull ;;
      suc <-- get r "success" JNull ;;
      tk <-- get r "task" JNull ;;
      summary' <-- store tn (JDict [("satellite", sid); ("success", suc); ("task", tk)]%string)
                     summary ;;
      summarize rest summary'
  end.

(** [a + b] on numbers: ints add exactly; an int that meets a float is
    converted first. *)
Definition add_num (a b : num) : outcome num :=
  match a, b with
  | NInt x, NInt y => Return (NInt (x + y))
  | NInt x, NFloat y => fx <-- float_of_int x ;; Return (NFloat (fadd fx y))
  | NFloat x, NInt y => fy <-- float_of_int y ;; Return (NFloat (fadd x fy))
  | NFloat x, NFloat y => Return (NFloat (fadd x y))
  end.

(** [acc + x] inside [sum]. *)
Definition add (acc : num) (x : json) : outcome num :=
  match number x with
  | Some n => add_num acc n
  | None => Throw TypeError
  end.

(** Lines 176-177: [sum(summary[t]['task']['payoff'] for t in summary if c)]
    where [c] is [summary[t]['success']] ([want = true]) or its negation
    ([want = false]).  The loop visits the keys in insertion order, and
    [summary[t]] for the key [t] it is at is the entry stored with [t]:
    [entries] are the keys still to visit, each with its entry. *)
Fixpoint payoff_sum (want : bool) (entries : list (json * json)) (acc : num)
    : outcome num :=
  match entries with
  | [] => Return acc
  | (t, info) :: entries' =>
      s <-- getitem info "success" ;;
      if Bool.eqb (truthy s) want then
        tk <-- getitem info "task" ;;
        p <-- getitem tk "payoff" ;;
        acc' <-- add acc p ;;
        payoff_sum want entries' acc'
      else payoff_sum want entries' acc
  end.

(** Lines 171-177: the summary dictionary, the achieved and the lost
    payoff; [sum] starts from the int [0]. *)
Definition summary_of (collected : list json) : outcome (list (json * json) * num * num) :=
  summary <-- summarize collected [] ;;
  success_payoff <-- payoff_sum true summary (NInt 0) ;;
  failed_payoff <-- payoff_sum false summary (NInt 0) ;;
  Return (summary, success_payoff, failed_payoff).

(** The float a number stands for where, as here, it is in range. *)
Definition float_of_num (n : num) : double :=
  match n with
  | NInt z => of_int z
  | NFloat x => x
  end.

(** The JSON values of the typed messages. *)
Definition dump_result (r : Result) : json :=
  JDict [("sat_id", JInt (Z.of_nat (sat_id r))); ("task_name", JStr (task_name r));
         ("success", JBool (success r)); ("task", dump_task (task r))]%string.

Definition dump_entry (kv : string * Info) : json * json :=
  (JStr (fst kv),
   JDict [("satellite", JInt (Z.of_nat (satellite (snd kv))));
          ("success", JBool (info_success (snd kv)));
          ("task", dump_task (info_task (snd kv)))]%string).

End Payload.

(** A task object without a name. *)
Definition anonymous_task : Py.json :=
  Py.JDict [("payoff", Py.JFloat (of_int 3)); ("resources", Py.JList [])]%string.

(** A summary entry whose task is an object with a numeric payoff. *)
Definition priced (v : Py.json) : Prop :=
  exists sid suc d p q,
    v = Py.JDict [("satellite", sid); ("success", suc); ("task", Py.JDict d)]%string /\
    Py.lookup d "payoff" = Some p /\ Payload.number p = Some q.

(** The payloads of the messages that parse, in arrival order. *)
Definition parsed (msgs : list (option Py.json)) : list Py.json :=
  flat_map (fun m => match m with Some payload => [payload] | None => [] end) msgs.
(* ================================================================== *)
(** * Loops and lists *)

Section Loops.
Context {A S : Type}.

Lemma for_each_nil (body : A -> S -> S) (st : S) : for_each [] body st = st.
Proof. reflexivity. Qed.

Lemma for_each_cons (x : A) (xs : list A) (body : A -> S -> S) (st : S) :
  for_each (x :: xs) body st = for_each xs body (body x st).
Proof. reflexivity. Qed.

Lemma for_each_snoc (x : A) (xs : list A) (body : A -> S -> S) (st : S) :
  for_each (xs ++ [x]) body st = body x (for_each xs body st).
Proof. unfold for_each. now rewrite fold_left_app. Qed.

(** A loop whose body leaves a component of the state alone leaves it alone. *)
Lemma for_each_keeps {B : Type} (proj : S -> B) (xs : list A) (body : A -> S -> S) :
  (forall a st, proj (body a st) = proj st) ->
  forall st, proj (for_each xs body st) = proj st.
Proof.
  intros Hbody. induction xs as [|x xs IH]; intro st; [reflexivity|].
  rewrite for_each_cons, IH. apply Hbody.
Qed.

(** A loop whose body appends [f a] to a list component appends them all. *)
Lemma for_each_appends {B : Type} (proj : S -> list B) (f : A -> list B)
    (xs : list A) (body : A -> S -> S) :
  (forall a st, proj (body a st) = proj st ++ f a) ->
  forall st, proj (for_each xs body st) = proj st ++ flat_map f xs.
Proof.
  intros Hbody. induction xs as [|x xs IH]; intro st.
  - simpl. now rewrite app_nil_r.
  - rewrite for_each_cons, IH, Hbody. simpl. now rewrite app_assoc.
Qed.
End Loops.

Lemma flat_map_optional {A B : Type} (p : A -> bool) (f : A -> B) (xs : list A) :
  flat_map (fun a => if p a then [f a] else []) xs = map f (filter p xs).
Proof.
  induction xs as [|x xs IH]; [reflexivity|].
  simpl. destruct (p x); simpl; now rewrite IH.
Qed.

Lemma flat_map_singleton {A B : Type} (f : A -> B) (xs : list A) :
  flat_map (fun a => [f a]) xs = map f xs.
Proof. induction xs as [|x xs IH]; [reflexivity|]. simpl. now rewrite IH. Qed.

Lemma filter_map_swap {A B : Type} (p : B -> bool) (f : A -> B) (xs : list A) :
  filter p (map f xs) = map f (filter (fun a => p (f a)) xs).
Proof.
  induction xs as [|x xs IH]; [reflexivity|].
  simpl. destruct (p (f x)); simpl; now rewrite IH.
Qed.

Lemma filter_filter {A : Type} (p q : A -> bool) (xs : list A) :
  filter p (filter q xs) = filter (fun a => q a && p a) xs.
Proof.
  induction xs as [|x xs IH]; [reflexivity|].
  simpl. destruct (q x); simpl; [destruct (p x)|]; now rewrite IH.
Qed.

Lemma range_In (n i : nat) : In i (range n) <-> (i < n)%nat.
Proof. unfold range. rewrite in_seq. lia. Qed.

Lemma task_at_In (tasks : list Task) (i : nat) :
  (i < List.length tasks)%nat -> In (task_at tasks i) tasks.
Proof. intro H. now apply nth_In. Qed.

(** ** [sorted(set(...))] keeps exactly the members *)

Lemma insert_sorted_In (x y : Z) (l : list Z) :
  In y (insert_sorted x l) <-> y = x \/ In y l.
Proof.
  induction l as [|z l IH]; simpl.
  - intuition.
  - destruct (Z.ltb_spec x z); [simpl; intuition|].
    destruct (Z.eqb_spec x z); simpl.
    + subst. intuition.
    + rewrite IH. intuition.
Qed.

Lemma sorted_set_In (y : Z) (xs : list Z) : In y (sorted_set xs) <-> In y xs.
Proof.
  induction xs as [|x xs IH]; simpl; [tauto|].
  rewrite insert_sorted_In, IH. intuition.
Qed.

Lemma mem_In (x : Z) (xs : list Z) : mem x xs = true <-> In x xs.
Proof.
  unfold mem. rewrite existsb_exists. split.
  - intros (y & Hy & E). apply Z.eqb_eq in E. now subst.
  - intro H. exists x. split; [assumption|apply Z.eqb_refl].
Qed.

(** ** [a[s].append(x)] *)

Lemma append_at_length {A : Type} (s : nat) (x : A) (a : list (list A)) :
  List.length (append_at s x a) = List.length a.
Proof.
  revert s. induction a as [|l a IH]; intros [|s]; simpl; auto.
Qed.

Lemma append_at_nth {A : Type} (s s' : nat) (x : A) (a : list (list A)) :
  (s < List.length a)%nat ->
  nth s' (append_at s x a) [] =
  if (s' =? s)%nat then nth s' a [] ++ [x] else nth s' a [].
Proof.
  revert s s'. induction a as [|l a IH]; intros s s' Hs; simpl in Hs; [lia|].
  destruct s as [|s], s' as [|s']; simpl; try reflexivity.
  apply IH. lia.
Qed.

(** The lists of one inner loop of [read_assignment]: list [s] receives, in
    order, the [pick i] with [sel i]; the other lists are unchanged. *)
Lemma append_loop_nth {A : Type} (sel : nat -> bool) (pick : nat -> A) (s s' : nat)
    (is_ : list nat) (a : list (list A)) :
  (s < List.length a)%nat ->
  nth s' (for_each is_ (fun i a => if sel i then append_at s (pick i) a else a) a) [] =
  if (s' =? s)%nat then nth s' a [] ++ map pick (filter sel is_) else nth s' a [].
Proof.
  revert a. induction is_ as [|i is_ IH]; intros a Hs.
  - simpl. destruct (s' =? s)%nat; [now rewrite app_nil_r|reflexivity].
  - rewrite for_each_cons. simpl filter. destruct (sel i).
    + rewrite IH by now rewrite append_at_length.
      rewrite append_at_nth by assumption.
      destruct (s' =? s)%nat; [|reflexivity].
      simpl. now rewrite <- app_assoc.
    + now apply IH.
Qed.

Lemma append_loop_length {A : Type} (sel : nat -> bool) (pick : nat -> A) (s : nat)
    (is_ : list nat) (a : list (list A)) :
  List.length (for_each is_ (fun i a => if sel i then append_at s (pick i) a else a) a)
  = List.length a.
Proof.
  revert a. induction is_ as [|i is_ IH]; intro a; [reflexivity|].
  rewrite for_each_cons, IH. destruct (sel i); [apply append_at_length|reflexivity].
Qed.

(** ** What [read_assignment] returns *)

Lemma flat_map_at (A : Type) (P : nat -> list A) (s' a k : nat) :
  flat_map (fun s => if (s' =? s)%nat then P s else []) (seq a k)
  = if ((a <=? s') && (s' <? a + k))%nat then P s' else [].
Proof.
  revert a. induction k as [|k IH]; intro a; simpl.
  - destruct (Nat.leb_spec a s'), (Nat.ltb_spec s' (a + 0)); simpl; try reflexivity; lia.
  - rewrite IH.
    destruct (Nat.eqb_spec s' a) as [->|Hne];
      repeat match goal with
             | |- context [(?x <=? ?y)%nat] => destruct (Nat.leb_spec x y)
             | |- context [(?x <? ?y)%nat] => destruct (Nat.ltb_spec x y)
             end; simpl; rewrite ?app_nil_r; try reflexivity; lia.
Qed.

Lemma nth_repeat_nil (A : Type) (n s : nat) : nth s (repeat (@nil A) n) [] = [].
Proof.
  revert s. induction n as [|n IH]; intros [|s]; simpl; auto.
Qed.

Lemma list_eq_nth (A : Type) (l l' : list (list A)) :
  List.length l = List.length l' ->
  (forall s, nth s l [] = nth s l' []) -> l = l'.
Proof.
  revert l'. induction l as [|x l IH]; intros [|x' l'] Hlen Hnth; simpl in Hlen;
    try discriminate; [reflexivity|].
  f_equal.
  - exact (Hnth 0%nat).
  - apply IH; [lia|]. intro s. exact (Hnth (S s)).
Qed.

Section GroundRead.
Import CpSat.
Variables (tasks : list Task) (v : valuation).

Let inner (s : nat) : list (list Task) -> list (list Task) :=
  for_each (range (List.length tasks)) (fun i assignment =>
    if BooleanValue v (Assign i s) then append_at s (task_at tasks i) assignment
    else assignment).

Lemma ground_outer_length (ss : list nat) (a : list (list Task)) :
  List.length (for_each ss inner a) = List.length a.
Proof.
  revert a. induction ss as [|s ss IH]; intro a; [reflexivity|].
  rewrite for_each_cons, IH. apply append_loop_length.
Qed.

Lemma ground_outer_nth (ss : list nat) (a : list (list Task)) (s' : nat) :
  Forall (fun s => s < List.length a)%nat ss ->
  nth s' (for_each ss inner a) [] =
  nth s' a [] ++ flat_map (fun s => if (s' =? s)%nat then picked tasks v s else []) ss.
Proof.
  revert a. induction ss as [|s ss IH]; intros a Hss.
  - simpl. now rewrite app_nil_r.
  - inversion Hss as [|? ? Hs Hss']; subst.
    rewrite for_each_cons, IH.
    + unfold inner. rewrite append_loop_nth by assumption.
      simpl. fold (picked tasks v s).
      destruct (s' =? s)%nat; [now rewrite <- app_assoc|reflexivity].
    + unfold inner. rewrite append_loop_length. assumption.
Qed.

Lemma ground_read_length (n : nat) :
  List.length (Ground.read_assignment tasks n v) = n.
Proof.
  unfold Ground.read_assignment. fold inner.
  now rewrite ground_outer_length, repeat_length.
Qed.

Lemma ground_read_nth (n s : nat) :
  nth s (Ground.read_assignment tasks n v) [] =
  if (s <? n)%nat then picked tasks v s else [].
Proof.
  unfold Ground.read_assignment. fold inner.
  rewrite ground_outer_nth.
  - rewrite nth_repeat_nil. simpl. unfold range. rewrite flat_map_at. reflexivity.
  - rewrite repeat_length. apply Forall_forall. intros x Hx.
    now apply range_In in Hx.
Qed.

(** The loop nest is a comprehension over the satellites. *)
Lemma ground_read_assignment_eq (n : nat) :
  Ground.read_assignment tasks n v = map (picked tasks v) (range n).
Proof.
  apply list_eq_nth.
  - unfold range. now rewrite ground_read_length, length_map, length_seq.
  - intro s. rewrite ground_read_nth. unfold range.
    destruct (Nat.ltb_spec s n) as [Hlt|Hge].
    + rewrite (nth_indep _ [] (picked tasks v 0%nat))
        by now rewrite length_map, length_seq.
      rewrite map_nth. now rewrite seq_nth.
    + symmetry. apply nth_overflow. now rewrite length_map, length_seq.
Qed.
End GroundRead.

Section SatRead.
Import CpSat.
Variables (tasks : list Task) (v : valuation) (n : nat).

Let inner (i : nat) : list (list Task) -> list (list Task) :=
  for_each (range n) (fun s assignment =>
    if BooleanValue v (Assign i s) then append_at s (task_at tasks i) assignment
    else assignment).

Lemma sat_row_length (i : nat) (ss : list nat) (a : list (list Task)) :
  List.length (for_each ss (fun s assignment =>
    if BooleanValue v (Assign i s) then append_at s (task_at tasks i) assignment
    else assignment) a) = List.length a.
Proof.
  revert a. induction ss as [|s ss IH]; intro a; [reflexivity|].
  rewrite for_each_cons, IH.
  destruct (BooleanValue v (Assign i s)); [apply append_at_length|reflexivity].
Qed.

Lemma sat_row_nth (i : nat) (ss : list nat) (a : list (list Task)) (s' : nat) :
  Forall (fun s => s < List.length a)%nat ss ->
  nth s' (for_each ss (fun s assignment =>
    if BooleanValue v (Assign i s) then append_at s (task_at tasks i) assignment
    else assignment) a) [] =
  nth s' a [] ++
  flat_map (fun s => if (s' =? s)%nat
                     then (if BooleanValue v (Assign i s) then [task_at tasks i] else [])
                     else []) ss.
Proof.
  revert a. induction ss as [|s ss IH]; intros a Hss.
  - simpl. now rewrite app_nil_r.
  - inversion Hss as [|? ? Hs Hss']; subst.
    rewrite for_each_cons, IH.
    + simpl. destruct (BooleanValue v (Assign i s)).
      * rewrite append_at_nth by assumption.
        destruct (s' =? s)%nat; [now rewrite <- app_assoc|reflexivity].
      * destruct (s' =? s)%nat; reflexivity.
    + destruct (BooleanValue v (Assign i s)); [rewrite append_at_length|]; assumption.
Qed.

Lemma sat_inner_length (i : nat) (a : list (list Task)) :
  List.length (inner i a) = List.length a.
Proof. apply sat_row_length. Qed.

Lemma sat_inner_nth (i : nat) (a : list (list Task)) (s' : nat) :
  List.length a = n ->
  nth s' (inner i a) [] =
  nth s' a [] ++ (if (s' <? n)%nat && BooleanValue v (Assign i s')
                  then [task_at tasks i] else []).
Proof.
  intro Hlen. unfold inner. rewrite sat_row_nth.
  - unfold range. rewrite flat_map_at. simpl.
    destruct (s' <? n)%nat; reflexivity.
  - apply Forall_forall. intros s Hs. apply range_In in Hs. lia.
Qed.

Lemma sat_outer_length (is_ : list nat) (a : list (list Task)) :
  List.length (for_each is_ inner a) = List.length a.
Proof.
  revert a. induction is_ as [|i is_ IH]; intro a; [reflexivity|].
  rewrite for_each_cons, IH. apply sat_inner_length.
Qed.

Lemma sat_outer_nth (is_ : list nat) (a : list (list Task)) (s' : nat) :
  List.length a = n ->
  nth s' (for_each is_ inner a) [] =
  nth s' a [] ++
  (if (s' <? n)%nat
   then map (task_at tasks) (filter (fun i => BooleanValue v (Assign i s')) is_)
   else []).
Proof.
  revert a. induction is_ as [|i is_ IH]; intros a Hlen.
  - simpl. destruct (s' <? n)%nat; now rewrite app_nil_r.
  - rewrite for_each_cons, IH by now rewrite sat_inner_length.
    rewrite sat_inner_nth by assumption. simpl.
    destruct (s' <? n)%nat; simpl; [|now rewrite !app_nil_r].
    destruct (BooleanValue v (Assign i s')); simpl;
      [now rewrite <- app_assoc|now rewrite app_nil_r].
Qed.

Lemma sat_read_length : List.length (Sat.read_assignment tasks n v) = n.
Proof.
  unfold Sat.read_assignment. fold inner.
  now rewrite sat_outer_length, repeat_length.
Qed.

(** Tasks outermost or satellites outermost: the same lists come out. *)
Lemma sat_read_assignment_eq :
  Sat.read_assignment tasks n v = map (picked tasks v) (range n).
Proof.
  apply list_eq_nth.
  - unfold range. now rewrite sat_read_length, length_map, length_seq.
  - intro s. unfold Sat.read_assignment. fold inner.
    rewrite sat_outer_nth by apply repeat_length.
    rewrite nth_repeat_nil. simpl. unfold range.
    destruct (Nat.ltb_spec s n) as [Hlt|Hge].
    + rewrite (nth_indep _ [] (picked tasks v 0%nat))
        by now rewrite length_map, length_seq.
      rewrite map_nth. now rewrite seq_nth.
    + symmetry. apply nth_overflow. now rewrite length_map, length_seq.
Qed.
End SatRead.

Lemma picked_nth (tasks : list Task) (v : CpSat.valuation) (n s : nat) :
  nth s (map (picked tasks v) (range n)) [] =
  if (s <? n)%nat then picked tasks v s else [].
Proof.
  rewrite <- ground_read_assignment_eq. apply ground_read_nth.
Qed.

(* ================================================================== *)
(** * The model [cp_solve] builds *)

Section ModelShape.
Import CpSat.

Lemma assign_vars_variables (TC n : nat) (m : CpModel) :
  variables (Ground.assign_vars TC n m) = variables m ++ Model.assign_decls TC n.
Proof.
  unfold Ground.assign_vars, Model.assign_decls.
  apply (for_each_appends variables). intros i st.
  rewrite <- flat_map_singleton.
  apply (for_each_appends variables). reflexivity.
Qed.

Lemma assign_vars_constraints (TC n : nat) (m : CpModel) :
  constraints (Ground.assign_vars TC n m) = constraints m.
Proof.
  unfold Ground.assign_vars.
  apply (for_each_keeps constraints). intros i st.
  apply (for_each_keeps constraints). reflexivity.
Qed.

Lemma assign_vars_objective (TC n : nat) (m : CpModel) :
  objective (Ground.assign_vars TC n m) = objective m.
Proof.
  unfold Ground.assign_vars.
  apply (for_each_keeps objective). intros i st.
  apply (for_each_keeps objective). reflexivity.
Qed.

Lemma task_constraints_constraints (TC n : nat) (m : CpModel) :
  constraints (Ground.task_constraints TC n m) = constraints m ++ Model.task_cs TC n.
Proof.
  unfold Ground.task_constraints, Model.task_cs.
  rewrite <- flat_map_singleton.
  apply (for_each_appends constraints). reflexivity.
Qed.

Lemma task_constraints_variables (TC n : nat) (m : CpModel) :
  variables (Ground.task_constraints TC n m) = variables m.
Proof. apply (for_each_keeps variables). reflexivity. Qed.

Lemma task_constraints_objective (TC n : nat) (m : CpModel) :
  objective (Ground.task_constraints TC n m) = objective m.
Proof. apply (for_each_keeps objective). reflexivity. Qed.

Lemma conflicts_eq (tasks : list Task) (s : nat) (r : Z) :
  Ground.conflicts tasks s r = Model.conflict_vars tasks s r.
Proof.
  unfold Ground.conflicts, Model.conflict_vars.
  rewrite <- flat_map_optional.
  change (flat_map ?f ?l) with ([] ++ flat_map f l).
  apply (for_each_appends (fun acc : list LinearExpr => acc)).
  intros i acc. destruct (mem r (resources (task_at tasks i)));
    [reflexivity|now rewrite app_nil_r].
Qed.

Lemma exclusivity_constraints_constraints (tasks : list Task) (n : nat) (m : CpModel) :
  constraints (Ground.exclusivity_constraints tasks n m)
  = constraints m ++ Model.exclusivity_cs tasks n.
Proof.
  unfold Ground.exclusivity_constraints, Model.exclusivity_cs.
  apply (for_each_appends constraints). intros s st.
  apply (for_each_appends constraints). intros r st'.
  rewrite conflicts_eq.
  destruct (Model.conflict_vars tasks s r); [now rewrite app_nil_r|reflexivity].
Qed.

Lemma exclusivity_constraints_variables (tasks : list Task) (n : nat) (m : CpModel) :
  variables (Ground.exclusivity_constraints tasks n m) = variables m.
Proof.
  apply (for_each_keeps variables). intros s st.
  apply (for_each_keeps variables). intros r st'.
  destruct (Ground.conflicts tasks s r); reflexivity.
Qed.

Lemma exclusivity_constraints_objective (tasks : list Task) (n : nat) (m : CpModel) :
  objective (Ground.exclusivity_constraints tasks n m) = objective m.
Proof.
  apply (for_each_keeps objective). intros s st.
  apply (for_each_keeps objective). intros r st'.
  destruct (Ground.conflicts tasks s r); reflexivity.
Qed.

Lemma load_vars_variables (TC n : nat) (m : CpModel) :
  variables (Ground.load_vars TC n m) = variables m ++ Model.load_decls TC n.
Proof.
  unfold Ground.load_vars, Model.load_decls.
  rewrite (for_each_keeps variables) by reflexivity.
  rewrite <- flat_map_singleton.
  apply (for_each_appends variables). reflexivity.
Qed.

Lemma load_vars_constraints (TC n : nat) (m : CpModel) :
  constraints (Ground.load_vars TC n m) = constraints m ++ Model.load_cs TC n.
Proof.
  unfold Ground.load_vars, Model.load_cs.
  rewrite <- flat_map_singleton.
  rewrite (for_each_appends constraints
             (fun s => [Eq (evar (Load s))
                           (esum (map (fun i => evar (Assign i s)) (range TC)))]))
    by reflexivity.
  f_equal. apply (for_each_keeps constraints). reflexivity.
Qed.

Lemma imbalance_variables (TC n : nat) (avg : Q) (st : CpModel * list LinearExpr) :
  variables (fst (Ground.imbalance TC n avg st))
  = variables (fst st) ++ Model.imbalance_decls TC n.
Proof.
  unfold Ground.imbalance, Model.imbalance_decls.
  apply (for_each_appends (fun st : CpModel * list LinearExpr => variables (fst st))).
  intros s [m ts]. simpl. now rewrite <- app_assoc.
Qed.

Lemma imbalance_constraints (TC n : nat) (avg : Q) (st : CpModel * list LinearExpr) :
  constraints (fst (Ground.imbalance TC n avg st))
  = constraints (fst st) ++ Model.imbalance_cs n (int_ avg).
Proof.
  unfold Ground.imbalance, Model.imbalance_cs.
  apply (for_each_appends (fun st : CpModel * list LinearExpr => constraints (fst st))).
  intros s [m ts]. simpl. now rewrite <- app_assoc.
Qed.

Lemma imbalance_terms_eq (TC n : nat) (avg : Q) (st : CpModel * list LinearExpr) :
  snd (Ground.imbalance TC n avg st) = snd st ++ map (fun s => evar (Sq s)) (range n).
Proof.
  unfold Ground.imbalance.
  rewrite <- flat_map_singleton.
  apply (for_each_appends (fun st : CpModel * list LinearExpr => snd st)).
  intros s [m ts]. reflexivity.
Qed.

Lemma convertible_cases (t : Task) :
  convertible t \/ exists e, Ground.scaled_payoff t = Raise e.
Proof.
  unfold convertible, cents. destruct (Ground.scaled_payoff t) as [c|e]; [now left|].
  right. now exists e.
Qed.

(** A payoff line 76 converts is finite. *)
Lemma convertible_finite (t : Task) : convertible t -> is_finite (payoff t) = true.
Proof.
  unfold convertible, Ground.scaled_payoff.
  destruct (payoff t) as [s|s| |s m e]; try reflexivity; discriminate.
Qed.

(** The inner loop of lines 74-76 for one task. *)
Lemma payoff_row_ok (t : Task) (i : nat) (ss : list nat) (acc : list LinearExpr) :
  convertible t ->
  for_each_res ss (fun s acc =>
      c <- Ground.scaled_payoff t ;; Ok (acc ++ [escale c (evar (Assign i s))])) acc
  = Ok (acc ++ map (fun s => escale (cents t) (evar (Assign i s))) ss).
Proof.
  intro Ht. rewrite Ht. revert acc.
  induction ss as [|s ss IH]; intro acc; cbn [for_each_res map bind].
  - now rewrite app_nil_r.
  - rewrite IH, <- app_assoc. reflexivity.
Qed.

Lemma payoff_row_inv (t : Task) (i : nat) (ss : list nat) (acc l : list LinearExpr) :
  for_each_res ss (fun s acc =>
      c <- Ground.scaled_payoff t ;; Ok (acc ++ [escale c (evar (Assign i s))])) acc
  = Ok l ->
  l = acc ++ map (fun s => escale (cents t) (evar (Assign i s))) ss /\
  (ss <> [] -> convertible t).
Proof.
  destruct (convertible_cases t) as [Ht|[e He]].
  - intro H. rewrite (payoff_row_ok t i ss acc Ht) in H. injection H as <-. now split.
  - destruct ss as [|s ss]; cbn [for_each_res map].
    + intro H. injection H as <-. rewrite app_nil_r. now split.
    + rewrite He. discriminate.
Qed.

Lemma payoff_rows_ok (tasks : list Task) (n : nat) (is_ : list nat) (acc : list LinearExpr) :
  (forall i, In i is_ -> convertible (task_at tasks i)) ->
  for_each_res is_ (fun i =>
    for_each_res (range n) (fun s acc =>
      c <- Ground.scaled_payoff (task_at tasks i) ;;
      Ok (acc ++ [escale c (evar (Assign i s))]))) acc
  = Ok (acc ++ flat_map (fun i =>
          map (fun s => escale (cents (task_at tasks i)) (evar (Assign i s))) (range n)) is_).
Proof.
  revert acc. induction is_ as [|i is_ IH]; intros acc H; cbn [for_each_res flat_map].
  - now rewrite app_nil_r.
  - rewrite payoff_row_ok by (apply H; now left). cbn [bind].
    rewrite IH by (intros j Hj; apply H; now right). now rewrite <- app_assoc.
Qed.

Lemma payoff_rows_inv (tasks : list Task) (n : nat) (is_ : list nat) (acc l : list LinearExpr) :
  for_each_res is_ (fun i =>
    for_each_res (range n) (fun s acc =>
      c <- Ground.scaled_payoff (task_at tasks i) ;;
      Ok (acc ++ [escale c (evar (Assign i s))]))) acc
  = Ok l ->
  l = acc ++ flat_map (fun i =>
          map (fun s => escale (cents (task_at tasks i)) (evar (Assign i s))) (range n)) is_ /\
  ((0 < n)%nat -> forall i, In i is_ -> convertible (task_at tasks i)).
Proof.
  revert acc. induction is_ as [|i is_ IH]; intros acc; cbn [for_each_res flat_map].
  - intro H. injection H as <-. rewrite app_nil_r. split; [reflexivity|intros _ i []].
  - destruct (for_each_res (range n) _ acc) as [acc'|e] eqn:Hrow; [|discriminate].
    cbn [bind]. intro H. apply payoff_row_inv in Hrow. destruct Hrow as [-> Hconv].
    apply IH in H. destruct H as [-> Hrest]. split; [now rewrite <- app_assoc|].
    intros Hn j [<-|Hj]; [|now apply Hrest].
    apply Hconv. unfold range. destruct n; [lia|discriminate].
Qed.

Lemma payoff_terms_ok (tasks : list Task) (n : nat) :
  Forall convertible tasks ->
  Ground.payoff_terms tasks n = Ok (Model.payoff_exprs tasks n).
Proof.
  intro H. unfold Ground.payoff_terms. rewrite payoff_rows_ok; [reflexivity|].
  intros i Hi. apply range_In in Hi. rewrite Forall_forall in H. apply H.
  now apply task_at_In.
Qed.

Lemma payoff_terms_inv (tasks : list Task) (n : nat) (l : list LinearExpr) :
  Ground.payoff_terms tasks n = Ok l ->
  l = Model.payoff_exprs tasks n /\ ((0 < n)%nat -> Forall convertible tasks).
Proof.
  unfold Ground.payoff_terms. intro H. apply payoff_rows_inv in H.
  destruct H as [-> Hconv]. split; [reflexivity|].
  intro Hn. apply Forall_forall. intros t Ht.
  destruct (In_nth _ _ no_task Ht) as (i & Hi & <-).
  apply (Hconv Hn). now apply range_In.
Qed.

Lemma objective_terms_eq (tasks : list Task) (n : nat) :
  Sat.objective_terms tasks n = Model.float_terms tasks n.
Proof.
  unfold Sat.objective_terms, Model.float_terms.
  change (flat_map ?f ?l) with ([] ++ flat_map f l).
  apply (for_each_appends (fun acc : list (double * var) => acc)). intros i acc.
  rewrite <- flat_map_singleton.
  apply (for_each_appends (fun acc : list (double * var) => acc)). reflexivity.
Qed.

Lemma truediv_pos (a : Z) (n : nat) :
  (0 < n)%nat -> truediv a (Z.of_nat n) = Ok (inject_Z a / inject_Z (Z.of_nat n))%Q.
Proof.
  intro Hn. unfold truediv.
  destruct (Z.eqb_spec (Z.of_nat n) 0); [lia|reflexivity].
Qed.

(** [int(TASK_COUNT / num_sats)] is the integer quotient. *)
Lemma int_avg_load (a : Z) (n : nat) :
  (0 < n)%nat -> int_ (inject_Z a / inject_Z (Z.of_nat n))%Q = Z.quot a (Z.of_nat n).
Proof.
  intro Hn. destruct n as [|n]; [lia|].
  change (Z.of_nat (S n)) with (Z.pos (Pos.of_succ_nat n)).
  unfold int_, Qdiv, Qinv, Qmult, inject_Z. cbn [Qnum Qden].
  now rewrite Z.mul_1_r, Pos.mul_1_l.
Qed.

(** The model of ground.py, in closed form: it is built when there is a
    satellite and every payoff can be converted. *)
Theorem ground_build_model (tasks : list Task) (n : nat) :
  (0 < n)%nat ->
  Forall convertible tasks ->
  Ground.build_model tasks n
  = Ok (Model.ground tasks n (Z.quot (Z.of_nat (List.length tasks)) (Z.of_nat n))).
Proof.
  intros Hn Hconv. unfold Ground.build_model.
  rewrite truediv_pos by assumption. simpl bind.
  set (m4 := Ground.load_vars _ _ _).
  set (avg := (_ / _)%Q).
  pose proof (imbalance_variables (List.length tasks) n avg (m4, [])) as Hv.
  pose proof (imbalance_constraints (List.length tasks) n avg (m4, [])) as Hc.
  pose proof (imbalance_terms_eq (List.length tasks) n avg (m4, [])) as Ht.
  destruct (Ground.imbalance (List.length tasks) n avg (m4, [])) as [m5 ts].
  simpl in Hv, Hc, Ht. subst ts.
  rewrite payoff_terms_ok by assumption. cbn [bind].
  unfold Maximize, Model.ground. rewrite Hv, Hc.
  subst m4 avg. rewrite int_avg_load by assumption.
  rewrite load_vars_variables, load_vars_constraints.
  rewrite exclusivity_constraints_variables, exclusivity_constraints_constraints.
  rewrite task_constraints_variables, task_constraints_constraints.
  rewrite assign_vars_variables, assign_vars_constraints.
  simpl. now rewrite <- !app_assoc.
Qed.

Theorem ground_build_model_zero (tasks : list Task) :
  Ground.build_model tasks 0 = Raise ZeroDivisionError.
Proof. reflexivity. Qed.

(** A model that was built is the closed form, and every payoff was
    converted. *)
Theorem ground_build_model_inv (tasks : list Task) (n : nat) (m : CpModel) :
  Ground.build_model tasks n = Ok m ->
  (0 < n)%nat /\ Forall convertible tasks /\
  m = Model.ground tasks n (Z.quot (Z.of_nat (List.length tasks)) (Z.of_nat n)).
Proof.
  intro H. destruct n as [|n]; [discriminate H|].
  assert (Hn : (0 < S n)%nat) by lia.
  assert (Hconv : Forall convertible tasks).
  { unfold Ground.build_model in H. rewrite truediv_pos in H by assumption.
    cbn [bind] in H.
    destruct (Ground.imbalance _ _ _ _) as [m5 ts].
    destruct (Ground.payoff_terms tasks (S n)) as [l|e] eqn:Hl; [|discriminate H].
    apply payoff_terms_inv in Hl. now apply (proj2 Hl). }
  rewrite ground_build_model in H by assumption. injection H as <-. auto.
Qed.

(** The model of sat.py, in closed form. *)
Theorem sat_build_model (tasks : list Task) (n : nat) :
  Sat.build_model tasks n = Model.sat tasks n.
Proof.
  unfold Sat.build_model, Maximize, Model.sat.
  change (Sat.exclusivity_constraints tasks n) with (Ground.exclusivity_constraints tasks n).
  change (Sat.task_constraints (List.length tasks) n)
    with (Ground.task_constraints (List.length tasks) n).
  change (Sat.assign_vars (List.length tasks) n)
    with (Ground.assign_vars (List.length tasks) n).
  rewrite exclusivity_constraints_variables, exclusivity_constraints_constraints.
  rewrite task_constraints_variables, task_constraints_constraints.
  rewrite assign_vars_variables, assign_vars_constraints, objective_terms_eq.
  reflexivity.
Qed.
End ModelShape.

(* ================================================================== *)
(** * Evaluating expressions *)

Section Eval.
Import CpSat.
Variable v : valuation.

Lemma eval_terms_app (a b : list (Z * var)) :
  eval_terms v (a ++ b) = (eval_terms v a + eval_terms v b)%Z.
Proof.
  unfold eval_terms. induction a as [|x a IH]; simpl; [reflexivity|].
  rewrite IH. lia.
Qed.

Lemma eval_terms_scale (k : Z) (a : list (Z * var)) :
  eval_terms v (map (fun cx => ((k * fst cx)%Z, snd cx)) a) = (k * eval_terms v a)%Z.
Proof.
  unfold eval_terms. induction a as [|x a IH]; simpl; [lia|].
  rewrite IH. lia.
Qed.

Lemma eval_evar (x : var) : eval v (evar x) = v x.
Proof. unfold eval, evar, eval_terms. cbn [terms offset fold_right fst snd]. lia. Qed.

Lemma eval_econst (k : Z) : eval v (econst k) = k.
Proof. reflexivity. Qed.

Lemma eval_eadd (a b : LinearExpr) : eval v (eadd a b) = (eval v a + eval v b)%Z.
Proof. unfold eval, eadd. simpl. rewrite eval_terms_app. lia. Qed.

Lemma eval_escale (k : Z) (a : LinearExpr) : eval v (escale k a) = (k * eval v a)%Z.
Proof. unfold eval, escale. simpl. rewrite eval_terms_scale. lia. Qed.

Lemma eval_esub (a b : LinearExpr) : eval v (esub a b) = (eval v a - eval v b)%Z.
Proof. unfold esub. rewrite eval_eadd, eval_escale. lia. Qed.

Lemma eval_fold_eadd (es : list LinearExpr) (a : LinearExpr) :
  eval v (fold_left eadd es a) = (eval v a + sumZ (map (eval v) es))%Z.
Proof.
  revert a. induction es as [|e es IH]; intro a; cbn [fold_left map].
  - change (sumZ []) with 0%Z. lia.
  - change (sumZ (eval v e :: map (eval v) es))
      with (eval v e + sumZ (map (eval v) es))%Z.
    rewrite IH, eval_eadd. lia.
Qed.

Lemma eval_esum (es : list LinearExpr) : eval v (esum es) = sumZ (map (eval v) es).
Proof. unfold esum. rewrite eval_fold_eadd. reflexivity. Qed.

Lemma eval_esum_vars {A : Type} (f : A -> var) (xs : list A) :
  eval v (esum (map (fun a => evar (f a)) xs)) = sumZ (map (fun a => v (f a)) xs).
Proof.
  rewrite eval_esum, map_map. f_equal. apply map_ext. intro a. apply eval_evar.
Qed.

(** Over 0/1 variables a sum counts the variables that are set. *)
Lemma sum_counts {A : Type} (f : A -> var) (xs : list A) :
  (forall a, In a xs -> (0 <= v (f a) <= 1)%Z) ->
  sumZ (map (fun a => v (f a)) xs)
  = Z.of_nat (List.length (filter (fun a => BooleanValue v (f a)) xs)).
Proof.
  induction xs as [|x xs IH]; intro Hdom; [reflexivity|].
  simpl. rewrite IH by (intros a Ha; apply Hdom; now right).
  assert (0 <= v (f x) <= 1)%Z as Hx by (apply Hdom; now left).
  unfold BooleanValue. destruct (Z.eqb_spec (v (f x)) 0); simpl length; lia.
Qed.
End Eval.

Lemma sumZ_cons (a : Z) (l : list Z) : sumZ (a :: l) = (a + sumZ l)%Z.
Proof. reflexivity. Qed.

Lemma sumZ_app (a b : list Z) : sumZ (a ++ b) = (sumZ a + sumZ b)%Z.
Proof. induction a as [|x a IH]; simpl; [reflexivity|]. rewrite IH. lia. Qed.

(* ================================================================== *)
(** * Feasible solutions obey the two hard constraints *)

Section Hard.
Import CpSat.
Variables (tasks : list Task) (n : nat) (m : CpModel) (v : valuation).
Hypothesis Hvars : incl (Model.assign_decls (List.length tasks) n) (variables m).
Hypothesis Hcs :
  incl (Model.task_cs (List.length tasks) n ++ Model.exclusivity_cs tasks n)
       (constraints m).
Hypothesis Hsat : satisfies m v.

Lemma assign_is_bool (i s : nat) :
  (i < List.length tasks)%nat -> (s < n)%nat -> (0 <= v (Assign i s) <= 1)%Z.
Proof.
  intros Hi Hs. destruct Hsat as [Hdom _].
  rewrite Forall_forall in Hdom.
  apply (Hdom (Assign i s, (0, 1)%Z)). apply Hvars.
  unfold Model.assign_decls. apply in_flat_map. exists i. split.
  - now apply range_In.
  - apply in_map_iff. exists s. split; [reflexivity|now apply range_In].
Qed.

Lemma feasible_at_most_one_satellite : at_most_one_satellite tasks n v.
Proof.
  intros i Hi. destruct Hsat as [_ Hc]. rewrite Forall_forall in Hc.
  assert (holds v (Le (esum (map (fun s => evar (Assign i s)) (range n))) (econst 1)))
    as H.
  { apply Hc, Hcs, in_or_app. left. unfold Model.task_cs.
    apply in_map_iff. exists i. split; [reflexivity|now apply range_In]. }
  simpl in H. rewrite (eval_esum_vars v (fun s => Assign i s)), eval_econst in H.
  rewrite sum_counts in H; [lia|].
  intros s Hs. apply assign_is_bool; [assumption|now apply range_In].
Qed.

Lemma feasible_no_conflict : no_conflict tasks n v.
Proof.
  intros s r Hs. rewrite <- filter_filter.
  set (needing := filter (fun i => mem r (resources (task_at tasks i)))
                         (range (List.length tasks))).
  destruct needing as [|i0 rest] eqn:E; [simpl; lia|].
  assert (In i0 needing) as Hi0 by (rewrite E; now left).
  apply filter_In in Hi0. destruct Hi0 as [Hi0 Hmem].
  apply range_In in Hi0.
  assert (In r (Ground.ALL_RESOURCES tasks)) as Hr.
  { apply sorted_set_In, in_flat_map. exists (task_at tasks i0).
    split; [now apply task_at_In|now apply mem_In]. }
  destruct Hsat as [_ Hc]. rewrite Forall_forall in Hc.
  assert (holds v (Le (esum (Model.conflict_vars tasks s r)) (econst 1))) as H.
  { apply Hc, Hcs, in_or_app. right. unfold Model.exclusivity_cs.
    apply in_flat_map. exists s. split; [now apply range_In|].
    apply in_flat_map. exists r. split; [assumption|].
    unfold Model.conflict_vars. fold needing. rewrite E. now left. }
  simpl in H. unfold Model.conflict_vars in H. fold needing in H.
  rewrite (eval_esum_vars v (fun i => Assign i s)), eval_econst in H.
  rewrite sum_counts in H.
  - rewrite <- E. lia.
  - intros i Hi. apply filter_In in Hi. destruct Hi as [Hi _].
    apply assign_is_bool; [now apply range_In|assumption].
Qed.
End Hard.

(* ================================================================== *)
(** * What [cp_solve] returns *)

Section CpSolveResult.
Import CpSat.
Variables (solver : CpSolver) (tasks : list Task) (n : nat).

Lemma ground_cp_solve_ok (a : list (list Task)) :
  Ground.cp_solve solver tasks n = Ok a ->
  exists m, Ground.build_model tasks n = Ok m /\
    has_solution (fst (Solve solver Ground.parameters m)) = true /\
    a = map (picked tasks (snd (Solve solver Ground.parameters m))) (range n).
Proof.
  unfold Ground.cp_solve.
  destruct (Ground.build_model tasks n) as [m|e]; simpl; [|discriminate].
  destruct (Solve solver Ground.parameters m) as [status v] eqn:E. simpl.
  destruct (has_solution status) eqn:Hs; simpl; [|discriminate].
  intro H. injection H as <-. exists m.
  rewrite ground_read_assignment_eq, E. repeat split. exact Hs.
Qed.

Lemma sat_cp_solve_ok (a : list (list Task)) :
  Sat.cp_solve solver tasks n = Some a ->
  has_solution (fst (Solve solver Sat.parameters (Sat.build_model tasks n))) = true /\
  a = map (picked tasks (snd (Solve solver Sat.parameters (Sat.build_model tasks n))))
          (range n).
Proof.
  unfold Sat.cp_solve.
  destruct (Solve solver Sat.parameters (Sat.build_model tasks n)) as [status v] eqn:E.
  simpl. destruct (has_solution status) eqn:Hs; simpl; [|discriminate].
  intro H. injection H as <-.
  rewrite sat_read_assignment_eq. split; reflexivity.
Qed.

Lemma ground_model_hard (m : CpModel) :
  Ground.build_model tasks n = Ok m ->
  incl (Model.assign_decls (List.length tasks) n) (variables m) /\
  incl (Model.task_cs (List.length tasks) n ++ Model.exclusivity_cs tasks n)
       (constraints m).
Proof.
  intro H. apply ground_build_model_inv in H. destruct H as (_ & _ & ->).
  unfold Model.ground. simpl. split.
  - apply incl_appl, incl_refl.
  - rewrite app_assoc. apply incl_appl, incl_refl.
Qed.

Lemma sat_model_hard :
  incl (Model.assign_decls (List.length tasks) n)
       (variables (Sat.build_model tasks n)) /\
  incl (Model.task_cs (List.length tasks) n ++ Model.exclusivity_cs tasks n)
       (constraints (Sat.build_model tasks n)).
Proof. rewrite sat_build_model. split; apply incl_refl. Qed.
End CpSolveResult.

(** ** From the decision variables to the sequences *)

Lemma picked_In (tasks : list Task) (v : CpSat.valuation) (s : nat) (t : Task) :
  In t (picked tasks v s) <->
  exists i, (i < List.length tasks)%nat /\ task_at tasks i = t /\
            CpSat.BooleanValue v (CpSat.Assign i s) = true.
Proof.
  unfold picked. rewrite in_map_iff. split.
  - intros (i & Ht & Hi). apply filter_In in Hi. destruct Hi as [Hi Hb].
    apply range_In in Hi. now exists i.
  - intros (i & Hi & Ht & Hb). exists i. split; [assumption|].
    apply filter_In. split; [now apply range_In|assumption].
Qed.

Lemma picked_exclusive (tasks : list Task) (n : nat) (v : CpSat.valuation) :
  no_conflict tasks n v -> exclusive (map (picked tasks v) (range n)).
Proof.
  intros Hnc s r. rewrite picked_nth.
  destruct (Nat.ltb_spec s n) as [Hs|Hs]; [|simpl; lia].
  unfold requiring, picked.
  rewrite filter_map_swap, length_map, filter_filter.
  specialize (Hnc s r Hs).
  erewrite filter_ext; [exact Hnc|].
  intro i. apply andb_comm.
Qed.

Lemma filter_at_most_one {A : Type} (p : A -> bool) (l : list A) (a b : A) :
  (List.length (filter p l) <= 1)%nat -> NoDup l ->
  In a l -> In b l -> p a = true -> p b = true -> a = b.
Proof.
  intros Hlen Hnd Ha Hb Hpa Hpb.
  assert (In a (filter p l)) as Ha' by (apply filter_In; now split).
  assert (In b (filter p l)) as Hb' by (apply filter_In; now split).
  destruct (filter p l) as [|x [|y rest]]; simpl in *; try lia; intuition congruence.
Qed.

Lemma picked_one_satellite (tasks : list Task) (n : nat) (v : CpSat.valuation) :
  at_most_one_satellite tasks n v -> NoDup tasks ->
  forall t s1 s2,
    In t (nth s1 (map (picked tasks v) (range n)) []) ->
    In t (nth s2 (map (picked tasks v) (range n)) []) -> s1 = s2.
Proof.
  intros Hone Hnd t s1 s2. rewrite !picked_nth.
  destruct (Nat.ltb_spec s1 n) as [H1|H1]; [|intros []].
  destruct (Nat.ltb_spec s2 n) as [H2|H2]; [|intros _ []].
  rewrite !picked_In. intros (i1 & Hi1 & Ht1 & Hb1) (i2 & Hi2 & Ht2 & Hb2).
  assert (i1 = i2) as <-.
  { rewrite NoDup_nth in Hnd. apply Hnd; try assumption.
    unfold task_at in Ht1, Ht2. now rewrite Ht1, Ht2. }
  apply filter_at_most_one
    with (p := fun s => CpSat.BooleanValue v (CpSat.Assign i1 s)) (l := range n);
    try assumption.
  - now apply Hone.
  - apply seq_NoDup.
  - now apply range_In.
  - now apply range_In.
Qed.

(** ** Counting placements *)

Lemma list_sum_add {A : Type} (f g : A -> nat) (l : list A) :
  list_sum (map (fun a => f a + g a) l) = list_sum (map f l) + list_sum (map g l).
Proof. induction l as [|a l IH]; simpl; [reflexivity|]. rewrite IH. lia. Qed.

Lemma list_sum_zero {A : Type} (l : list A) : list_sum (map (fun _ => 0) l) = 0.
Proof. induction l as [|a l IH]; simpl; auto. Qed.

Lemma list_sum_swap {A B : Type} (f : A -> B -> nat) (la : list A) (lb : list B) :
  list_sum (map (fun a => list_sum (map (f a) lb)) la)
  = list_sum (map (fun b => list_sum (map (fun a => f a b) la)) lb).
Proof.
  induction la as [|a la IH]; simpl.
  - now rewrite list_sum_zero.
  - rewrite IH. now rewrite <- list_sum_add.
Qed.

Lemma list_sum_le {A : Type} (f g : A -> nat) (l : list A) :
  (forall a, In a l -> f a <= g a) -> list_sum (map f l) <= list_sum (map g l).
Proof.
  induction l as [|a l IH]; intro H; simpl; [lia|].
  assert (f a <= g a) by (apply H; now left).
  assert (list_sum (map f l) <= list_sum (map g l)) by (apply IH; intros; apply H; now right).
  lia.
Qed.

Lemma count_occ_concat (ls : list (list Task)) (t : Task) :
  count_occ Task_eq_dec (concat ls) t
  = list_sum (map (fun l => count_occ Task_eq_dec l t) ls).
Proof.
  induction ls as [|l ls IH]; simpl; [reflexivity|].
  now rewrite count_occ_app, IH.
Qed.

Lemma count_occ_map_filter {A : Type} (f : A -> Task) (p : A -> bool) (l : list A) (t : Task) :
  count_occ Task_eq_dec (map f (filter p l)) t
  = list_sum (map (fun a => if p a then (if Task_eq_dec (f a) t then 1 else 0) else 0) l).
Proof.
  induction l as [|a l IH]; simpl; [reflexivity|].
  destruct (p a); simpl; [|assumption].
  rewrite IH. destruct (Task_eq_dec (f a) t); reflexivity.
Qed.

Lemma list_sum_filter_length {A : Type} (p : A -> bool) (l : list A) (k : nat) :
  list_sum (map (fun a => if p a then k else 0) l) = k * List.length (filter p l).
Proof.
  induction l as [|a l IH]; simpl; [lia|].
  destruct (p a); simpl; rewrite IH; lia.
Qed.

Lemma map_task_at_range (tasks : list Task) :
  map (task_at tasks) (range (List.length tasks)) = tasks.
Proof.
  unfold range, task_at. induction tasks as [|t tasks IH]; [reflexivity|].
  simpl. f_equal. rewrite <- seq_shift, map_map. exact IH.
Qed.

Lemma count_occ_by_index (tasks : list Task) (t : Task) :
  list_sum (map (fun i => if Task_eq_dec (task_at tasks i) t then 1 else 0)
                (range (List.length tasks)))
  = count_occ Task_eq_dec tasks t.
Proof.
  transitivity (count_occ Task_eq_dec (map (task_at tasks) (range (List.length tasks))) t).
  - induction (range (List.length tasks)) as [|i l IH]; simpl; [reflexivity|].
    destruct (Task_eq_dec (task_at tasks i) t); rewrite IH; reflexivity.
  - now rewrite map_task_at_range.
Qed.

(** No catalog entry is placed more often than it occurs in the catalog. *)
Lemma picked_placements (tasks : list Task) (n : nat) (v : CpSat.valuation) (t : Task) :
  at_most_one_satellite tasks n v ->
  placements (map (picked tasks v) (range n)) t <= count_occ Task_eq_dec tasks t.
Proof.
  intro Hone. unfold placements.
  rewrite count_occ_concat, map_map.
  erewrite map_ext; [|intro s; unfold picked; apply count_occ_map_filter].
  rewrite list_sum_swap, <- count_occ_by_index.
  apply list_sum_le. intros i Hi. apply range_In in Hi.
  rewrite (list_sum_filter_length
             (fun s => CpSat.BooleanValue v (CpSat.Assign i s)) (range n)
             (if Task_eq_dec (task_at tasks i) t then 1 else 0)).
  specialize (Hone i Hi).
  destruct (Task_eq_dec (task_at tasks i) t); lia.
Qed.

(* ================================================================== *)
(** * The reference solver meets the solver contract *)

Section ReferenceSolver.
Import CpSat Reference.

Lemma holdsb_holds (v : valuation) (c : constraint) : holdsb v c = true <-> holds v c.
Proof.
  destruct c; simpl; [apply Z.leb_le|apply Z.eqb_eq|apply Z.eqb_eq].
Qed.

Lemma in_domainb_in_domain (v : valuation) (d : var * (Z * Z)) :
  in_domainb v d = true <-> in_domain v d.
Proof.
  unfold in_domainb, in_domain. rewrite andb_true_iff, !Z.leb_le. tauto.
Qed.

Lemma satisfiesb_satisfies (m : CpModel) (v : valuation) :
  satisfiesb m v = true <-> satisfies m v.
Proof.
  unfold satisfiesb, satisfies.
  rewrite andb_true_iff, !forallb_forall, !Forall_forall.
  split; intros [Hd Hc]; split; intros x Hx.
  - now apply in_domainb_in_domain, Hd.
  - now apply holdsb_holds, Hc.
  - now apply in_domainb_in_domain, Hd.
  - now apply holdsb_holds, Hc.
Qed.

Lemma var_eqb_eq (x y : var) : var_eqb x y = true <-> x = y.
Proof.
  destruct x, y; simpl; rewrite ?andb_true_iff, ?Nat.eqb_eq;
    split; intro H; try discriminate; try (destruct H; subst; reflexivity);
    try (subst; reflexivity); inversion H; auto.
Qed.

(** *** The best candidate *)

Lemma better_cases (m : CpModel) (a b : list (var * Z)) :
  better m a b = a \/ better m a b = b.
Proof. unfold better. destruct (Qle_bool _ _); auto. Qed.

Lemma better_ge (m : CpModel) (a b : list (var * Z)) :
  (objective_value m (lookup a) <= objective_value m (lookup (better m a b)))%Q /\
  (objective_value m (lookup b) <= objective_value m (lookup (better m a b)))%Q.
Proof.
  unfold better.
  destruct (Qle_bool (objective_value m (lookup a)) (objective_value m (lookup b))) eqn:E.
  - apply Qle_bool_iff in E. split; [assumption|apply Qle_refl].
  - split; [apply Qle_refl|].
    destruct (Qlt_le_dec (objective_value m (lookup b)) (objective_value m (lookup a)))
      as [Hlt|Hle].
    + now apply Qlt_le_weak.
    + apply Qle_bool_iff in Hle. congruence.
Qed.

Lemma fold_better_In (m : CpModel) (cs : list (list (var * Z))) (c : list (var * Z)) :
  In (fold_left (better m) cs c) (c :: cs).
Proof.
  revert c. induction cs as [|x cs IH]; intro c; simpl; [now left|].
  destruct (IH (better m c x)) as [H|H]; [|auto].
  rewrite <- H. destruct (better_cases m c x) as [E|E]; rewrite E; auto.
Qed.

Lemma fold_better_ge (m : CpModel) (cs : list (list (var * Z))) (c : list (var * Z)) :
  forall x, In x (c :: cs) ->
    (objective_value m (lookup x)
     <= objective_value m (lookup (fold_left (better m) cs c)))%Q.
Proof.
  revert c. induction cs as [|y cs IH]; intros c x Hx; simpl in *.
  - destruct Hx as [->|[]]. apply Qle_refl.
  - destruct (better_ge m c y) as [Hc Hy].
    destruct Hx as [->|[->|Hx]].
    + eapply Qle_trans; [exact Hc|]. apply IH. now left.
    + eapply Qle_trans; [exact Hy|]. apply IH. now left.
    + apply IH. now right.
Qed.

Lemma best_In (m : CpModel) (cs : list (list (var * Z))) (a : list (var * Z)) :
  best m cs = Some a -> In a cs.
Proof.
  destruct cs as [|c cs]; simpl; [discriminate|].
  intro H. injection H as <-. apply fold_better_In.
Qed.

Lemma best_ge (m : CpModel) (cs : list (list (var * Z))) (a : list (var * Z)) :
  best m cs = Some a ->
  forall x, In x cs -> (objective_value m (lookup x) <= objective_value m (lookup a))%Q.
Proof.
  destruct cs as [|c cs]; simpl; [discriminate|].
  intro H. injection H as <-. apply fold_better_ge.
Qed.

Lemma best_None (m : CpModel) (cs : list (list (var * Z))) :
  best m cs = None -> cs = [].
Proof. destruct cs; [reflexivity|discriminate]. Qed.

(** *** Soundness *)

Theorem reference_sound (p : SatParameters) (m : CpModel) :
  solver_sound_on solver p m.
Proof.
  unfold solver_sound_on. simpl. unfold Solve.
  destruct (best m (feasible_candidates m)) as [a|] eqn:E; simpl.
  - intros _. apply best_In in E. unfold feasible_candidates in E.
    apply filter_In in E. now apply satisfiesb_satisfies.
  - destruct (closedb m); discriminate.
Qed.

(** *** Completeness of the enumeration *)

Lemma zrange_In (lo hi z : Z) : (lo <= z <= hi)%Z -> In z (zrange lo hi).
Proof.
  intro H. unfold zrange. apply in_map_iff.
  exists (Z.to_nat (z - lo)). split; [lia|].
  apply in_seq. lia.
Qed.

Lemma restrict_enumerated (v : valuation) (decls : list (var * (Z * Z))) :
  Forall (in_domain v) decls -> In (restrict v decls) (enumerate decls).
Proof.
  induction decls as [|[x [lo hi]] decls IH]; intro H; simpl; [now left|].
  inversion H as [|? ? Hx Hrest]; subst.
  apply in_flat_map. exists (v x). split.
  - apply zrange_In. exact Hx.
  - apply in_map. now apply IH.
Qed.

Lemma lookup_restrict (v : valuation) (decls : list (var * (Z * Z))) (x : var) :
  existsb (var_eqb x) (map fst decls) = true -> lookup (restrict v decls) x = v x.
Proof.
  induction decls as [|[y d] decls IH]; simpl; [discriminate|].
  destruct (var_eqb x y) eqn:E.
  - apply var_eqb_eq in E. now subst.
  - simpl. exact IH.
Qed.

Lemma eval_terms_agree (v w : valuation) (ts : list (Z * var)) :
  (forall x, In x (map snd ts) -> v x = w x) -> eval_terms v ts = eval_terms w ts.
Proof.
  unfold eval_terms. induction ts as [|[c x] ts IH]; intro H; simpl; [reflexivity|].
  rewrite IH by (intros y Hy; apply H; now right).
  rewrite (H x) by now left. reflexivity.
Qed.

Lemma eval_agree (v w : valuation) (e : LinearExpr) :
  (forall x, In x (expr_vars e) -> v x = w x) -> eval v e = eval w e.
Proof. intro H. unfold eval. now rewrite (eval_terms_agree v w). Qed.

Lemma eval_float_agree (v w : valuation) (ts : list (double * var)) :
  (forall x, In x (map snd ts) -> v x = w x) -> eval_float v ts = eval_float w ts.
Proof.
  unfold eval_float. induction ts as [|[c x] ts IH]; intro H; simpl; [reflexivity|].
  rewrite IH by (intros y Hy; apply H; now right).
  rewrite (H x) by now left. reflexivity.
Qed.

Lemma holds_agree (v w : valuation) (c : constraint) :
  (forall x, In x (constraint_vars c) -> v x = w x) -> holds v c -> holds w c.
Proof.
  destruct c as [a b|a b|t a b]; simpl; intros H Hc.
  - rewrite <- (eval_agree v w a), <- (eval_agree v w b); auto;
      intros x Hx; apply H, in_or_app; auto.
  - rewrite <- (eval_agree v w a), <- (eval_agree v w b); auto;
      intros x Hx; apply H, in_or_app; auto.
  - rewrite <- !H by (simpl; auto). exact Hc.
Qed.

Section Closed.
Variables (m : CpModel) (v : valuation).
Hypothesis Hclosed : closedb m = true.
Hypothesis Hsat : satisfies m v.

Let w : valuation := lookup (restrict v (variables m)).

Lemma restrict_agrees_constraint (c : constraint) :
  In c (constraints m) -> forall x, In x (constraint_vars c) -> v x = w x.
Proof.
  intros Hc x Hx. unfold w. symmetry. apply lookup_restrict.
  unfold closedb in Hclosed. rewrite forallb_forall in Hclosed.
  apply (Hclosed x), in_or_app. left. apply in_flat_map. now exists c.
Qed.

Lemma restrict_agrees_objective :
  forall x, In x (objective_vars (objective m)) -> v x = w x.
Proof.
  intros x Hx. unfold w. symmetry. apply lookup_restrict.
  unfold closedb in Hclosed. rewrite forallb_forall in Hclosed.
  apply (Hclosed x), in_or_app. now right.
Qed.

Lemma restrict_satisfies : satisfies m w.
Proof.
  destruct Hsat as [Hd Hc]. split.
  - rewrite Forall_forall in *. intros d Hin.
    unfold in_domain, w. rewrite lookup_restrict.
    + now apply Hd.
    + apply existsb_exists. exists (fst d). split.
      * now apply in_map.
      * now apply var_eqb_eq.
  - rewrite Forall_forall in *. intros c Hin.
    apply (holds_agree v w); [now apply restrict_agrees_constraint|now apply Hc].
Qed.

Lemma restrict_objective : objective_value m w = objective_value m v.
Proof.
  pose proof restrict_agrees_objective as H.
  unfold objective_value. destruct (objective m) as [|e|ts]; simpl in H.
  - reflexivity.
  - now rewrite (eval_agree v w e).
  - symmetry. now apply eval_float_agree.
Qed.

Lemma restrict_is_candidate : In (restrict v (variables m)) (feasible_candidates m).
Proof.
  unfold feasible_candidates. apply filter_In. split.
  - apply restrict_enumerated. now destruct Hsat.
  - apply satisfiesb_satisfies. exact restrict_satisfies.
Qed.
End Closed.

(** *** Optimality *)

Theorem reference_optimal (p : SatParameters) (m : CpModel) :
  solver_optimal_on solver p m.
Proof.
  unfold solver_optimal_on. simpl. unfold Solve.
  destruct (best m (feasible_candidates m)) as [a|] eqn:E; simpl.
  - destruct (closedb m) eqn:Hcl; [|discriminate].
    intros _ v' Hv'.
    rewrite <- (@restrict_objective m v' Hcl).
    apply (@best_ge m (feasible_candidates m) a E).
    now apply restrict_is_candidate.
  - destruct (closedb m); discriminate.
Qed.

(** A model with a feasible solution is never reported without one. *)
Theorem reference_complete (p : SatParameters) (m : CpModel) (v : valuation) :
  closedb m = true -> satisfies m v -> fst (Solve p m) = OPTIMAL.
Proof.
  intros Hcl Hv. unfold Solve.
  destruct (best m (feasible_candidates m)) as [a|] eqn:E; simpl.
  - now rewrite Hcl.
  - apply best_None in E.
    pose proof (@restrict_is_candidate m v Hcl Hv) as H.
    rewrite E in H. destruct H.
Qed.
End ReferenceSolver.

(* ================================================================== *)
(** * The optimizer: hard constraints and shape of the result *)

Lemma feasible_hard_ground (tasks : list Task) (n : nat) (m : CpSat.CpModel)
    (v : CpSat.valuation) :
  Ground.build_model tasks n = Ok m -> CpSat.satisfies m v ->
  at_most_one_satellite tasks n v /\ no_conflict tasks n v.
Proof.
  intros Hm Hv. destruct (ground_model_hard tasks n m Hm) as [Hvars Hcs].
  split.
  - exact (feasible_at_most_one_satellite tasks n m v Hvars Hcs Hv).
  - exact (feasible_no_conflict tasks n m v Hvars Hcs Hv).
Qed.

Lemma feasible_hard_sat (tasks : list Task) (n : nat) (v : CpSat.valuation) :
  CpSat.satisfies (Sat.build_model tasks n) v ->
  at_most_one_satellite tasks n v /\ no_conflict tasks n v.
Proof.
  intro Hv. destruct (sat_model_hard tasks n) as [Hvars Hcs].
  split.
  - exact (feasible_at_most_one_satellite tasks n _ v Hvars Hcs Hv).
  - exact (feasible_no_conflict tasks n _ v Hvars Hcs Hv).
Qed.

(** C1 (exclusivity invariant).  Whenever either [cp_solve] returns an
    assignment, and the solver's reported solution is feasible for the model
    it was given, then for every satellite and every resource id at most one
    task in that satellite's sequence requires that resource. *)
Theorem cp_solve_exclusive (solver : CpSat.CpSolver) (tasks : list Task) (num_sats : nat) :
  (forall m, Ground.build_model tasks num_sats = Ok m ->
             CpSat.solver_sound_on solver Ground.parameters m) ->
  CpSat.solver_sound_on solver Sat.parameters (Sat.build_model tasks num_sats) ->
  (forall a, Ground.cp_solve solver tasks num_sats = Ok a -> exclusive a) /\
  (forall a, Sat.cp_solve solver tasks num_sats = Some a -> exclusive a).
Proof.
  intros Hg Hs. split; intros a Ha.
  - apply ground_cp_solve_ok in Ha. destruct Ha as (m & Hm & Hst & ->).
    apply picked_exclusive.
    apply (feasible_hard_ground tasks num_sats m _ Hm). now apply Hg.
  - apply sat_cp_solve_ok in Ha. destruct Ha as (Hst & ->).
    apply picked_exclusive.
    apply feasible_hard_sat. now apply Hs.
Qed.

Lemma cp_solve_exclusive_witness :
  Ground.cp_solve Reference.solver catalog_AB 1 = Ok [[task_A]] /\
  Sat.cp_solve Reference.solver catalog_AB 1 = Some [[task_A]] /\
  exclusive [[task_A]].
Proof.
  split; [vm_compute; reflexivity|].
  split; [vm_compute; reflexivity|].
  apply (proj1 (cp_solve_exclusive Reference.solver catalog_AB 1
                  (fun m _ => reference_sound Ground.parameters m)
                  (reference_sound Sat.parameters _))).
  vm_compute. reflexivity.
Defined.

(** Feasible decision values give an assignment that places no catalog entry
    twice. *)
Lemma picked_placed_at_most_once (tasks : list Task) (n : nat) (v : CpSat.valuation) :
  at_most_one_satellite tasks n v ->
  placed_at_most_once tasks (map (picked tasks v) (range n)).
Proof.
  intro Hone. split.
  - intro t. now apply picked_placements.
  - intro Hnd. now apply picked_one_satellite.
Qed.

Lemma ground_placed_at_most_once (solver : CpSat.CpSolver) (tasks : list Task) (n : nat)
    (a : list (list Task)) :
  (forall m, Ground.build_model tasks n = Ok m ->
             CpSat.solver_sound_on solver Ground.parameters m) ->
  Ground.cp_solve solver tasks n = Ok a -> placed_at_most_once tasks a.
Proof.
  intros Hg Ha. apply ground_cp_solve_ok in Ha. destruct Ha as (m & Hm & Hst & ->).
  apply picked_placed_at_most_once.
  apply (feasible_hard_ground tasks n m _ Hm). now apply Hg.
Qed.

Lemma sat_placed_at_most_once (solver : CpSat.CpSolver) (tasks : list Task) (n : nat)
    (a : list (list Task)) :
  CpSat.solver_sound_on solver Sat.parameters (Sat.build_model tasks n) ->
  Sat.cp_solve solver tasks n = Some a -> placed_at_most_once tasks a.
Proof.
  intros Hs Ha. apply sat_cp_solve_ok in Ha. destruct Ha as (Hst & ->).
  apply picked_placed_at_most_once.
  apply feasible_hard_sat. now apply Hs.
Qed.

(** C2 (at-most-once placement).  Whenever either [cp_solve] returns an
    assignment from a feasible solution, every catalog entry is placed at most
    once in the whole assignment; for a catalog of distinct task records, a
    task occurs in the sequence of at most one satellite. *)
Theorem cp_solve_places_once (solver : CpSat.CpSolver) (tasks : list Task) (num_sats : nat) :
  (forall m, Ground.build_model tasks num_sats = Ok m ->
             CpSat.solver_sound_on solver Ground.parameters m) ->
  CpSat.solver_sound_on solver Sat.parameters (Sat.build_model tasks num_sats) ->
  (forall a, Ground.cp_solve solver tasks num_sats = Ok a -> placed_at_most_once tasks a) /\
  (forall a, Sat.cp_solve solver tasks num_sats = Some a -> placed_at_most_once tasks a).
Proof.
  intros Hg Hs. split; intros a Ha.
  - now apply (ground_placed_at_most_once solver tasks num_sats).
  - now apply (sat_placed_at_most_once solver tasks num_sats).
Qed.

Lemma cp_solve_places_once_witness :
  Sat.cp_solve Reference.solver catalog_AB 2 = Some [[task_A]; [task_B]] /\
  placed_at_most_once catalog_AB [[task_A]; [task_B]].
Proof.
  split; [vm_compute; reflexivity|].
  apply (proj2 (cp_solve_places_once Reference.solver catalog_AB 2
                  (fun m _ => reference_sound Ground.parameters m)
                  (reference_sound Sat.parameters _))).
  vm_compute. reflexivity.
Defined.

(** C10 (shape of the result).  Whenever either [cp_solve] returns an
    assignment, it is a list of exactly [num_sats] sequences and every task
    record in any of them is one of the input records. *)
Theorem cp_solve_shape (solver : CpSat.CpSolver) (tasks : list Task) (num_sats : nat) :
  (forall a, Ground.cp_solve solver tasks num_sats = Ok a ->
     List.length a = num_sats /\ forall l t, In l a -> In t l -> In t tasks) /\
  (forall a, Sat.cp_solve solver tasks num_sats = Some a ->
     List.length a = num_sats /\ forall l t, In l a -> In t l -> In t tasks).
Proof.
  assert (forall v, forall l t,
            In l (map (picked tasks v) (range num_sats)) -> In t l -> In t tasks) as Hin.
  { intros v l t Hl Ht. apply in_map_iff in Hl. destruct Hl as (s & <- & _).
    apply picked_In in Ht. destruct Ht as (i & Hi & <- & _). now apply task_at_In. }
  split; intros a Ha.
  - apply ground_cp_solve_ok in Ha. destruct Ha as (m & _ & _ & ->).
    split; [unfold range; now rewrite length_map, length_seq|apply Hin].
  - apply sat_cp_solve_ok in Ha. destruct Ha as (_ & ->).
    split; [unfold range; now rewrite length_map, length_seq|apply Hin].
Qed.

Lemma cp_solve_shape_witness :
  List.length [[task_A]; [task_B]] = 2 /\
  forall l t, In l [[task_A]; [task_B]] -> In t l -> In t catalog_AB.
Proof.
  apply (proj2 (cp_solve_shape Reference.solver catalog_AB 2)).
  vm_compute. reflexivity.
Defined.

(* ================================================================== *)
(** * The optimizer without satellites *)

Lemma sat_zero_model_trivial (tasks : list Task) (v : CpSat.valuation) :
  CpSat.satisfies (Sat.build_model tasks 0) v.
Proof.
  rewrite sat_build_model. unfold Model.sat, CpSat.satisfies. simpl. split.
  - unfold Model.assign_decls. simpl.
    induction (range (List.length tasks)); simpl; auto.
  - unfold Model.exclusivity_cs, Model.task_cs. simpl. rewrite app_nil_r.
    apply Forall_forall. intros c Hc. apply in_map_iff in Hc.
    destruct Hc as (i & <- & _). simpl. unfold CpSat.eval. simpl. lia.
Qed.

(** C5, as the code has it.  With zero satellites ground.py's [cp_solve] fails
    at the division [TASK_COUNT / num_sats], before the solver runs; sat.py's
    [cp_solve] builds a model every valuation satisfies and returns the empty
    assignment when the solver reports a solution. *)
Theorem cp_solve_zero_satellites (solver : CpSat.CpSolver) (tasks : list Task) :
  Ground.cp_solve solver tasks 0 = Raise ZeroDivisionError /\
  (forall v, CpSat.satisfies (Sat.build_model tasks 0) v) /\
  Sat.cp_solve solver tasks 0
  = if CpSat.has_solution
         (fst (CpSat.Solve solver Sat.parameters (Sat.build_model tasks 0)))
    then Some [] else None.
Proof.
  split; [reflexivity|]. split; [apply sat_zero_model_trivial|].
  unfold Sat.cp_solve.
  destruct (CpSat.Solve solver Sat.parameters (Sat.build_model tasks 0)) as [status v].
  simpl. destruct (CpSat.has_solution status); simpl; [|reflexivity].
  now rewrite sat_read_assignment_eq.
Qed.

(** C5 fails as stated: on the non-empty catalog [A, B] with zero satellites
    neither variant signals "no feasible assignment". *)
Lemma cp_solve_zero_satellites_not_infeasible :
  catalog_AB <> [] /\
  Ground.cp_solve Reference.solver catalog_AB 0 <> Raise Infeasible /\
  Sat.cp_solve Reference.solver catalog_AB 0 <> None.
Proof.
  split; [discriminate|]. split; vm_compute; discriminate.
Qed.

(* ================================================================== *)
(** * The objective of ground.py *)

Lemma sumZ_flat_map {A B : Type} (f : A -> list B) (g : B -> Z) (l : list A) :
  sumZ (map g (flat_map f l)) = sumZ (map (fun a => sumZ (map g (f a))) l).
Proof.
  induction l as [|a l IH]; [reflexivity|].
  simpl flat_map. rewrite map_app, sumZ_app, IH. reflexivity.
Qed.

Lemma sumZ_add {A : Type} (f g : A -> Z) (l : list A) :
  sumZ (map (fun a => (f a + g a)%Z) l) = (sumZ (map f l) + sumZ (map g l))%Z.
Proof.
  induction l as [|a l IH]; [reflexivity|].
  cbn [map]. rewrite !sumZ_cons, IH. lia.
Qed.

Lemma sumZ_zero {A : Type} (l : list A) : sumZ (map (fun _ => 0%Z) l) = 0%Z.
Proof. induction l as [|a l IH]; [reflexivity|]. simpl. exact IH. Qed.

Lemma sumZ_swap {A B : Type} (f : A -> B -> Z) (la : list A) (lb : list B) :
  sumZ (map (fun a => sumZ (map (f a) lb)) la)
  = sumZ (map (fun b => sumZ (map (fun a => f a b) la)) lb).
Proof.
  induction la as [|a la IH].
  - simpl. now rewrite sumZ_zero.
  - cbn [map]. rewrite sumZ_cons, IH, <- sumZ_add. reflexivity.
Qed.

Lemma sumZ_ext {A : Type} (f g : A -> Z) (l : list A) :
  (forall a, In a l -> f a = g a) -> sumZ (map f l) = sumZ (map g l).
Proof.
  intro H. f_equal. apply map_ext_in. exact H.
Qed.

(** A sum weighted by 0/1 variables is the sum over the variables set. *)
Lemma sumZ_selected (v : CpSat.valuation) (x : nat -> CpSat.var) (c : nat -> Z)
    (l : list nat) :
  (forall i, In i l -> (0 <= v (x i) <= 1)%Z) ->
  sumZ (map (fun i => (c i * v (x i))%Z) l)
  = sumZ (map c (filter (fun i => CpSat.BooleanValue v (x i)) l)).
Proof.
  induction l as [|i l IH]; intro H; [reflexivity|].
  cbn [map filter]. rewrite sumZ_cons.
  rewrite IH by (intros j Hj; apply H; now right).
  assert (0 <= v (x i) <= 1)%Z as Hi by (apply H; now left).
  unfold CpSat.BooleanValue at 2.
  destruct (Z.eqb_spec (v (x i)) 0) as [E|E]; cbn [negb map].
  - rewrite E. lia.
  - rewrite sumZ_cons. replace (v (x i)) with 1%Z by lia. lia.
Qed.

Lemma avg_bounds (a : nat) (n : nat) :
  (0 < n)%nat -> (0 <= Z.quot (Z.of_nat a) (Z.of_nat n) <= Z.of_nat a)%Z.
Proof.
  intro Hn. split.
  - apply Z.quot_pos; lia.
  - apply Z.quot_le_upper_bound; nia.
Qed.

Lemma picked_length_bound (tasks : list Task) (v : CpSat.valuation) (s : nat) :
  (List.length (picked tasks v s) <= List.length tasks)%nat.
Proof.
  unfold picked. rewrite length_map.
  etransitivity; [apply filter_length_le|].
  unfold range. now rewrite length_seq.
Qed.

Section GroundObjective.
Import CpSat.
Variables (tasks : list Task) (n : nat) (v : valuation).
Hypothesis Hn : (0 < n)%nat.

Let k : Z := Z.quot (Z.of_nat (List.length tasks)) (Z.of_nat n).
Let M : CpModel := Model.ground tasks n k.

Hypothesis Hsat : satisfies M v.

Lemma ground_assign_bool (i s : nat) :
  (i < List.length tasks)%nat -> (s < n)%nat -> (0 <= v (Assign i s) <= 1)%Z.
Proof.
  apply (assign_is_bool tasks n M v); [|exact Hsat].
  unfold M, Model.ground. simpl. apply incl_appl, incl_refl.
Qed.

Lemma ground_constraint (c : constraint) :
  In c (Model.load_cs (List.length tasks) n ++ Model.imbalance_cs n k) -> holds v c.
Proof.
  intro Hc. destruct Hsat as [_ H]. rewrite Forall_forall in H. apply H.
  unfold M, Model.ground. simpl. apply in_or_app. right. apply in_or_app. now right.
Qed.

Lemma ground_load (s : nat) :
  (s < n)%nat -> v (Load s) = Z.of_nat (List.length (picked tasks v s)).
Proof.
  intro Hs.
  assert (holds v (Eq (evar (Load s))
                      (esum (map (fun i => evar (Assign i s)) (range (List.length tasks))))))
    as H.
  { apply ground_constraint, in_or_app. left. unfold Model.load_cs.
    apply in_map_iff. exists s. split; [reflexivity|now apply range_In]. }
  simpl in H. rewrite eval_evar, (eval_esum_vars v (fun i => Assign i s)) in H.
  rewrite H, sum_counts.
  - unfold picked. now rewrite length_map.
  - intros i Hi. apply range_In in Hi. now apply ground_assign_bool.
Qed.

Lemma ground_sq (s : nat) :
  (s < n)%nat ->
  v (Sq s) = ((Z.of_nat (List.length (picked tasks v s)) - k)
              * (Z.of_nat (List.length (picked tasks v s)) - k))%Z.
Proof.
  intro Hs.
  assert (holds v (Eq (evar (Diff s)) (esub (evar (Load s)) (econst k)))) as Hd.
  { apply ground_constraint, in_or_app. right. unfold Model.imbalance_cs.
    apply in_flat_map. exists s. split; [now apply range_In|now left]. }
  assert (holds v (MulEq (Sq s) (Diff s) (Diff s))) as Hq.
  { apply ground_constraint, in_or_app. right. unfold Model.imbalance_cs.
    apply in_flat_map. exists s. split; [now apply range_In|right; now left]. }
  simpl in Hd, Hq. rewrite eval_evar, eval_esub, eval_evar, eval_econst in Hd.
  rewrite Hq, Hd, ground_load by assumption. reflexivity.
Qed.

Lemma ground_payoff_sum :
  sumZ (map (eval v) (Model.payoff_exprs tasks n))
  = sumZ (map (fun w => sumZ (map cents w))
              (map (picked tasks v) (range n))).
Proof.
  unfold Model.payoff_exprs.
  rewrite sumZ_flat_map.
  erewrite sumZ_ext.
  2:{ intros i Hi. rewrite map_map. apply sumZ_ext. intros s Hs.
      rewrite eval_escale, eval_evar. reflexivity. }
  rewrite (sumZ_swap
             (fun i s => (cents (task_at tasks i) * v (Assign i s))%Z)).
  rewrite map_map. apply sumZ_ext. intros s Hs. apply range_In in Hs.
  rewrite (sumZ_selected v (fun i => Assign i s)
             (fun i => cents (task_at tasks i))).
  - unfold picked. now rewrite map_map.
  - intros i Hi. apply range_In in Hi. now apply ground_assign_bool.
Qed.

(** The value of the objective at a feasible solution. *)
Lemma ground_objective_value :
  objective_value M v
  = inject_Z (code_objective tasks n (map (picked tasks v) (range n))).
Proof.
  unfold objective_value, M, Model.ground. cbn [objective].
  f_equal. unfold code_objective. fold k.
  rewrite eval_esub, eval_escale, !eval_esum, ground_payoff_sum.
  f_equal. f_equal. rewrite !map_map. apply sumZ_ext.
  intros s Hs. apply range_In in Hs. rewrite eval_evar. now apply ground_sq.
Qed.
End GroundObjective.

Section Completion.
Import CpSat.
Variables (tasks : list Task) (n : nat) (v : valuation).
Hypothesis Hn : (0 < n)%nat.
Hypothesis Hhard : hard_feasible tasks n v.

Let k : Z := Z.quot (Z.of_nat (List.length tasks)) (Z.of_nat n).
Let w : valuation := complete tasks n v.

Lemma complete_picked (s : nat) : picked tasks w s = picked tasks v s.
Proof. reflexivity. Qed.

Lemma complete_bool (i s : nat) :
  In i (range (List.length tasks)) -> In s (range n) -> (0 <= w (Assign i s) <= 1)%Z.
Proof.
  intros Hi Hs. apply range_In in Hi. apply range_In in Hs.
  destruct Hhard as [Hb _]. now apply Hb.
Qed.

Lemma complete_domains : Forall (in_domain w) (variables (Model.ground tasks n k)).
Proof.
  pose proof (avg_bounds (List.length tasks) n Hn) as Hk. fold k in Hk.
  unfold Model.ground. cbn [variables]. rewrite !Forall_app. repeat split.
  - apply Forall_forall. intros d Hd. unfold Model.assign_decls in Hd.
    apply in_flat_map in Hd. destruct Hd as (i & Hi & Hd).
    apply in_map_iff in Hd. destruct Hd as (s & <- & Hs).
    now apply complete_bool.
  - apply Forall_forall. intros d Hd. unfold Model.load_decls in Hd.
    apply in_map_iff in Hd. destruct Hd as (s & <- & Hs).
    unfold in_domain. cbn [fst snd w complete].
    pose proof (picked_length_bound tasks v s). lia.
  - apply Forall_forall. intros d Hd. unfold Model.imbalance_decls in Hd.
    apply in_flat_map in Hd. destruct Hd as (s & Hs & Hd).
    pose proof (picked_length_bound tasks v s) as Hl.
    destruct Hd as [<-|[<-|[]]]; unfold in_domain; cbn [fst snd w complete]; fold k.
    + lia.
    + set (d := (Z.of_nat (List.length (picked tasks v s)) - k)%Z).
      set (T := Z.of_nat (List.length tasks)).
      assert (- T <= d <= T)%Z as Hd by (unfold d, T; lia).
      assert (0 <= (T - d) * (T + d))%Z by (apply Z.mul_nonneg_nonneg; lia).
      nia.
Qed.

Lemma complete_constraints : Forall (holds w) (constraints (Model.ground tasks n k)).
Proof.
  destruct Hhard as (Hb & Hone & Hnc).
  unfold Model.ground. cbn [constraints]. rewrite !Forall_app. repeat split.
  - apply Forall_forall. intros c Hc. unfold Model.task_cs in Hc.
    apply in_map_iff in Hc. destruct Hc as (i & <- & Hi).
    cbn [holds]. rewrite (eval_esum_vars w (fun s => Assign i s)), eval_econst.
    rewrite sum_counts by (intros s Hs; now apply complete_bool).
    apply range_In in Hi. change 1%Z with (Z.of_nat 1).
    apply Nat2Z.inj_le. exact (Hone i Hi).
  - apply Forall_forall. intros c Hc. unfold Model.exclusivity_cs in Hc.
    apply in_flat_map in Hc. destruct Hc as (s & Hs & Hc).
    apply in_flat_map in Hc. destruct Hc as (r & Hr & Hc).
    assert (c = Le (esum (Model.conflict_vars tasks s r)) (econst 1)) as ->.
    { destruct (Model.conflict_vars tasks s r); [destruct Hc|].
      destruct Hc as [<-|[]]. reflexivity. }
    cbn [holds]. unfold Model.conflict_vars.
    rewrite (eval_esum_vars w (fun i => Assign i s)), eval_econst.
    rewrite sum_counts.
    + rewrite filter_filter. apply range_In in Hs. change 1%Z with (Z.of_nat 1).
      apply Nat2Z.inj_le. exact (Hnc s r Hs).
    + intros i Hi. apply filter_In in Hi. destruct Hi as [Hi _].
      now apply complete_bool.
  - apply Forall_forall. intros c Hc. unfold Model.load_cs in Hc.
    apply in_map_iff in Hc. destruct Hc as (s & <- & Hs).
    cbn [holds]. rewrite eval_evar, (eval_esum_vars w (fun i => Assign i s)).
    rewrite sum_counts by (intros i Hi; now apply complete_bool).
    unfold w at 1. cbn [complete]. unfold picked. now rewrite length_map.
  - apply Forall_forall. intros c Hc. unfold Model.imbalance_cs in Hc.
    apply in_flat_map in Hc. destruct Hc as (s & Hs & Hc).
    destruct Hc as [<-|[<-|[]]]; cbn [holds].
    + rewrite eval_evar, eval_esub, eval_evar, eval_econst. reflexivity.
    + reflexivity.
Qed.

(** Decision values obeying the hard constraints extend to a feasible
    solution of the whole model: the auxiliary variables restrict nothing. *)
Lemma complete_satisfies : satisfies (Model.ground tasks n k) w.
Proof. split; [apply complete_domains|apply complete_constraints]. Qed.
End Completion.

(* ================================================================== *)
(** * Sums of payoffs *)

Lemma sumQ_fold (l : list Q) (a : Q) : (fold_left Qplus l a == a + sumQ l)%Q.
Proof.
  unfold sumQ. revert a. induction l as [|x l IH]; intro a; simpl.
  - now rewrite Qplus_0_r.
  - rewrite (IH (a + x)%Q), (IH (0 + x)%Q). ring.
Qed.

Lemma sumQ_cons (x : Q) (l : list Q) : (sumQ (x :: l) == x + sumQ l)%Q.
Proof.
  unfold sumQ at 1. simpl. rewrite sumQ_fold. now rewrite Qplus_0_l.
Qed.

Lemma sumQ_app (l l' : list Q) : (sumQ (l ++ l') == sumQ l + sumQ l')%Q.
Proof.
  induction l as [|x l IH]; simpl.
  - now rewrite Qplus_0_l.
  - rewrite !sumQ_cons, IH. ring.
Qed.

Lemma sumQ_nonneg (l : list Q) : Forall (fun x => 0 <= x)%Q l -> (0 <= sumQ l)%Q.
Proof.
  induction 1 as [|x l Hx Hl IH]; [apply Qle_refl|].
  rewrite sumQ_cons. replace 0%Q with (0 + 0)%Q by reflexivity.
  now apply Qplus_le_compat.
Qed.

Lemma sumQ_concat (f : Task -> Q) (ls : list (list Task)) :
  (sumQ (map (fun l => sumQ (map f l)) ls) == sumQ (map f (concat ls)))%Q.
Proof.
  induction ls as [|l ls IH]; simpl; [reflexivity|].
  now rewrite sumQ_cons, map_app, sumQ_app, IH.
Qed.

(** Guarded terms [x if p else 0.0] sum to the sum over the filtered list. *)
Lemma sumQ_guarded {A : Type} (p : A -> bool) (f : A -> Q) (l : list A) :
  (sumQ (map (fun a => if p a then f a else 0) l) == sumQ (map f (filter p l)))%Q.
Proof.
  induction l as [|a l IH]; simpl; [reflexivity|].
  rewrite sumQ_cons, IH. destruct (p a); simpl.
  - now rewrite sumQ_cons.
  - apply Qplus_0_l.
Qed.

(** A sub-multiset of non-negative payoffs has the smaller sum. *)
Lemma sumQ_sub_multiset (f : Task -> Q) (l m : list Task) :
  (forall t, In t m -> 0 <= f t)%Q ->
  (forall t, count_occ Task_eq_dec l t <= count_occ Task_eq_dec m t) ->
  (sumQ (map f l) <= sumQ (map f m))%Q.
Proof.
  revert m. induction l as [|x l IH]; intros m Hpos Hsub.
  - simpl. apply sumQ_nonneg. apply Forall_forall. intros q Hq.
    apply in_map_iff in Hq. destruct Hq as (t & <- & Ht). now apply Hpos.
  - assert (In x m) as Hx.
    { apply (count_occ_In Task_eq_dec). specialize (Hsub x).
      rewrite count_occ_cons_eq in Hsub by reflexivity. lia. }
    apply in_split in Hx. destruct Hx as (m1 & m2 & ->).
    simpl. rewrite sumQ_cons, map_app, sumQ_app. simpl. rewrite sumQ_cons.
    assert (sumQ (map f l) <= sumQ (map f (m1 ++ m2)))%Q as Hle.
    { apply IH.
      - intros t Ht. apply Hpos. apply in_app_or in Ht. apply in_or_app.
        destruct Ht; [now left|right; now right].
      - intro t. specialize (Hsub t). rewrite count_occ_app in *.
        simpl in Hsub. destruct (Task_eq_dec x t); lia. }
    rewrite map_app, sumQ_app in Hle.
    setoid_replace (sumQ (map f m1) + (f x + sumQ (map f m2)))%Q
      with (f x + (sumQ (map f m1) + sumQ (map f m2)))%Q by ring.
    apply Qplus_le_compat; [apply Qle_refl|exact Hle].
Qed.

Lemma sumQ_ext {A : Type} (f g : A -> Q) (l : list A) :
  (forall a, In a l -> f a == g a)%Q -> (sumQ (map f l) == sumQ (map g l))%Q.
Proof.
  induction l as [|a l IH]; intro H; [reflexivity|].
  simpl. rewrite !sumQ_cons, IH by (intros x Hx; apply H; now right).
  now rewrite (H a) by now left.
Qed.

Lemma sumQ_add {A : Type} (f g : A -> Q) (l : list A) :
  (sumQ (map (fun a => f a + g a) l) == sumQ (map f l) + sumQ (map g l))%Q.
Proof.
  induction l as [|a l IH]; [reflexivity|].
  simpl. rewrite !sumQ_cons, IH. ring.
Qed.

Lemma sumQ_zero {A : Type} (l : list A) : (sumQ (map (fun _ => 0) l) == 0)%Q.
Proof.
  induction l as [|a l IH]; [reflexivity|].
  simpl. rewrite sumQ_cons, IH. ring.
Qed.

Lemma sumQ_swap {A B : Type} (f : A -> B -> Q) (la : list A) (lb : list B) :
  (sumQ (map (fun a => sumQ (map (f a) lb)) la)
   == sumQ (map (fun b => sumQ (map (fun a => f a b) la)) lb))%Q.
Proof.
  induction la as [|a la IH].
  - simpl. now rewrite sumQ_zero.
  - simpl. rewrite sumQ_cons, IH, <- sumQ_add.
    apply sumQ_ext. intros b _. now rewrite sumQ_cons.
Qed.

Lemma sumQ_flat_map {A B : Type} (f : A -> list B) (g : B -> Q) (l : list A) :
  (sumQ (map g (flat_map f l)) == sumQ (map (fun a => sumQ (map g (f a))) l))%Q.
Proof.
  induction l as [|a l IH]; [reflexivity|].
  simpl. now rewrite map_app, sumQ_app, sumQ_cons, IH.
Qed.

Lemma sumQ_selected (v : CpSat.valuation) (x : nat -> CpSat.var) (c : nat -> Q)
    (l : list nat) :
  (forall i, In i l -> (0 <= v (x i) <= 1)%Z) ->
  (sumQ (map (fun i => c i * inject_Z (v (x i))) l)
   == sumQ (map c (filter (fun i => CpSat.BooleanValue v (x i)) l)))%Q.
Proof.
  induction l as [|i l IH]; intro H; [reflexivity|].
  simpl. rewrite sumQ_cons, IH by (intros j Hj; apply H; now right).
  assert (0 <= v (x i) <= 1)%Z as Hi by (apply H; now left).
  unfold CpSat.BooleanValue at 2.
  destruct (Z.eqb_spec (v (x i)) 0) as [E|E]; simpl.
  - rewrite E. change (inject_Z 0) with 0%Q. ring.
  - rewrite sumQ_cons. replace (v (x i)) with 1%Z by lia.
    change (inject_Z 1) with 1%Q. ring.
Qed.

Lemma eval_float_sum (v : CpSat.valuation) (ts : list (double * CpSat.var)) :
  (CpSat.eval_float v ts
   == sumQ (map (fun cx => value (fst cx) * inject_Z (v (snd cx))) ts))%Q.
Proof.
  induction ts as [|cx ts IH]; [reflexivity|].
  simpl. now rewrite sumQ_cons, IH.
Qed.

Lemma NoDup_count_occ_le (l m : list Task) :
  NoDup l -> incl l m ->
  forall t, count_occ Task_eq_dec l t <= count_occ Task_eq_dec m t.
Proof.
  intros Hnd Hincl t.
  destruct (in_dec Task_eq_dec t l) as [Hin|Hnin].
  - rewrite (NoDup_count_occ' Task_eq_dec) in Hnd. rewrite (Hnd t Hin).
    apply (count_occ_In Task_eq_dec). now apply Hincl.
  - apply (count_occ_not_In Task_eq_dec) in Hnin. lia.
Qed.

(* ================================================================== *)
(** * Dictionaries and the summary *)

Section Dict.
Context {V : Type}.

Lemma dict_get_set_same (k : string) (x : V) (d : list (string * V)) :
  dict_get (dict_set k x d) k = Some x.
Proof.
  induction d as [|[k' x'] d IH]; simpl.
  - now rewrite String.eqb_refl.
  - destruct (String.eqb_spec k k') as [->|Hne]; simpl.
    + now rewrite String.eqb_refl.
    + destruct (String.eqb_spec k k'); [contradiction|exact IH].
Qed.

Lemma dict_get_set_other (k k' : string) (x : V) (d : list (string * V)) :
  k <> k' -> dict_get (dict_set k x d) k' = dict_get d k'.
Proof.
  intro Hne. induction d as [|[k0 x0] d IH]; simpl.
  - destruct (String.eqb_spec k' k); [congruence|reflexivity].
  - destruct (String.eqb_spec k k0) as [->|Hne0]; simpl.
    + destruct (String.eqb_spec k' k0); [congruence|reflexivity].
    + destruct (String.eqb_spec k' k0); [reflexivity|exact IH].
Qed.

Lemma keys_dict_set_In (k k' : string) (x : V) (d : list (string * V)) :
  In k' (keys (dict_set k x d)) <-> k' = k \/ In k' (keys d).
Proof.
  unfold keys. induction d as [|[k0 x0] d IH]; simpl.
  - intuition.
  - destruct (String.eqb_spec k k0) as [->|Hne0]; simpl.
    + intuition.
    + rewrite IH. intuition.
Qed.

Lemma keys_dict_set_NoDup (k : string) (x : V) (d : list (string * V)) :
  NoDup (keys d) -> NoDup (keys (dict_set k x d)).
Proof.
  induction d as [|[k0 x0] d IH]; intro Hnd.
  - simpl. constructor; [intros []|constructor].
  - simpl. destruct (String.eqb_spec k k0) as [->|Hne0].
    + exact Hnd.
    + inversion Hnd as [|? ? Hnotin Hnd']; subst.
      change (NoDup (k0 :: keys (dict_set k x d))). constructor.
      * rewrite keys_dict_set_In. intros [E|Hin]; [congruence|contradiction].
      * now apply IH.
Qed.

Lemma dict_get_keys (k : string) (d : list (string * V)) :
  In k (keys d) <-> exists x, dict_get d k = Some x.
Proof.
  unfold keys. induction d as [|[k0 x0] d IH]; simpl.
  - split; [intros []|intros [x Hx]; discriminate].
  - destruct (String.eqb_spec k k0) as [->|Hne].
    + split; [intros _; now exists x0|now left].
    + rewrite <- IH. split; [intros [E|H]; [congruence|exact H]|now right].
Qed.
End Dict.

Section Summary.
Variable rs : list Result.

Lemma ground_summarize_snoc (r : Result) (l : list Result) :
  Ground.summarize (l ++ [r]) = dict_set (task_name r) (info_of r) (Ground.summarize l).
Proof. unfold Ground.summarize. now rewrite for_each_snoc. Qed.

Lemma sat_summarize_eq (l : list Result) : Sat.summarize l = Ground.summarize l.
Proof. reflexivity. Qed.

Lemma last_result_snoc (k : string) (r : Result) (l : list Result) :
  last_result k (l ++ [r])
  = if String.eqb k (task_name r) then Some r else last_result k l.
Proof. unfold last_result. rewrite rev_app_distr. reflexivity. Qed.

(** The entry under a task name is the one of the last result with that name:
    earlier ones are overwritten. *)
Lemma summarize_get (k : string) :
  dict_get (Ground.summarize rs) k = option_map info_of (last_result k rs).
Proof.
  induction rs as [|r l IH] using rev_ind; [reflexivity|].
  rewrite ground_summarize_snoc, last_result_snoc.
  destruct (String.eqb_spec k (task_name r)) as [->|Hne].
  - apply dict_get_set_same.
  - rewrite dict_get_set_other by congruence. exact IH.
Qed.

Lemma summarize_keys_NoDup : NoDup (keys (Ground.summarize rs)).
Proof.
  induction rs as [|r l IH] using rev_ind; [constructor|].
  rewrite ground_summarize_snoc. now apply keys_dict_set_NoDup.
Qed.

Lemma summarize_keys_In (k : string) :
  In k (keys (Ground.summarize rs)) <-> In k (map task_name rs).
Proof.
  induction rs as [|r l IH] using rev_ind; [reflexivity|].
  rewrite ground_summarize_snoc, keys_dict_set_In, IH, map_app, in_app_iff.
  simpl. intuition.
Qed.

Lemma last_result_some (k : string) (r : Result) :
  last_result k rs = Some r -> In r rs /\ task_name r = k.
Proof.
  unfold last_result. intro H. apply find_some in H. destruct H as [Hin E].
  split; [now apply in_rev|]. apply String.eqb_eq in E. now symmetry.
Qed.

Lemma last_result_exists (k : string) :
  In k (map task_name rs) -> exists r, last_result k rs = Some r.
Proof.
  intro H. apply summarize_keys_In, dict_get_keys in H. destruct H as [x Hx].
  rewrite summarize_get in Hx.
  destruct (last_result k rs) as [r|]; [now exists r|discriminate].
Qed.

(** Reading the entry of a key of the summary. *)
Lemma getitem_summary (k : string) :
  In k (keys (Ground.summarize rs)) ->
  exists r, last_result k rs = Some r /\ In r rs /\ task_name r = k /\
            getitem (Ground.summarize rs) k = info_of r.
Proof.
  intro H. apply summarize_keys_In, last_result_exists in H. destruct H as [r Hr].
  exists r. destruct (last_result_some k r Hr) as [Hin Hname].
  repeat split; try assumption.
  unfold getitem. now rewrite summarize_get, Hr.
Qed.
End Summary.

(** The payoff sums of the summary, read on the last result of each name. *)
Lemma summary_terms (rs : list Result) (p : bool -> bool) (ks : list string) :
  incl ks (keys (Ground.summarize rs)) ->
  map (fun t => payoff (info_task (getitem (Ground.summarize rs) t)))
      (filter (fun t => p (info_success (getitem (Ground.summarize rs) t))) ks)
  = map (fun r => payoff (task r))
        (filter (fun r => p (success r)) (final_results rs ks)).
Proof.
  induction ks as [|k ks IH]; intro Hincl; [reflexivity|].
  destruct (getitem_summary rs k (Hincl k (or_introl eq_refl)))
    as (r & Hlast & _ & _ & Hget).
  assert (incl ks (keys (Ground.summarize rs))) as Hincl'
    by (intros x Hx; apply Hincl; now right).
  unfold final_results. simpl. rewrite Hlast, Hget. simpl.
  fold (final_results rs ks).
  destruct (p (success r)); simpl; rewrite ?Hget, IH by assumption; reflexivity.
Qed.

Lemma success_payoff_final (rs : list Result) :
  Ground.success_payoff (Ground.summarize rs)
  = sum (map (fun r => payoff (task r))
             (filter success (final_results rs (keys (Ground.summarize rs))))).
Proof.
  unfold Ground.success_payoff.
  rewrite (summary_terms rs (fun b => b)) by apply incl_refl. reflexivity.
Qed.

Lemma failed_payoff_final (rs : list Result) :
  Ground.failed_payoff (Ground.summarize rs)
  = sum (map (fun r => payoff (task r))
             (filter (fun r => negb (success r))
                     (final_results rs (keys (Ground.summarize rs))))).
Proof.
  unfold Ground.failed_payoff.
  rewrite (summary_terms rs negb) by apply incl_refl. reflexivity.
Qed.

(** sat.py adds [0.0] for the names it does not count. *)
Lemma summary_guarded_terms (rs : list Result) (p : bool -> bool) (ks : list string) :
  incl ks (keys (Ground.summarize rs)) ->
  map (fun t => if p (info_success (getitem (Ground.summarize rs) t))
                then payoff (info_task (getitem (Ground.summarize rs) t)) else fzero) ks
  = map (fun r => if p (success r) then payoff (task r) else fzero) (final_results rs ks).
Proof.
  induction ks as [|k ks IH]; intro Hincl; [reflexivity|].
  destruct (getitem_summary rs k (Hincl k (or_introl eq_refl)))
    as (r & Hlast & _ & _ & Hget).
  assert (incl ks (keys (Ground.summarize rs))) as Hincl'
    by (intros x Hx; apply Hincl; now right).
  unfold final_results. cbn [flat_map map]. rewrite Hlast. cbn [app map].
  fold (final_results rs ks). rewrite Hget, IH by assumption. reflexivity.
Qed.

Lemma sat_success_payoff_final (rs : list Result) :
  Sat.total_success_payoff (Sat.summarize rs)
  = sum (map (fun r => if success r then payoff (task r) else fzero)
             (final_results rs (keys (Ground.summarize rs)))).
Proof.
  unfold Sat.total_success_payoff.
  change (Sat.summarize rs) with (Ground.summarize rs).
  now rewrite (summary_guarded_terms rs (fun b => b)) by apply incl_refl.
Qed.

Lemma sat_fail_payoff_final (rs : list Result) :
  Sat.total_fail_payoff (Sat.summarize rs)
  = sum (map (fun r => if negb (success r) then payoff (task r) else fzero)
             (final_results rs (keys (Ground.summarize rs)))).
Proof.
  unfold Sat.total_fail_payoff.
  change (Sat.summarize rs) with (Ground.summarize rs).
  now rewrite (summary_guarded_terms rs negb) by apply incl_refl.
Qed.

(** C9 (duplicate task names).  In the summary of any collected result list,
    every task name that occurs among the results is counted exactly once,
    with the satellite, success flag and task of the last result carrying
    that name; the achieved and the failed payoff are sums over these last
    results, one per distinct task name (sat.py adding [0.0] for a name it
    does not count).  Both coordinators build the same summary. *)
Theorem summary_keeps_last_result (rs : list Result) :
  Sat.summarize rs = Ground.summarize rs /\
  (forall k, In k (map task_name rs) ->
     count_occ string_dec (keys (Ground.summarize rs)) k = 1 /\
     exists r, last_result k rs = Some r /\
               getitem (Ground.summarize rs) k = mkInfo (sat_id r) (success r) (task r)) /\
  (forall k, In k (keys (Ground.summarize rs)) -> In k (map task_name rs)) /\
  Ground.success_payoff (Ground.summarize rs)
  = sum (map (fun r => payoff (task r))
             (filter success (final_results rs (keys (Ground.summarize rs))))) /\
  Ground.failed_payoff (Ground.summarize rs)
  = sum (map (fun r => payoff (task r))
             (filter (fun r => negb (success r))
                     (final_results rs (keys (Ground.summarize rs))))) /\
  Sat.total_success_payoff (Sat.summarize rs)
  = sum (map (fun r => if success r then payoff (task r) else fzero)
             (final_results rs (keys (Ground.summarize rs)))) /\
  Sat.total_fail_payoff (Sat.summarize rs)
  = sum (map (fun r => if negb (success r) then payoff (task r) else fzero)
             (final_results rs (keys (Ground.summarize rs)))).
Proof.
  split; [reflexivity|]. split.
  - intros k Hk. split.
    + apply NoDup_count_occ'; [apply summarize_keys_NoDup|now apply summarize_keys_In].
    + apply summarize_keys_In in Hk.
      destruct (getitem_summary rs k Hk) as (r & Hlast & _ & _ & Hget).
      now exists r.
  - split; [intros k Hk; now apply summarize_keys_In|].
    split; [apply success_payoff_final|].
    split; [apply failed_payoff_final|].
    split; [apply sat_success_payoff_final|apply sat_fail_payoff_final].
Qed.

Lemma summary_keeps_last_result_witness :
  count_occ string_dec (keys (Ground.summarize [result_A_fail; result_A_ok])) "A"%string = 1 /\
  exists r, last_result "A"%string [result_A_fail; result_A_ok] = Some r /\
            getitem (Ground.summarize [result_A_fail; result_A_ok]) "A"%string
            = mkInfo (sat_id r) (success r) (task r).
Proof.
  apply (proj1 (proj2 (summary_keeps_last_result [result_A_fail; result_A_ok]))).
  simpl. now left.
Defined.

(* ================================================================== *)
(** * Results: where they come from and what is collected *)

Lemma execute_result (id : nat) (fp : Q) (rnd : nat -> Q) (n : nat)
    (payload : list Task) (r : Result) :
  In r (Satellite.execute id fp rnd n payload) ->
  task_name r = name (task r) /\ In (task r) payload.
Proof.
  revert n. induction payload as [|t payload IH]; intros n H; [destruct H|].
  simpl in H. destruct H as [<-|H].
  - simpl. split; [reflexivity|now left].
  - destruct (IH (S n) H) as [Hn Hin]. split; [assumption|now right].
Qed.

Lemma nth_concat (a : list (list Task)) (s : nat) (t : Task) :
  In t (nth s a []) -> In t (concat a).
Proof.
  intro H. destruct (Nat.lt_ge_cases s (List.length a)) as [Hs|Hs].
  - apply in_concat. exists (nth s a []). split; [now apply nth_In|assumption].
  - rewrite nth_overflow in H by assumption. destruct H.
Qed.

Lemma published_result (a : list (list Task)) (r : Result) :
  published_by_satellite a r ->
  task_name r = name (task r) /\ In (task r) (concat a).
Proof.
  intros (s & fp & rnd & H). apply execute_result in H. destruct H as [Hn Hin].
  split; [assumption|now apply (nth_concat a s)].
Qed.

Lemma put_result (k : nat) (a : list (list Task)) (r : Result) :
  put_by_process k a r ->
  task_name r = name (task r) /\ In (task r) (concat a).
Proof.
  intros (s & fp & rnd & H). unfold Sat.send_all in H.
  destruct (Nat.lt_ge_cases s k) as [Hs|Hs].
  - rewrite (nth_indep _ [] [Some (nth 0 a []); None]) in H
      by (unfold range; now rewrite length_map, length_seq).
    rewrite (map_nth (fun i => [Some (nth i a []); None])) in H.
    unfold range in H. rewrite seq_nth in H by assumption.
    simpl in H. rewrite app_nil_r in H.
    apply (execute_result (s + 1) fp rnd 0) in H. destruct H as [Hn Hin].
    split; [assumption|now apply (nth_concat a s)].
  - rewrite nth_overflow in H
      by (unfold range; now rewrite length_map, length_seq).
    destruct H.
Qed.

Lemma ground_collect_items (P : Result -> Prop) (env : nat -> Ground.poll) (expected : nat) :
  (forall k item dt, env k = Ground.Got item dt -> P item) ->
  forall fuel n elapsed acc out t,
    Forall P acc ->
    Ground.collect fuel env expected n elapsed acc = Some (out, t) ->
    Forall P out.
Proof.
  intros Henv. induction fuel as [|fuel IH]; intros n elapsed acc out t Hacc H; simpl in H.
  - destruct ((List.length acc <? expected) && Qltb elapsed Ground.timeout_seconds);
      [discriminate|]. injection H as <- _. exact Hacc.
  - destruct ((List.length acc <? expected) && Qltb elapsed Ground.timeout_seconds).
    + destruct (env n) as [item dt|dt] eqn:E.
      * apply (IH _ _ _ _ _) in H; [exact H|].
        apply Forall_app. split; [exact Hacc|]. constructor; [|constructor].
        exact (Henv n item dt E).
      * apply (IH _ _ _ _ _ Hacc H).
    + injection H as <- _. exact Hacc.
Qed.

Lemma sat_collect_items (P : Result -> Prop) :
  forall n queue acc out,
    Forall P queue -> Forall P acc ->
    Sat.collect n queue acc = Some out -> Forall P out.
Proof.
  induction n as [|n IH]; intros queue acc out Hq Hacc H; simpl in H.
  - injection H as <-. exact Hacc.
  - destruct queue as [|r queue]; [discriminate|].
    inversion Hq as [|? ? Hr Hq']; subst.
    apply (IH queue (acc ++ [r]) out Hq'); [|exact H].
    apply Forall_app. split; [exact Hacc|now constructor].
Qed.

Lemma sat_collect_length :
  forall n queue acc out,
    Sat.collect n queue acc = Some out -> List.length out = List.length acc + n.
Proof.
  induction n as [|n IH]; intros queue acc out H; simpl in H.
  - injection H as <-. lia.
  - destruct queue as [|r queue]; [discriminate|].
    apply IH in H. rewrite length_app in H. simpl in H. lia.
Qed.

(* ================================================================== *)
(** * Payoff monotonicity *)

Lemma final_results_names (rs : list Result) (ks : list string) (k : string) :
  In k (map task_name (final_results rs ks)) -> In k ks.
Proof.
  induction ks as [|k0 ks IH]; simpl; [auto|].
  unfold final_results. simpl. fold (final_results rs ks).
  rewrite map_app, in_app_iff. intros [H|H]; [left|right; now apply IH].
  destruct (last_result k0 rs) as [r|] eqn:E; [|destruct H].
  destruct H as [<-|[]]. apply last_result_some in E. now destruct E.
Qed.

Lemma final_results_In (rs : list Result) (ks : list string) (r : Result) :
  In r (final_results rs ks) -> In r rs.
Proof.
  unfold final_results. intro H. apply in_flat_map in H. destruct H as (k & _ & H).
  destruct (last_result k rs) as [r'|] eqn:E; [|destruct H].
  destruct H as [<-|[]]. apply last_result_some in E. now destruct E.
Qed.

Lemma final_results_NoDup (rs : list Result) (ks : list string) :
  NoDup ks -> NoDup (map task_name (final_results rs ks)).
Proof.
  induction 1 as [|k ks Hnotin Hnd IH]; [constructor|].
  unfold final_results. simpl. fold (final_results rs ks).
  destruct (last_result k rs) as [r|] eqn:E; simpl; [|exact IH].
  apply last_result_some in E. destruct E as [_ ->].
  constructor; [|exact IH].
  intro H. apply Hnotin. now apply (final_results_names rs).
Qed.

(** Dropping results keeps their task names distinct. *)
Lemma distinct_names_filter (keep : Result -> bool) (rs : list Result) :
  NoDup (map task_name rs) -> NoDup (map task_name (filter keep rs)).
Proof.
  induction rs as [|r rs IH]; intro Hnd; [constructor|].
  simpl in Hnd. inversion Hnd as [|? ? Hfresh Hrest]; subst.
  simpl. destruct (keep r); simpl; [|now apply IH].
  constructor; [|now apply IH].
  intro Hin. apply Hfresh. apply in_map_iff in Hin. destruct Hin as (x & E & Hx).
  apply filter_In in Hx. rewrite <- E. apply in_map. now destruct Hx.
Qed.

Lemma exact_sum_map {A : Type} (f : A -> double) (l : list A) :
  exact_sum (map f l) = sumQ (map (fun a => value (f a)) l).
Proof. unfold exact_sum. now rewrite map_map. Qed.

(** The tasks whose payoff enters the achieved payoff: those of the last
    results that report success. *)
Lemma counted_sub_multiset (a : list (list Task)) (rs : list Result) :
  Forall (fun r => task_name r = name (task r) /\ In (task r) (concat a)) rs ->
  forall t,
    count_occ Task_eq_dec
      (map task (filter success (final_results rs (keys (Ground.summarize rs))))) t
    <= count_occ Task_eq_dec (concat a) t.
Proof.
  intros Hrs.
  set (F := filter success (final_results rs (keys (Ground.summarize rs)))).
  rewrite Forall_forall in Hrs.
  assert (forall r, In r F -> In r rs) as HF.
  { intros r Hr. apply filter_In in Hr. destruct Hr as [Hr _].
    now apply final_results_In in Hr. }
  apply NoDup_count_occ_le.
  - apply (NoDup_map_inv name). rewrite map_map.
    rewrite (map_ext_in _ task_name).
    + apply distinct_names_filter, final_results_NoDup, summarize_keys_NoDup.
    + intros r Hr. symmetry. now apply Hrs, HF.
  - intros t Ht. apply in_map_iff in Ht. destruct Ht as (r & <- & Hr).
    now apply Hrs, HF.
Qed.

(** Without rounding, the achieved payoff never exceeds the payoff of the
    dispatched tasks, when each collected result reports a dispatched task
    under its own name. *)
Lemma achieved_le_theoretical (a : list (list Task)) (rs : list Result) :
  (forall t, In t (concat a) -> 0 <= value (payoff t))%Q ->
  Forall (fun r => task_name r = name (task r) /\ In (task r) (concat a)) rs ->
  (exact_sum (map (fun r => payoff (task r))
                  (filter success (final_results rs (keys (Ground.summarize rs)))))
   <= exact_sum (map payoff (concat a)))%Q.
Proof.
  intros Hpos Hrs. rewrite <- (map_map task payoff), !exact_sum_map.
  apply sumQ_sub_multiset; [exact Hpos|]. now apply counted_sub_multiset.
Qed.

Lemma theoretical_le_catalog (tasks : list Task) (a : list (list Task)) :
  (forall t, In t tasks -> 0 <= value (payoff t))%Q ->
  placed_at_most_once tasks a ->
  (exact_sum (map payoff (concat a)) <= exact_sum (map payoff tasks))%Q.
Proof.
  intros Hpos [Hcount _]. rewrite !exact_sum_map.
  apply sumQ_sub_multiset; assumption.
Qed.

(** The terms sat.py adds up have the exact sum of the counted payoffs. *)
Lemma exact_sum_guarded {A : Type} (p : A -> bool) (f : A -> double) (l : list A) :
  (exact_sum (map (fun a => if p a then f a else fzero) l)
   == exact_sum (map f (filter p l)))%Q.
Proof.
  rewrite !exact_sum_map.
  rewrite <- (sumQ_guarded p (fun a => value (f a)) l).
  apply sumQ_ext. intros a _. now destruct (p a).
Qed.

Lemma placed_In (tasks : list Task) (a : list (list Task)) (t : Task) :
  placed_at_most_once tasks a -> In t (concat a) -> In t tasks.
Proof.
  intros [Hcount _] Hin. apply (count_occ_In Task_eq_dec) in Hin.
  apply (count_occ_In Task_eq_dec). specialize (Hcount t). unfold placements in Hcount. lia.
Qed.

Lemma ground_main_finished (fuel : nat) (solver : CpSat.CpSolver) (env : nat -> Ground.poll)
    (tasks : list Task) (n : nat) (pubs : list Ground.Publish) (rep : Ground.Report) :
  Ground.main fuel solver env tasks n = Ground.mkRun pubs (Ground.Finished rep) ->
  exists a collected t,
    Ground.cp_solve solver tasks n = Ok a /\
    Ground.collect fuel env (Ground.total_assigned a) 0 0%Q [] = Some (collected, t) /\
    pubs = Ground.publish_all a /\
    rep = Ground.report a collected t.
Proof.
  unfold Ground.main. destruct (Ground.cp_solve solver tasks n) as [a|e]; [|discriminate].
  destruct (Ground.collect fuel env (Ground.total_assigned a) 0 0%Q [])
    as [[collected t]|] eqn:E; [|discriminate].
  intro H. injection H as <- <-. exists a, collected, t. auto.
Qed.

Lemma sat_run_finished (solver : CpSat.CpSolver) (queue : list Result)
    (tasks : list Task) (k : nat) (sent : list (list (option (list Task))))
    (rep : Sat.Report) :
  Sat.run_groundstation solver queue tasks k = Sat.mkRun sent (Sat.Finished rep) ->
  exists a results,
    Sat.cp_solve solver tasks k = Some a /\
    Sat.collect (Sat.total_assigned a) queue [] = Some results /\
    sent = Sat.send_all k a /\
    rep = Sat.report a results.
Proof.
  unfold Sat.run_groundstation. destruct (Sat.cp_solve solver tasks k) as [a|]; [|discriminate].
  destruct (Sat.collect (Sat.total_assigned a) queue []) as [results|] eqn:E;
    [|discriminate].
  intro H. injection H as <- <-. exists a, results. auto.
Qed.

(** C8, as the code has it.  For a solver whose reported solutions are
    feasible and a channel that delivers only results the satellites produce
    for the task lists they were sent, every final summary of either
    coordinator adds up, as its achieved payoff, the payoffs of tasks that
    were dispatched, each at most as often as it was dispatched, and the
    dispatched tasks are catalog tasks, each at most as often as the catalog
    has it.  Without rounding, finite non-negative payoffs therefore satisfy
    achieved <= theoretical <= total of the catalog; the printed figures are
    floating-point sums of these payoffs. *)
Theorem payoff_monotone (solver : CpSat.CpSolver) (tasks : list Task) (num_sats : nat) :
  (forall t, In t tasks -> is_finite (payoff t) = true /\ (0 <= value (payoff t))%Q) ->
  (forall m, Ground.build_model tasks num_sats = Ok m ->
             CpSat.solver_sound_on solver Ground.parameters m) ->
  CpSat.solver_sound_on solver Sat.parameters (Sat.build_model tasks num_sats) ->
  (forall fuel env pubs rep,
     (forall a, Ground.cp_solve solver tasks num_sats = Ok a ->
        forall k item dt, env k = Ground.Got item dt -> published_by_satellite a item) ->
     Ground.main fuel solver env tasks num_sats = Ground.mkRun pubs (Ground.Finished rep) ->
     exists (a : list (list Task)) (finals : list Result),
       Ground.cp_solve solver tasks num_sats = Ok a /\
       Ground.theoretical_payoff rep = sum (map (fun s => sum (map payoff s)) a) /\
       Ground.achieved_payoff rep = sum (map payoff (counted finals)) /\
       (forall t, count_occ Task_eq_dec (counted finals) t
                  <= count_occ Task_eq_dec (concat a) t) /\
       (forall t, count_occ Task_eq_dec (concat a) t <= count_occ Task_eq_dec tasks t) /\
       (exact_sum (map payoff (counted finals)) <= exact_sum (map payoff (concat a)))%Q /\
       (exact_sum (map payoff (concat a)) <= exact_sum (map payoff tasks))%Q)
  /\
  (forall result_queue sent rep,
     (forall a, Sat.cp_solve solver tasks num_sats = Some a ->
        Forall (put_by_process num_sats a) result_queue) ->
     Sat.run_groundstation solver result_queue tasks num_sats
     = Sat.mkRun sent (Sat.Finished rep) ->
     exists (a : list (list Task)) (finals : list Result),
       Sat.cp_solve solver tasks num_sats = Some a /\
       Sat.theoretical_payoff rep = sum (map (fun s => sum (map payoff s)) a) /\
       Sat.achieved_payoff rep
       = sum (map (fun r => if success r then payoff (task r) else fzero) finals) /\
       (forall t, count_occ Task_eq_dec (counted finals) t
                  <= count_occ Task_eq_dec (concat a) t) /\
       (forall t, count_occ Task_eq_dec (concat a) t <= count_occ Task_eq_dec tasks t) /\
       (exact_sum (map payoff (counted finals)) <= exact_sum (map payoff (concat a)))%Q /\
       (exact_sum (map payoff (concat a)) <= exact_sum (map payoff tasks))%Q).
Proof.
  intros Hfin Hg Hs.
  assert (forall t, In t tasks -> 0 <= value (payoff t))%Q as Hpos
    by (intros t Ht; now apply Hfin).
  pose proof (fun a => ground_placed_at_most_once solver tasks num_sats a Hg) as Hpg.
  pose proof (fun a => sat_placed_at_most_once solver tasks num_sats a Hs) as Hps.
  split.
  - intros fuel env pubs rep Henv Hrun.
    apply ground_main_finished in Hrun.
    destruct Hrun as (a & collected & t & Ha & Hcol & _ & ->).
    specialize (Hpg a Ha).
    assert (Forall (fun r => task_name r = name (task r) /\ In (task r) (concat a))
                   collected) as Hitems.
    { apply (ground_collect_items
               (fun r => task_name r = name (task r) /\ In (task r) (concat a))
               env (Ground.total_assigned a)) in Hcol; [exact Hcol| |constructor].
      intros k item dt E. apply published_result. exact (Henv a Ha k item dt E). }
    exists a, (final_results collected (keys (Ground.summarize collected))).
    split; [exact Ha|]. split; [reflexivity|].
    split; [cbn [Ground.report Ground.achieved_payoff]; unfold counted;
            rewrite map_map; apply success_payoff_final|].
    split; [now apply counted_sub_multiset|].
    split; [exact (proj1 Hpg)|].
    split; [|now apply theoretical_le_catalog].
    unfold counted. rewrite map_map. apply achieved_le_theoretical; [|exact Hitems].
    intros x Hx. apply Hpos. now apply (placed_In tasks a).
  - intros queue sent rep Hq Hrun.
    apply sat_run_finished in Hrun.
    destruct Hrun as (a & results & Ha & Hcol & _ & ->).
    specialize (Hps a Ha).
    assert (Forall (fun r => task_name r = name (task r) /\ In (task r) (concat a))
                   results) as Hitems.
    { apply (sat_collect_items
               (fun r => task_name r = name (task r) /\ In (task r) (concat a)))
        in Hcol; [exact Hcol| |constructor].
      apply Forall_forall. intros r Hr. apply (put_result num_sats a).
      specialize (Hq a Ha). rewrite Forall_forall in Hq. now apply Hq. }
    exists a, (final_results results (keys (Ground.summarize results))).
    split; [exact Ha|]. split; [reflexivity|].
    split; [cbn [Sat.report Sat.achieved_payoff]; apply sat_success_payoff_final|].
    split; [now apply counted_sub_multiset|].
    split; [exact (proj1 Hps)|].
    split; [|now apply theoretical_le_catalog].
    unfold counted. rewrite map_map. apply achieved_le_theoretical; [|exact Hitems].
    intros x Hx. apply Hpos. now apply (placed_In tasks a).
Qed.

Lemma catalog_AB_nonneg (t : Task) :
  In t catalog_AB -> is_finite (payoff t) = true /\ (0 <= value (payoff t))%Q.
Proof. intros [<-|[<-|[]]]; (split; [reflexivity | vm_compute; discriminate]). Qed.

Lemma one_result_env_published (a : list (list Task)) :
  Ground.cp_solve Reference.solver catalog_AB 1 = Ok a ->
  forall k item dt,
    one_result_env k = Ground.Got item dt -> published_by_satellite a item.
Proof.
  intros Ha k item dt E.
  assert (a = [[task_A]]) as ->.
  { assert (Ground.cp_solve Reference.solver catalog_AB 1 = Ok [[task_A]]) as H
      by (vm_compute; reflexivity).
    rewrite H in Ha. now injection Ha. }
  destruct k as [|k]; [|discriminate]. simpl in E. injection E as <- _.
  exists 0%nat, (1 # 10)%Q, (fun _ => (1 # 2)%Q). simpl. now left.
Qed.

Lemma payoff_monotone_witness :
  exists (a : list (list Task)) (finals : list Result),
    Ground.cp_solve Reference.solver catalog_AB 1 = Ok a /\
    Ground.theoretical_payoff (Ground.report [[task_A]] [result_A_ok] (1 # 10))
    = sum (map (fun s => sum (map payoff s)) a) /\
    Ground.achieved_payoff (Ground.report [[task_A]] [result_A_ok] (1 # 10))
    = sum (map payoff (counted finals)) /\
    (forall t, count_occ Task_eq_dec (counted finals) t
               <= count_occ Task_eq_dec (concat a) t) /\
    (forall t, count_occ Task_eq_dec (concat a) t <= count_occ Task_eq_dec catalog_AB t) /\
    (exact_sum (map payoff (counted finals)) <= exact_sum (map payoff (concat a)))%Q /\
    (exact_sum (map payoff (concat a)) <= exact_sum (map payoff catalog_AB))%Q.
Proof.
  apply (proj1 (payoff_monotone Reference.solver catalog_AB 1 catalog_AB_nonneg
                  (fun m _ => reference_sound Ground.parameters m)
                  (reference_sound Sat.parameters _))
           1%nat one_result_env (Ground.publish_all [[task_A]])).
  - exact one_result_env_published.
  - vm_compute. reflexivity.
Defined.

Lemma catalog_P_model :
  Ground.build_model catalog_P 2 = Ok (Model.ground catalog_P 2 1).
Proof. vm_compute. reflexivity. Qed.

(** No feasible solution of the model for the three tasks and two satellites
    has an objective above 59: all three tasks placed, with loads 1 and 2. *)
Lemma catalog_P_bound (v : CpSat.valuation) :
  CpSat.satisfies (Model.ground catalog_P 2 1) v ->
  (CpSat.objective_value (Model.ground catalog_P 2 1) v <= 59)%Q.
Proof.
  intro Hv.
  destruct (feasible_hard_ground catalog_P 2 _ v catalog_P_model Hv) as [Hone _].
  pose proof (ground_objective_value catalog_P 2 v Hv) as Hobj.
  change (CpSat.objective_value (Model.ground catalog_P 2 1) v
          = inject_Z (code_objective catalog_P 2 (map (picked catalog_P v) (range 2))))
    in Hobj.
  rewrite Hobj. clear Hobj.
  pose proof (Hone 0%nat (Nat.lt_0_succ 2)) as H0.
  pose proof (Hone 1%nat (proj1 (Nat.succ_lt_mono 0 2) (Nat.lt_0_succ 1))) as H1.
  pose proof (Hone 2%nat (Nat.lt_succ_diag_r 2)) as H2.
  clear Hone Hv.
  unfold picked. cbn [range seq List.length catalog_P filter map] in *.
  destruct (CpSat.BooleanValue v (CpSat.Assign 0 0)),
           (CpSat.BooleanValue v (CpSat.Assign 0 1));
    cbn in H0; try lia; clear H0;
  destruct (CpSat.BooleanValue v (CpSat.Assign 1 0)),
           (CpSat.BooleanValue v (CpSat.Assign 1 1));
    cbn in H1; try lia; clear H1;
  destruct (CpSat.BooleanValue v (CpSat.Assign 2 0)),
           (CpSat.BooleanValue v (CpSat.Assign 2 1));
    cbn in H2; try lia; clear H2;
  vm_compute; discriminate.
Qed.

(** C8 fails as stated: ground.py adds the payoffs 0.1, 0.2 and 0.3 one by
    one for the achieved payoff, satellite by satellite for the theoretical
    payoff, and the two floating-point sums come out as
    0.6000000000000001 and 0.6.  The solver's solution is feasible and
    optimal, the payoffs are positive and every result is one a satellite
    publishes. *)
Lemma achieved_exceeds_theoretical :
  Ground.build_model catalog_P 2 = Ok (Model.ground catalog_P 2 1) /\
  CpSat.solver_sound_on solver_P Ground.parameters (Model.ground catalog_P 2 1) /\
  CpSat.solver_optimal_on solver_P Ground.parameters (Model.ground catalog_P 2 1) /\
  Ground.cp_solve solver_P catalog_P 2 = Ok [[task_P1]; [task_P2; task_P3]] /\
  (forall k item dt,
     env_P k = Ground.Got item dt ->
     published_by_satellite [[task_P1]; [task_P2; task_P3]] item) /\
  exists rep,
    Ground.main 3 solver_P env_P catalog_P 2
    = Ground.mkRun (Ground.publish_all [[task_P1]; [task_P2; task_P3]])
                   (Ground.Finished rep) /\
    Ground.theoretical_payoff rep = dec 6 1 /\
    SFltb (Ground.theoretical_payoff rep) (Ground.achieved_payoff rep) = true.
Proof.
  split; [exact catalog_P_model|].
  split.
  { intros _. apply satisfiesb_satisfies. vm_compute. reflexivity. }
  split.
  { intros _ v' Hv'. apply (Qle_trans _ 59); [now apply catalog_P_bound|].
    vm_compute. discriminate. }
  split; [vm_compute; reflexivity|].
  split.
  { intros k item dt E.
    destruct k as [|[|[|k]]]; cbn in E; try discriminate; injection E as <- _.
    - exists 0%nat, (1 # 10)%Q, half_draws. cbn. now left.
    - exists 1%nat, (1 # 10)%Q, half_draws. cbn. now left.
    - exists 1%nat, (1 # 10)%Q, half_draws. cbn. right. now left. }
  eexists. split; [vm_compute; reflexivity|].
  split; vm_compute; reflexivity.
Qed.

(* ================================================================== *)
(** * The lost payoff *)

Lemma keys_dict_set_fresh {V : Type} (k : string) (x : V) (d : list (string * V)) :
  ~ In k (keys d) -> keys (dict_set k x d) = keys d ++ [k].
Proof.
  unfold keys. induction d as [|[k0 x0] d IH]; intro Hnotin; [reflexivity|].
  simpl in *. destruct (String.eqb_spec k k0) as [->|Hne].
  - exfalso. apply Hnotin. now left.
  - simpl. f_equal. apply IH. intro H. apply Hnotin. now right.
Qed.

(** When every task name is reported once, the summary lists the results in
    arrival order. *)
Lemma summarize_keys_distinct (rs : list Result) :
  NoDup (map task_name rs) -> keys (Ground.summarize rs) = map task_name rs.
Proof.
  induction rs as [|r l IH] using rev_ind; intro Hnd; [reflexivity|].
  rewrite map_app in Hnd. simpl in Hnd.
  apply NoDup_remove in Hnd. rewrite app_nil_r in Hnd. destruct Hnd as [Hnd Hnotin].
  rewrite ground_summarize_snoc, keys_dict_set_fresh.
  - rewrite IH by assumption. now rewrite map_app.
  - now rewrite summarize_keys_In.
Qed.

Lemma find_unique (r : Result) (l : list Result) :
  NoDup (map task_name l) -> In r l ->
  find (fun x => String.eqb (task_name r) (task_name x)) l = Some r.
Proof.
  induction l as [|x l IH]; intros Hnd Hin; [destruct Hin|].
  simpl in Hnd. inversion Hnd as [|? ? Hnotin Hnd']; subst.
  simpl. destruct Hin as [->|Hin].
  - now rewrite String.eqb_refl.
  - destruct (String.eqb_spec (task_name r) (task_name x)) as [E|_].
    + exfalso. apply Hnotin. rewrite <- E. now apply in_map.
    + now apply IH.
Qed.

Lemma last_result_unique (rs : list Result) (r : Result) :
  NoDup (map task_name rs) -> In r rs -> last_result (task_name r) rs = Some r.
Proof.
  intros Hnd Hin. unfold last_result. apply find_unique.
  - rewrite map_rev. now apply NoDup_rev.
  - now apply in_rev in Hin.
Qed.

Lemma final_results_distinct (rs l : list Result) :
  NoDup (map task_name rs) -> incl l rs -> final_results rs (map task_name l) = l.
Proof.
  intros Hnd. induction l as [|r l IH]; intro Hincl; [reflexivity|].
  unfold final_results. simpl. fold (final_results rs (map task_name l)).
  rewrite last_result_unique by (auto; apply Hincl; now left).
  simpl. f_equal. apply IH. intros x Hx. apply Hincl. now right.
Qed.

Lemma failed_payoff_distinct (rs : list Result) :
  NoDup (map task_name rs) ->
  Ground.failed_payoff (Ground.summarize rs)
  = sum (map (fun r => payoff (task r)) (filter (fun r => negb (success r)) rs)).
Proof.
  intro Hnd. rewrite failed_payoff_final, summarize_keys_distinct by assumption.
  now rewrite final_results_distinct by (auto; apply incl_refl).
Qed.

Lemma sat_fail_payoff_distinct (rs : list Result) :
  NoDup (map task_name rs) ->
  Sat.total_fail_payoff (Sat.summarize rs)
  = sum (map (fun r => if negb (success r) then payoff (task r) else fzero) rs).
Proof.
  intro Hnd. rewrite sat_fail_payoff_final, summarize_keys_distinct by assumption.
  now rewrite final_results_distinct by (auto; apply incl_refl).
Qed.

(** C7, as the code has it.  The lost payoff of a summary is the sum of the
    payoffs of the task names whose last collected result reports failure
    (when every name is reported once: the sum over the failed results),
    sat.py adding [0.0] for every other name; it is computed from the
    collected results alone, so a dispatched task for which no result arrived
    adds nothing to it. *)
Theorem lost_payoff_is_failed_payoff (rs : list Result) :
  (forall a t,
     Ground.lost_payoff (Ground.report a rs t)
     = sum (map (fun r => payoff (task r))
                (filter (fun r => negb (success r))
                        (final_results rs (keys (Ground.summarize rs)))))) /\
  (forall a,
     Sat.lost_payoff (Sat.report a rs)
     = sum (map (fun r => if negb (success r) then payoff (task r) else fzero)
                (final_results rs (keys (Ground.summarize rs))))) /\
  (NoDup (map task_name rs) ->
   forall a t,
     Ground.lost_payoff (Ground.report a rs t)
     = sum (map (fun r => payoff (task r)) (filter (fun r => negb (success r)) rs)) /\
     Sat.lost_payoff (Sat.report a rs)
     = sum (map (fun r => if negb (success r) then payoff (task r) else fzero) rs)).
Proof.
  split; [intros a t; apply failed_payoff_final|].
  split.
  - intro a. apply sat_fail_payoff_final.
  - intros Hnd a t. split.
    + now apply failed_payoff_distinct.
    + now apply sat_fail_payoff_distinct.
Qed.

Lemma lost_payoff_is_failed_payoff_witness :
  Ground.lost_payoff (Ground.report [[task_A]; [task_B]] [result_A_ok; result_B_fail] 1)
  = sum (map (fun r => payoff (task r))
             (filter (fun r => negb (success r)) [result_A_ok; result_B_fail])).
Proof.
  apply (proj2 (proj2 (lost_payoff_is_failed_payoff [result_A_ok; result_B_fail]))).
  simpl. repeat constructor; simpl; intuition discriminate.
Defined.

(** C7 fails as stated: task [A] is dispatched, no result arrives before the
    deadline, and the summary reports a lost payoff of 0, not the 10 the
    specification counts for the missing result. *)
Lemma missing_result_not_lost :
  Ground.main 30 Reference.solver silent_env catalog_AB 1
  = Ground.mkRun [Ground.mkPublish 1 [task_A]]
      (Ground.Finished (Ground.report [[task_A]] [] 30)) /\
  Ground.lost_payoff (Ground.report [[task_A]] [] 30) = fzero /\
  spec_lost_payoff [[task_A]] [] = of_int 10 /\
  Ground.lost_payoff (Ground.report [[task_A]] [] 30) <> spec_lost_payoff [[task_A]] [].
Proof.
  split; [vm_compute; reflexivity|].
  split; [vm_compute; reflexivity|].
  split; [vm_compute; reflexivity|].
  vm_compute. discriminate.
Qed.

(* ================================================================== *)
(** * A channel that never delivers *)

Lemma Qltb_lt (a b : Q) : Qltb a b = true <-> (a < b)%Q.
Proof.
  unfold Qltb. rewrite negb_true_iff. split.
  - intro H. apply Qnot_le_lt. intro Hle. apply Qle_bool_iff in Hle. congruence.
  - intro H. destruct (Qle_bool b a) eqn:E; [|reflexivity].
    apply Qle_bool_iff in E. exfalso. now apply (Qlt_not_le a b).
Qed.

Section Silent.
Variables (env : nat -> Ground.poll) (W : Q) (expected : nat).
Hypothesis Hsilent : forall k, exists dt, env k = Ground.Empty dt /\ (1 <= dt <= W)%Q.

(** From the [n]-th wait on, with at least [n] seconds elapsed, the loop ends
    within [30 - n] further waits, with nothing collected. *)
Lemma collect_silent (fuel n : nat) (elapsed : Q) :
  (inject_Z (Z.of_nat n) <= elapsed)%Q -> (elapsed < 30 + W)%Q ->
  30 - n <= fuel ->
  exists t, Ground.collect fuel env expected n elapsed [] = Some ([], t) /\
            (t < 30 + W)%Q.
Proof.
  revert n elapsed. induction fuel as [|fuel IH]; intros n elapsed Hn Hw Hfuel.
  - simpl.
    destruct ((0 <? expected) && Qltb elapsed Ground.timeout_seconds) eqn:E.
    + exfalso. apply andb_true_iff in E. destruct E as [_ E].
      apply Qltb_lt in E. unfold Ground.timeout_seconds in E.
      assert (30 <= n) as H30 by lia.
      apply Nat2Z.inj_le in H30. rewrite Zle_Qle in H30.
      change (inject_Z (Z.of_nat 30)) with 30%Q in H30. lra.
    + now exists elapsed.
  - simpl.
    destruct ((0 <? expected) && Qltb elapsed Ground.timeout_seconds) eqn:E.
    + apply andb_true_iff in E. destruct E as [_ E].
      apply Qltb_lt in E. unfold Ground.timeout_seconds in E.
      destruct (Hsilent n) as (dt & -> & Hdt).
      apply IH.
      * rewrite Nat2Z.inj_succ. unfold Z.succ. rewrite inject_Z_plus.
        change (inject_Z 1) with 1%Q. lra.
      * lra.
      * lia.
    + now exists elapsed.
Qed.
End Silent.

Lemma sat_collect_blocks (n : nat) (acc : list Result) :
  0 < n -> Sat.collect n [] acc = None.
Proof. destruct n; [lia|reflexivity]. Qed.

(** C6, as the code has it.  When the channel never delivers a result, the
    MQTT coordinator leaves its collection loop after at most 30 timed-out
    waits, before [30 + W] seconds when no wait exceeds [W], and [main] still
    produces a summary: nothing achieved, and nothing counted as lost.  The
    multiprocessing coordinator has no deadline: with at least one task
    assigned it waits on the result queue for ever. *)
Theorem silent_channel (solver : CpSat.CpSolver) (tasks : list Task) (num_sats : nat) :
  (forall a env W,
     Ground.cp_solve solver tasks num_sats = Ok a ->
     (forall k, exists dt, env k = Ground.Empty dt /\ (1 <= dt <= W)%Q) ->
     forall fuel, 30 <= fuel ->
     exists rep,
       Ground.main fuel solver env tasks num_sats
       = Ground.mkRun (Ground.publish_all a) (Ground.Finished rep) /\
       Ground.per_task rep = [] /\
       Ground.achieved_payoff rep = fzero /\
       Ground.lost_payoff rep = fzero /\
       Ground.theoretical_payoff rep = Ground.total_payoff a /\
       (Ground.finished_at rep < 30 + W)%Q)
  /\
  (forall a,
     Sat.cp_solve solver tasks num_sats = Some a ->
     0 < Sat.total_assigned a ->
     Sat.run_groundstation solver [] tasks num_sats
     = Sat.mkRun (Sat.send_all num_sats a) Sat.Blocked).
Proof.
  split.
  - intros a env W Ha Hsilent fuel Hfuel.
    assert (1 <= W)%Q as HW.
    { destruct (Hsilent 0%nat) as (dt & _ & Hdt). lra. }
    destruct (collect_silent env W (Ground.total_assigned a) Hsilent fuel 0 0%Q)
      as (t & Hcol & Ht); [apply Qle_refl|lra|lia|].
    exists (Ground.report a [] t). unfold Ground.main. rewrite Ha, Hcol.
    repeat split. exact Ht.
  - intros a Ha Hpos. unfold Sat.run_groundstation.
    rewrite Ha, sat_collect_blocks by assumption. reflexivity.
Qed.

Lemma silent_env_is_silent (k : nat) :
  exists dt, silent_env k = Ground.Empty dt /\ (1 <= dt <= 1)%Q.
Proof. exists 1%Q. split; [reflexivity|lra]. Qed.

Lemma silent_channel_witness :
  exists rep,
    Ground.main 30 Reference.solver silent_env catalog_AB 1
    = Ground.mkRun (Ground.publish_all [[task_A]]) (Ground.Finished rep) /\
    Ground.per_task rep = [] /\
    Ground.achieved_payoff rep = fzero /\
    Ground.lost_payoff rep = fzero /\
    Ground.theoretical_payoff rep = Ground.total_payoff [[task_A]] /\
    (Ground.finished_at rep < 30 + 1)%Q.
Proof.
  apply (proj1 (silent_channel Reference.solver catalog_AB 1) [[task_A]] silent_env 1%Q).
  - vm_compute. reflexivity.
  - exact silent_env_is_silent.
  - apply le_n.
Defined.

(** C6 fails as stated: with task [A] dispatched and a channel that never
    delivers, the MQTT summary shows a lost payoff of 0 although the full
    theoretical payoff is 10, and the multiprocessing coordinator never
    produces a summary. *)
Lemma silent_channel_no_full_loss :
  Ground.main 30 Reference.solver silent_env catalog_AB 1
  = Ground.mkRun [Ground.mkPublish 1 [task_A]]
      (Ground.Finished (Ground.report [[task_A]] [] 30)) /\
  Ground.theoretical_payoff (Ground.report [[task_A]] [] 30) = of_int 10 /\
  Ground.lost_payoff (Ground.report [[task_A]] [] 30) = fzero /\
  Ground.lost_payoff (Ground.report [[task_A]] [] 30)
  <> Ground.theoretical_payoff (Ground.report [[task_A]] [] 30) /\
  Sat.run_groundstation Reference.solver [] catalog_AB 1
  = Sat.mkRun [[Some [task_A]; None]] Sat.Blocked.
Proof.
  split; [vm_compute; reflexivity|].
  split; [vm_compute; reflexivity|].
  split; [vm_compute; reflexivity|].
  split; [vm_compute; discriminate|].
  vm_compute. reflexivity.
Qed.

(* ================================================================== *)
(** * The objective of sat.py *)

Lemma filter_none {A : Type} (p : A -> bool) (l : list A) :
  (forall a, In a l -> p a = false) -> filter p l = [].
Proof.
  induction l as [|a l IH]; intro H; [reflexivity|].
  simpl. rewrite (H a) by now left. apply IH. intros x Hx. apply H. now right.
Qed.

Lemma picked_unassigned (tasks : list Task) (s : nat) : picked tasks unassigned s = [].
Proof. unfold picked. now rewrite filter_none. Qed.

Lemma map_const_repeat {A B : Type} (b : B) (l : list A) :
  map (fun _ => b) l = repeat b (List.length l).
Proof. induction l as [|a l IH]; [reflexivity|]. simpl. now rewrite IH. Qed.

Lemma unassigned_hard_feasible (tasks : list Task) (n : nat) :
  hard_feasible tasks n unassigned.
Proof.
  repeat split; try (unfold unassigned; lia).
  - intros i Hi. rewrite filter_none; [simpl; lia|reflexivity].
  - intros s r Hs. rewrite filter_none; [simpl; lia|].
    intros i _. apply andb_false_r.
Qed.

(** Decision values obeying the hard constraints satisfy sat.py's model. *)
Lemma hard_feasible_satisfies_sat (tasks : list Task) (n : nat) (v : CpSat.valuation) :
  hard_feasible tasks n v -> CpSat.satisfies (Sat.build_model tasks n) v.
Proof.
  intros (Hb & Hone & Hnc). rewrite sat_build_model.
  unfold Model.sat, CpSat.satisfies. cbn [CpSat.variables CpSat.constraints]. split.
  - apply Forall_forall. intros d Hd. unfold Model.assign_decls in Hd.
    apply in_flat_map in Hd. destruct Hd as (i & Hi & Hd).
    apply in_map_iff in Hd. destruct Hd as (s & <- & Hs).
    apply range_In in Hi. apply range_In in Hs. now apply Hb.
  - rewrite Forall_app. split.
    + apply Forall_forall. intros c Hc. unfold Model.task_cs in Hc.
      apply in_map_iff in Hc. destruct Hc as (i & <- & Hi). apply range_In in Hi.
      cbn [CpSat.holds].
      rewrite (eval_esum_vars v (fun s => CpSat.Assign i s)), eval_econst.
      rewrite sum_counts
        by (intros s Hs; apply range_In in Hs; now apply Hb).
      specialize (Hone i Hi). lia.
    + apply Forall_forall. intros c Hc. unfold Model.exclusivity_cs in Hc.
      apply in_flat_map in Hc. destruct Hc as (s & Hs & Hc). apply range_In in Hs.
      apply in_flat_map in Hc. destruct Hc as (r & Hr & Hc).
      assert (c = CpSat.Le (CpSat.esum (Model.conflict_vars tasks s r)) (CpSat.econst 1))
        as ->.
      { destruct (Model.conflict_vars tasks s r); [destruct Hc|].
        destruct Hc as [<-|[]]. reflexivity. }
      cbn [CpSat.holds]. unfold Model.conflict_vars.
      rewrite (eval_esum_vars v (fun i => CpSat.Assign i s)), eval_econst.
      rewrite sum_counts.
      * rewrite filter_filter. specialize (Hnc s r Hs). lia.
      * intros i Hi. apply filter_In in Hi. destruct Hi as [Hi _].
        apply range_In in Hi. now apply Hb.
Qed.

(** The value of sat.py's objective at a feasible solution: the payoff of the
    tasks the solution assigns, without rounding. *)
Lemma sat_objective_value (tasks : list Task) (n : nat) (v : CpSat.valuation) :
  CpSat.satisfies (Sat.build_model tasks n) v ->
  (CpSat.objective_value (Sat.build_model tasks n) v
   == exact_payoff (Sat.read_assignment tasks n v))%Q.
Proof.
  intro Hv. rewrite sat_read_assignment_eq.
  assert (forall i s, In i (range (List.length tasks)) -> In s (range n) ->
                      (0 <= v (CpSat.Assign i s) <= 1)%Z) as Hbool.
  { intros i s Hi Hs. apply range_In in Hi. apply range_In in Hs.
    destruct (sat_model_hard tasks n) as [Hvars _].
    now apply (assign_is_bool tasks n (Sat.build_model tasks n) v Hvars Hv). }
  rewrite sat_build_model. unfold CpSat.objective_value, Model.sat. cbn [CpSat.objective].
  rewrite eval_float_sum. unfold Model.float_terms. rewrite sumQ_flat_map.
  unfold exact_payoff. rewrite map_map.
  rewrite (sumQ_ext _ (fun i => sumQ (map (fun s => value (payoff (task_at tasks i))
                                                   * inject_Z (v (CpSat.Assign i s)))
                                          (range n)))%Q)
    by (intros i _; now rewrite map_map).
  rewrite (sumQ_swap (fun i s => value (payoff (task_at tasks i))
                                 * inject_Z (v (CpSat.Assign i s)))%Q).
  apply sumQ_ext. intros s Hs.
  rewrite (sumQ_selected v (fun i => CpSat.Assign i s)
             (fun i => value (payoff (task_at tasks i))))
    by (intros i Hi; now apply Hbool).
  unfold picked. rewrite exact_sum_map, !map_map. reflexivity.
Qed.

(** ** The average load of an evenly divided catalog *)





Lemma catalog_AB_convertible : Forall convertible catalog_AB.
Proof. repeat constructor; vm_compute; reflexivity. Qed.

Lemma catalog_AB_model :
  Ground.build_model catalog_AB 1 = Ok (Model.ground catalog_AB 1 2).
Proof. exact (ground_build_model catalog_AB 1 (Nat.lt_0_succ 0) catalog_AB_convertible). Qed.

Lemma place_B_hard_feasible : hard_feasible catalog_AB 1 place_B.
Proof.
  repeat split.
  - destruct i as [|[|i]], s as [|s]; simpl; lia.
  - destruct i as [|[|i]], s as [|s]; simpl; lia.
  - intros i Hi. destruct i as [|[|i]]; simpl in *; lia.
  - intros s r Hs. destruct s as [|s]; [|lia].
    unfold catalog_AB. cbn. destruct (r =? 1)%Z; cbn; lia.
Qed.








(* ================================================================== *)
(** * The optimizer: failure and success *)

Lemma ground_feasible_hard (tasks : list Task) (n : nat) (m : CpSat.CpModel)
    (v : CpSat.valuation) :
  Ground.build_model tasks n = Ok m -> CpSat.satisfies m v -> hard_feasible tasks n v.
Proof.
  intros Hm Hv. destruct (feasible_hard_ground tasks n m v Hm Hv) as [H1 H2].
  destruct (ground_model_hard tasks n m Hm) as [Hvars _].
  split; [|now split].
  intros i s Hi Hs. now apply (assign_is_bool tasks n m v Hvars Hv).
Qed.

Lemma sat_feasible_hard (tasks : list Task) (n : nat) (v : CpSat.valuation) :
  CpSat.satisfies (Sat.build_model tasks n) v -> hard_feasible tasks n v.
Proof.
  intros Hv. destruct (feasible_hard_sat tasks n v Hv) as [H1 H2].
  destruct (sat_model_hard tasks n) as [Hvars _].
  split; [|now split].
  intros i s Hi Hs. now apply (assign_is_bool tasks n _ v Hvars Hv).
Qed.

(** C4, as the code has it.  If the solver ends without a solution (status
    neither [OPTIMAL] nor [FEASIBLE]), ground.py's [cp_solve] raises the "No
    feasible assignment found" error and [main] ends with it before
    publishing anything; sat.py's [cp_solve] raises nothing and returns
    [None], and [run_groundstation] has put nothing on any task queue when it
    ends.  If the solver ends with a solution, [cp_solve] returns the
    assignment that solution describes: sequence [s] lists the tasks whose
    variable for [s] is set, the solution obeys the two hard constraints, and
    when its status is [OPTIMAL] no decision values obeying them have a
    larger objective (the sum of [int(payoff * 100)] less the balance penalty
    in ground.py, the payoff in sat.py). *)
Theorem cp_solve_outcome (solver : CpSat.CpSolver) (tasks : list Task) (num_sats : nat)
    (m : CpSat.CpModel) :
  Ground.build_model tasks num_sats = Ok m ->
  CpSat.solver_sound_on solver Ground.parameters m ->
  CpSat.solver_optimal_on solver Ground.parameters m ->
  CpSat.solver_sound_on solver Sat.parameters (Sat.build_model tasks num_sats) ->
  CpSat.solver_optimal_on solver Sat.parameters (Sat.build_model tasks num_sats) ->
  (CpSat.has_solution (fst (CpSat.Solve solver Ground.parameters m)) = false ->
     Ground.cp_solve solver tasks num_sats = Raise Infeasible /\
     forall fuel env,
       Ground.main fuel solver env tasks num_sats = Ground.mkRun [] (Ground.Failed Infeasible))
  /\
  (CpSat.has_solution
     (fst (CpSat.Solve solver Sat.parameters (Sat.build_model tasks num_sats))) = false ->
     Sat.cp_solve solver tasks num_sats = None /\
     forall result_queue,
       Sat.task_queues (Sat.run_groundstation solver result_queue tasks num_sats)
       = repeat [] num_sats)
  /\
  (CpSat.has_solution (fst (CpSat.Solve solver Ground.parameters m)) = true ->
     Ground.cp_solve solver tasks num_sats
     = Ok (map (picked tasks (snd (CpSat.Solve solver Ground.parameters m)))
               (range num_sats)) /\
     hard_feasible tasks num_sats (snd (CpSat.Solve solver Ground.parameters m)) /\
     (fst (CpSat.Solve solver Ground.parameters m) = CpSat.OPTIMAL ->
      forall v', hard_feasible tasks num_sats v' ->
        (code_objective tasks num_sats (map (picked tasks v') (range num_sats))
         <= code_objective tasks num_sats
              (map (picked tasks (snd (CpSat.Solve solver Ground.parameters m)))
                   (range num_sats)))%Z))
  /\
  (CpSat.has_solution
     (fst (CpSat.Solve solver Sat.parameters (Sat.build_model tasks num_sats))) = true ->
     Sat.cp_solve solver tasks num_sats
     = Some (map (picked tasks
                    (snd (CpSat.Solve solver Sat.parameters (Sat.build_model tasks num_sats))))
                 (range num_sats)) /\
     hard_feasible tasks num_sats
       (snd (CpSat.Solve solver Sat.parameters (Sat.build_model tasks num_sats))) /\
     (fst (CpSat.Solve solver Sat.parameters (Sat.build_model tasks num_sats)) = CpSat.OPTIMAL ->
      forall v', hard_feasible tasks num_sats v' ->
        (exact_payoff (map (picked tasks v') (range num_sats))
         <= exact_payoff
              (map (picked tasks
                      (snd (CpSat.Solve solver Sat.parameters
                              (Sat.build_model tasks num_sats))))
                   (range num_sats)))%Q)).
Proof.
  intros Hm Hgs Hgo Hss Hso.
  assert (forall b, CpSat.has_solution (fst (CpSat.Solve solver Ground.parameters m)) = b ->
            Ground.cp_solve solver tasks num_sats
            = if negb b then Raise Infeasible
              else Ok (Ground.read_assignment tasks num_sats
                         (snd (CpSat.Solve solver Ground.parameters m)))) as Hg.
  { intros b Hb. unfold Ground.cp_solve. rewrite Hm. simpl.
    destruct (CpSat.Solve solver Ground.parameters m) as [status v].
    simpl in *. now rewrite Hb. }
  assert (forall b,
            CpSat.has_solution
              (fst (CpSat.Solve solver Sat.parameters (Sat.build_model tasks num_sats))) = b ->
            Sat.cp_solve solver tasks num_sats
            = if negb b then None
              else Some (Sat.read_assignment tasks num_sats
                           (snd (CpSat.Solve solver Sat.parameters
                                   (Sat.build_model tasks num_sats))))) as Hs.
  { intros b Hb. unfold Sat.cp_solve.
    destruct (CpSat.Solve solver Sat.parameters (Sat.build_model tasks num_sats))
      as [status v].
    simpl in *. now rewrite Hb. }
  split; [|split; [|split]].
  - intro Hno. split; [now apply (Hg false)|].
    intros fuel env. unfold Ground.main. now rewrite (Hg false).
  - intro Hno. split; [now apply (Hs false)|].
    intro rq. unfold Sat.run_groundstation. now rewrite (Hs false).
  - intro Hyes. pose proof (Hgs Hyes) as Hsat.
    split; [rewrite (Hg true Hyes); cbn [negb]; now rewrite ground_read_assignment_eq|].
    split; [exact (ground_feasible_hard tasks num_sats m _ Hm Hsat)|].
    intros Hstatus v' Hhard.
    pose proof Hm as Hm'. apply ground_build_model_inv in Hm'.
    destruct Hm' as (Hn & _ & ->).
    pose proof (complete_satisfies tasks num_sats v' Hn Hhard) as Hw.
    pose proof (Hgo Hstatus _ Hw) as Hle.
    rewrite !ground_objective_value in Hle by assumption.
    rewrite <- Zle_Qle in Hle.
    erewrite (map_ext (picked tasks (complete tasks num_sats v'))) in Hle
      by (intro s; apply complete_picked).
    exact Hle.
  - intro Hyes. pose proof (Hss Hyes) as Hsat.
    split; [rewrite (Hs true Hyes); cbn [negb]; now rewrite sat_read_assignment_eq|].
    split; [exact (sat_feasible_hard tasks num_sats _ Hsat)|].
    intros Hstatus v' Hhard.
    pose proof (hard_feasible_satisfies_sat tasks num_sats v' Hhard) as Hw.
    pose proof (Hso Hstatus _ Hw) as Hle.
    rewrite !sat_objective_value, !sat_read_assignment_eq in Hle by assumption.
    exact Hle.
Qed.

Lemma cp_solve_outcome_witness :
  Ground.cp_solve Reference.solver catalog_AB 1 = Ok [[task_A]] /\
  hard_feasible catalog_AB 1
    (snd (CpSat.Solve Reference.solver Ground.parameters (Model.ground catalog_AB 1 2))) /\
  (code_objective catalog_AB 1 [[task_B]] <= code_objective catalog_AB 1 [[task_A]])%Z.
Proof.
  destruct (proj1 (proj2 (proj2
              (cp_solve_outcome Reference.solver catalog_AB 1 _ catalog_AB_model
                 (reference_sound _ _) (reference_optimal _ _)
                 (reference_sound _ _) (reference_optimal _ _)))) eq_refl)
    as (Hret & Hhard & Hbest).
  split; [exact Hret|]. split; [exact Hhard|].
  exact (Hbest eq_refl place_B place_B_hard_feasible).
Defined.

(** C4 fails as stated: when the solver runs out of time without a solution,
    sat.py's [cp_solve] returns [None] where ground.py's raises, and
    [run_groundstation] does not end with the "No feasible assignment found"
    error. *)
Lemma cp_solve_returns_none :
  CpSat.has_solution
    (fst (CpSat.Solve timed_out_solver Sat.parameters (Sat.build_model catalog_AB 1)))
  = false /\
  Ground.cp_solve timed_out_solver catalog_AB 1 = Raise Infeasible /\
  Sat.cp_solve timed_out_solver catalog_AB 1 = None /\
  Sat.result (Sat.run_groundstation timed_out_solver [] catalog_AB 1)
  <> Sat.Failed Infeasible.
Proof.
  split; [reflexivity|]. split; [vm_compute; reflexivity|].
  split; [reflexivity|]. vm_compute. discriminate.
Qed.

(* ================================================================== *)
(** * The model always has a solution *)

(** X1.  Whatever the catalog, the constraints of the model either
    [cp_solve] builds can be met: the decision values that assign nothing
    satisfy them, and they read back as [num_sats] empty sequences. *)
Theorem cp_solve_model_satisfiable (tasks : list Task) (num_sats : nat) :
  (forall m, Ground.build_model tasks num_sats = Ok m ->
     exists v, CpSat.satisfies m v /\
               Ground.read_assignment tasks num_sats v = repeat [] num_sats) /\
  (exists v, CpSat.satisfies (Sat.build_model tasks num_sats) v /\
             Sat.read_assignment tasks num_sats v = repeat [] num_sats).
Proof.
  assert (map (picked tasks unassigned) (range num_sats) = repeat [] num_sats) as Hnone.
  { erewrite map_ext; [|apply picked_unassigned].
    rewrite map_const_repeat. unfold range. now rewrite length_seq. }
  split.
  - intros m Hm.
    apply ground_build_model_inv in Hm. destruct Hm as (Hn & _ & ->).
    exists (complete tasks num_sats unassigned). split.
    + apply complete_satisfies; [assumption|apply unassigned_hard_feasible].
    + rewrite ground_read_assignment_eq. exact Hnone.
  - exists unassigned. split.
    + apply hard_feasible_satisfies_sat, unassigned_hard_feasible.
    + rewrite sat_read_assignment_eq. exact Hnone.
Qed.

Lemma cp_solve_model_satisfiable_witness :
  exists v, CpSat.satisfies (Model.ground catalog_AB 1 2) v /\
            Ground.read_assignment catalog_AB 1 v = repeat [] 1.
Proof.
  apply (proj1 (cp_solve_model_satisfiable catalog_AB 1)).
  exact catalog_AB_model.
Defined.

(* ================================================================== *)
(** * Size and order of the assignment *)

Lemma sub_multiset_length (l m : list Task) :
  (forall t, count_occ Task_eq_dec l t <= count_occ Task_eq_dec m t) ->
  List.length l <= List.length m.
Proof.
  revert m. induction l as [|x l IH]; intros m Hsub; [simpl; lia|].
  assert (In x m) as Hx.
  { apply (count_occ_In Task_eq_dec). specialize (Hsub x).
    rewrite count_occ_cons_eq in Hsub by reflexivity. lia. }
  apply in_split in Hx. destruct Hx as (m1 & m2 & ->).
  rewrite length_app. simpl.
  assert (List.length l <= List.length (m1 ++ m2)) as Hle.
  { apply IH. intro t. specialize (Hsub t). rewrite count_occ_app in *.
    simpl in Hsub. destruct (Task_eq_dec x t); lia. }
  rewrite length_app in Hle. lia.
Qed.

Lemma placed_total_assigned (tasks : list Task) (a : list (list Task)) :
  placed_at_most_once tasks a -> Ground.total_assigned a <= List.length tasks.
Proof.
  intros [Hcount _]. unfold Ground.total_assigned. rewrite <- length_concat.
  now apply sub_multiset_length.
Qed.

(** X2.  The number of results the coordinator waits for never exceeds the
    size of the catalog: a feasible solution assigns at most [TASK_COUNT]
    tasks in total. *)
Theorem expected_at_most_catalog (solver : CpSat.CpSolver) (tasks : list Task)
    (num_sats : nat) :
  (forall m, Ground.build_model tasks num_sats = Ok m ->
             CpSat.solver_sound_on solver Ground.parameters m) ->
  CpSat.solver_sound_on solver Sat.parameters (Sat.build_model tasks num_sats) ->
  (forall a, Ground.cp_solve solver tasks num_sats = Ok a ->
             Ground.total_assigned a <= List.length tasks) /\
  (forall a, Sat.cp_solve solver tasks num_sats = Some a ->
             Sat.total_assigned a <= List.length tasks).
Proof.
  intros Hg Hs. split; intros a Ha; apply placed_total_assigned.
  - now apply (ground_placed_at_most_once solver tasks num_sats).
  - now apply (sat_placed_at_most_once solver tasks num_sats).
Qed.

Lemma expected_at_most_catalog_witness :
  Ground.total_assigned [[task_A]] <= List.length catalog_AB.
Proof.
  apply (proj1 (expected_at_most_catalog Reference.solver catalog_AB 1
                  (fun m _ => reference_sound Ground.parameters m)
                  (reference_sound Sat.parameters _))).
  vm_compute. reflexivity.
Defined.

(** X3.  The two variants read the same assignment off a solution, although
    one loops over satellites first and the other over tasks first; sequence
    [s] lists, in catalog order, the tasks whose variable for [s] is set. *)
Theorem read_assignment_agree (tasks : list Task) (num_sats : nat) (v : CpSat.valuation) :
  Ground.read_assignment tasks num_sats v = Sat.read_assignment tasks num_sats v /\
  forall s, s < num_sats ->
    nth s (Sat.read_assignment tasks num_sats v) []
    = map (task_at tasks)
          (filter (fun i => CpSat.BooleanValue v (CpSat.Assign i s))
                  (range (List.length tasks))).
Proof.
  rewrite ground_read_assignment_eq, sat_read_assignment_eq. split; [reflexivity|].
  intros s Hs. rewrite picked_nth.
  destruct (Nat.ltb_spec s num_sats); [reflexivity|lia].
Qed.

Lemma read_assignment_agree_witness :
  nth 0 (Sat.read_assignment catalog_AB 1 place_B) []
  = map (task_at catalog_AB)
        (filter (fun i => CpSat.BooleanValue place_B (CpSat.Assign i 0))
                (range (List.length catalog_AB))).
Proof.
  apply (proj2 (read_assignment_agree catalog_AB 1 place_B)). apply le_n.
Defined.

(* ================================================================== *)
(** * Dispatch *)

Lemma combine_seq_snd {A : Type} (l : list A) (a : nat) :
  map snd (combine (seq a (List.length l)) l) = l.
Proof.
  revert a. induction l as [|x l IH]; intro a; [reflexivity|].
  simpl. now rewrite IH.
Qed.

Lemma combine_seq_fst {A : Type} (l : list A) (a : nat) :
  map fst (combine (seq a (List.length l)) l) = seq a (List.length l).
Proof.
  revert a. induction l as [|x l IH]; intro a; [reflexivity|].
  simpl. now rewrite IH.
Qed.

Lemma map_nth_range {A B : Type} (f : A -> B) (d : A) (l : list A) :
  map (fun i => f (nth i l d)) (range (List.length l)) = map f l.
Proof.
  unfold range. induction l as [|x l IH]; [reflexivity|].
  simpl. f_equal. rewrite <- seq_shift, map_map. exact IH.
Qed.

(** X4.  Dispatch hands every satellite exactly its own sequence: ground.py
    publishes one message per sequence, to satellite ids 1..N in order, and
    sat.py puts sequence [i] followed by the shutdown sentinel on queue [i]. *)
Theorem dispatch_matches_assignment (assignment : list (list Task)) :
  map Ground.payload (Ground.publish_all assignment) = assignment /\
  map Ground.topic_sat_id (Ground.publish_all assignment)
  = seq 1 (List.length assignment) /\
  Sat.send_all (List.length assignment) assignment
  = map (fun l => [Some l; None]) assignment.
Proof.
  unfold Ground.publish_all, range. repeat split.
  - rewrite map_map. simpl. apply combine_seq_snd.
  - rewrite map_map. simpl.
    rewrite <- (map_map fst (fun i => i + 1)), combine_seq_fst, <- seq_shift.
    apply map_ext. intro i. lia.
  - unfold Sat.send_all. apply (map_nth_range (fun l => [Some l; None])).
Qed.

(* ================================================================== *)
(** * Executing tasks *)

Lemma execute_tasks (id : nat) (fp : Q) (rnd : nat -> Q) (n : nat) (payload : list Task) :
  map task (Satellite.execute id fp rnd n payload) = payload /\
  map task_name (Satellite.execute id fp rnd n payload) = map name payload /\
  Forall (fun r => sat_id r = id) (Satellite.execute id fp rnd n payload).
Proof.
  revert n. induction payload as [|t payload IH]; intro n; simpl.
  - repeat split. constructor.
  - destruct (IH (S n)) as (H1 & H2 & H3). rewrite H1, H2.
    repeat split. constructor; [reflexivity|assumption].
Qed.

Lemma execute_draws (id : nat) (fp : Q) (rnd : nat -> Q) (n : nat) (payload : list Task)
    (i : nat) (r : Result) :
  nth_error (Satellite.execute id fp rnd n payload) i = Some r ->
  success r = Qle_bool fp (rnd (n + i)).
Proof.
  revert n i. induction payload as [|t payload IH]; intros n i H.
  - destruct i; discriminate.
  - destruct i as [|i]; simpl in H.
    + injection H as <-. simpl. now rewrite Nat.add_0_r.
    + apply IH in H. rewrite H. f_equal. f_equal. lia.
Qed.

(** X5.  A satellite publishes exactly one result per task of the list it
    received, in the order of the list; each result carries the original
    task, its name and the satellite's id, and the [i]-th result succeeds
    exactly when the [i]-th random draw is at least [FAILURE_PROB]. *)
Theorem on_message_one_result_per_task (SAT_ID : nat) (FAILURE_PROB : Q) (rnd : nat -> Q)
    (payload : list Task) :
  map task (Satellite.on_message SAT_ID FAILURE_PROB rnd payload) = payload /\
  map task_name (Satellite.on_message SAT_ID FAILURE_PROB rnd payload) = map name payload /\
  Forall (fun r => sat_id r = SAT_ID) (Satellite.on_message SAT_ID FAILURE_PROB rnd payload) /\
  forall i r,
    nth_error (Satellite.on_message SAT_ID FAILURE_PROB rnd payload) i = Some r ->
    success r = Qle_bool FAILURE_PROB (rnd i).
Proof.
  unfold Satellite.on_message.
  destruct (execute_tasks SAT_ID FAILURE_PROB rnd 0 payload) as (H1 & H2 & H3).
  repeat split; try assumption.
  intros i r H. now apply execute_draws in H.
Qed.

(** X6.  With draws in [0, 1), as [random.random()] gives them, a failure
    probability of 0 or less makes every task succeed and one of 1 or more
    makes every task fail. *)
Theorem failure_prob_extremes (SAT_ID : nat) (FAILURE_PROB : Q) (rnd : nat -> Q)
    (payload : list Task) :
  (forall n, 0 <= rnd n < 1)%Q ->
  ((FAILURE_PROB <= 0)%Q ->
   Forall (fun r => success r = true)
          (Satellite.on_message SAT_ID FAILURE_PROB rnd payload)) /\
  ((1 <= FAILURE_PROB)%Q ->
   Forall (fun r => success r = false)
          (Satellite.on_message SAT_ID FAILURE_PROB rnd payload)).
Proof.
  intro Hrnd. unfold Satellite.on_message.
  split; intro Hfp; apply Forall_forall; intros r Hr;
    apply In_nth_error in Hr; destruct Hr as [i Hi];
    apply execute_draws in Hi; simpl in Hi;
    rewrite Hi; destruct (Hrnd i) as [Hlo Hhi].
  - apply Qle_bool_iff. lra.
  - destruct (Qle_bool FAILURE_PROB (rnd i)) eqn:E; [|reflexivity].
    apply Qle_bool_iff in E. lra.
Qed.

Lemma half_draws_in_range (n : nat) : (0 <= half_draws n < 1)%Q.
Proof. unfold half_draws. split; [unfold Qle|unfold Qlt]; simpl; lia. Qed.

Lemma failure_prob_extremes_witness :
  Forall (fun r => success r = true) (Satellite.on_message 1 0 half_draws catalog_AB).
Proof.
  apply (proj1 (failure_prob_extremes 1 0 half_draws catalog_AB half_draws_in_range)).
  apply Qle_refl.
Defined.

Lemma sat_execute_eq (id : nat) (fp : Q) (rnd : nat -> Q) (n : nat) (item : list Task) :
  Sat.execute id fp rnd n item = Satellite.execute id fp rnd n item.
Proof. revert n. induction item as [|t item IH]; intro n; simpl; [|rewrite IH]; reflexivity. Qed.

Lemma satellite_process_lists (id : nat) (fp : Q) (rnd : nat -> Q)
    (lists : list (list Task)) (rest : list (option (list Task))) (n : nat) :
  map task (Sat.satellite_process id fp rnd n (map Some lists ++ None :: rest))
  = concat lists /\
  Sat.satellite_process id fp rnd n (map Some lists ++ None :: rest)
  = Sat.satellite_process id fp rnd n (map Some lists ++ [None]).
Proof.
  revert n. induction lists as [|l lists IH]; intro n; simpl.
  - split; reflexivity.
  - destruct (IH (n + List.length l)) as [H1 H2]. split.
    + rewrite map_app, H1, sat_execute_eq.
      now rewrite (proj1 (execute_tasks id fp rnd n l)).
    + now rewrite H2.
Qed.

(** X7.  A satellite process executes the task lists it receives in order,
    one result per task, until the shutdown sentinel; whatever is queued
    behind the sentinel is never executed. *)
Theorem satellite_process_until_sentinel (sat_id : nat) (failure_prob : Q)
    (rnd : nat -> Q) (lists : list (list Task)) (rest : list (option (list Task))) :
  map task (Sat.satellite_process sat_id failure_prob rnd 0
              (map Some lists ++ None :: rest))
  = concat lists /\
  Sat.satellite_process sat_id failure_prob rnd 0 (map Some lists ++ None :: rest)
  = Sat.satellite_process sat_id failure_prob rnd 0 (map Some lists ++ [None]).
Proof. apply satellite_process_lists. Qed.

(* ================================================================== *)
(** * Collecting results *)

Lemma sat_collect_firstn (n : nat) (queue acc : list Result) :
  Sat.collect n queue acc
  = if n <=? List.length queue then Some (acc ++ firstn n queue) else None.
Proof.
  revert queue acc. induction n as [|n IH]; intros queue acc; simpl.
  - now rewrite app_nil_r.
  - destruct queue as [|r queue]; [reflexivity|].
    rewrite IH. simpl. destruct (n <=? List.length queue); [|reflexivity].
    now rewrite <- app_assoc.
Qed.

(** X8.  sat.py's collection takes exactly the first [expected] results off
    the queue, in arrival order, leaving later ones untouched, and it blocks
    for ever exactly when fewer than [expected] results arrive. *)
Theorem sat_collect_exactly_expected (expected : nat) (result_queue : list Result) :
  Sat.collect expected result_queue []
  = if expected <=? List.length result_queue
    then Some (firstn expected result_queue) else None.
Proof. apply sat_collect_firstn. Qed.

Lemma delivered_app (env : nat -> Ground.poll) (n k k' : nat) :
  delivered env n (k + k') = delivered env n k ++ delivered env (n + k) k'.
Proof.
  revert n. induction k as [|k IH]; intro n; simpl.
  - now rewrite Nat.add_0_r.
  - rewrite IH. replace (S n + k) with (n + S k) by lia.
    destruct (env n); reflexivity.
Qed.

Lemma ground_collect_invariant (env : nat -> Ground.poll) (expected : nat) :
  forall fuel n elapsed acc out t,
    List.length acc <= expected ->
    Ground.collect fuel env expected n elapsed acc = Some (out, t) ->
    List.length out <= expected /\
    (List.length out = expected \/ (30 <= t)%Q) /\
    exists k, k <= fuel /\ out = acc ++ delivered env n k.
Proof.
  induction fuel as [|fuel IH]; intros n elapsed acc out t Hacc H; simpl in H.
  - destruct ((List.length acc <? expected) && Qltb elapsed Ground.timeout_seconds) eqn:E;
      [discriminate|]. injection H as <- <-.
    apply andb_false_iff in E. repeat split; [assumption| |].
    + destruct E as [E|E].
      * apply Nat.ltb_ge in E. left. lia.
      * right. apply Qnot_lt_le. intro Hlt. apply Qltb_lt in Hlt.
        unfold Ground.timeout_seconds in E. congruence.
    + exists 0. split; [lia|]. simpl. now rewrite app_nil_r.
  - destruct ((List.length acc <? expected) && Qltb elapsed Ground.timeout_seconds) eqn:E.
    + apply andb_true_iff in E. destruct E as [E _]. apply Nat.ltb_lt in E.
      destruct (env n) as [item w|w] eqn:En.
      * apply IH in H; [|rewrite length_app; simpl; lia].
        destruct H as (H1 & H2 & k & Hk & ->). repeat split; try assumption.
        exists (S k). split; [lia|]. simpl. rewrite En. now rewrite <- app_assoc.
      * apply IH in H; [|assumption].
        destruct H as (H1 & H2 & k & Hk & ->). repeat split; try assumption.
        exists (S k). split; [lia|]. simpl. now rewrite En.
    + injection H as <- <-.
      apply andb_false_iff in E. repeat split; [assumption| |].
      * destruct E as [E|E].
        -- apply Nat.ltb_ge in E. left. lia.
        -- right. apply Qnot_lt_le. intro Hlt. apply Qltb_lt in Hlt.
           unfold Ground.timeout_seconds in E. congruence.
      * exists 0. split; [lia|]. simpl. now rewrite app_nil_r.
Qed.

(** X9.  ground.py's collection never keeps more than [expected] results; it
    stops only once [expected] results are in or the 30 seconds have passed;
    and what it keeps is exactly what the channel delivered during its calls
    of [get], in arrival order. *)
Theorem ground_collect_stops (fuel : nat) (env : nat -> Ground.poll) (expected : nat)
    (out : list Result) (t : Q) :
  Ground.collect fuel env expected 0 0%Q [] = Some (out, t) ->
  List.length out <= expected /\
  (List.length out = expected \/ (30 <= t)%Q) /\
  exists k, k <= fuel /\ out = delivered env 0 k.
Proof.
  intro H. apply ground_collect_invariant in H; [exact H|simpl; lia].
Qed.

Lemma ground_collect_stops_witness :
  List.length [result_A_ok] <= 1 /\
  (List.length [result_A_ok] = 1 \/ (30 <= 1 # 10)%Q) /\
  exists k, k <= 5 /\ [result_A_ok] = delivered one_result_env 0 k.
Proof.
  apply (ground_collect_stops 5 one_result_env 1 [result_A_ok] (1 # 10)).
  vm_compute. reflexivity.
Defined.

Lemma delivered_got_length (env : nat -> Ground.poll) (n d : nat) :
  (forall k, n <= k < n + d -> exists item w, env k = Ground.Got item w) ->
  List.length (delivered env n d) = d.
Proof.
  revert n. induction d as [|d IH]; intros n H; [reflexivity|].
  simpl. destruct (H n) as (item & w & ->); [lia|].
  simpl. f_equal. apply IH. intros k Hk. apply H. lia.
Qed.

Section InTime.
Variables (env : nat -> Ground.poll) (W : Q) (expected : nat).
Hypothesis HW : (0 <= W)%Q.
Hypothesis Hgot :
  forall k, k < expected -> exists item w, env k = Ground.Got item w /\ (0 <= w <= W)%Q.
Hypothesis Hbudget : (inject_Z (Z.of_nat expected) * W < 30)%Q.

Lemma scaled_wait_le (j : nat) :
  j <= expected -> (inject_Z (Z.of_nat j) * W <= inject_Z (Z.of_nat expected) * W)%Q.
Proof.
  intro Hj. apply Qmult_le_compat_r; [|exact HW].
  rewrite <- Zle_Qle. lia.
Qed.

Lemma collect_in_time (fuel j : nat) (elapsed : Q) (acc : list Result) :
  List.length acc = j -> j <= expected -> expected - j <= fuel ->
  (elapsed <= inject_Z (Z.of_nat j) * W)%Q ->
  exists t,
    Ground.collect fuel env expected j elapsed acc
    = Some (acc ++ delivered env j (expected - j), t) /\
    (t <= inject_Z (Z.of_nat expected) * W)%Q.
Proof.
  revert j elapsed acc. induction fuel as [|fuel IH]; intros j elapsed acc Hlen Hj Hfuel Hel.
  - assert (j = expected) as -> by lia.
    simpl. rewrite Hlen, Nat.ltb_irrefl. simpl. rewrite Nat.sub_diag. simpl.
    rewrite app_nil_r. now exists elapsed.
  - simpl. rewrite Hlen. destruct (Nat.ltb_spec j expected) as [Hlt|Hge].
    + pose proof (scaled_wait_le j Hj) as Hs.
      assert (Qltb elapsed Ground.timeout_seconds = true) as ->
        by (apply Qltb_lt; unfold Ground.timeout_seconds; lra).
      simpl. destruct (Hgot j Hlt) as (item & w & E & Hw). rewrite E.
      destruct (IH (S j) (elapsed + w)%Q (acc ++ [item])) as (t & Ht & Hle).
      * rewrite length_app. simpl. lia.
      * lia.
      * lia.
      * rewrite Nat2Z.inj_succ. unfold Z.succ. rewrite inject_Z_plus.
        change (inject_Z 1) with 1%Q. lra.
      * exists t. split; [|exact Hle]. rewrite Ht.
        replace (expected - j) with (S (expected - S j)) by lia.
        simpl. rewrite E, <- app_assoc. reflexivity.
    + assert (j = expected) as -> by lia.
      simpl. rewrite Nat.sub_diag. simpl. rewrite app_nil_r. now exists elapsed.
Qed.
End InTime.

(** X10.  When every expected result arrives, each within [W] seconds of the
    previous one, and [expected * W] is below the 30 second budget, ground.py
    collects all of them, finishes before the deadline and prints no
    shortfall warning. *)
Theorem results_in_time (solver : CpSat.CpSolver) (tasks : list Task) (num_sats : nat)
    (a : list (list Task)) (env : nat -> Ground.poll) (W : Q) (fuel : nat) :
  Ground.cp_solve solver tasks num_sats = Ok a ->
  (0 <= W)%Q ->
  (forall k, k < Ground.total_assigned a ->
     exists item w, env k = Ground.Got item w /\ (0 <= w <= W)%Q) ->
  (inject_Z (Z.of_nat (Ground.total_assigned a)) * W < 30)%Q ->
  Ground.total_assigned a <= fuel ->
  exists rep,
    Ground.main fuel solver env tasks num_sats
    = Ground.mkRun (Ground.publish_all a) (Ground.Finished rep) /\
    Ground.warning rep = None /\
    Ground.per_task rep
    = Ground.summarize (delivered env 0 (Ground.total_assigned a)) /\
    List.length (delivered env 0 (Ground.total_assigned a)) = Ground.total_assigned a /\
    (Ground.finished_at rep < 30)%Q.
Proof.
  intros Ha HW Hgot Hbudget Hfuel.
  destruct (collect_in_time env W (Ground.total_assigned a) HW Hgot Hbudget fuel 0 0%Q [])
    as (t & Hcol & Ht); try (simpl; lia).
  { change (inject_Z (Z.of_nat 0)) with 0%Q. lra. }
  rewrite Nat.sub_0_r in Hcol. simpl in Hcol.
  assert (List.length (delivered env 0 (Ground.total_assigned a)) = Ground.total_assigned a)
    as Hlen.
  { apply delivered_got_length. intros k Hk.
    destruct (Hgot k) as (item & w & E & _); [lia|]. now exists item, w. }
  exists (Ground.report a (delivered env 0 (Ground.total_assigned a)) t).
  unfold Ground.main. rewrite Ha, Hcol. repeat split.
  - unfold Ground.report. cbn [Ground.warning]. now rewrite Hlen, Nat.ltb_irrefl.
  - exact Hlen.
  - simpl. lra.
Qed.

Lemma one_result_env_in_time (k : nat) :
  k < Ground.total_assigned [[task_A]] ->
  exists item w, one_result_env k = Ground.Got item w /\ (0 <= w <= 1 # 10)%Q.
Proof.
  intro Hk. destruct k as [|k]; [|cbv in Hk; lia].
  exists result_A_ok, (1 # 10)%Q. split; [reflexivity|lra].
Qed.

Lemma results_in_time_witness :
  exists rep,
    Ground.main 1 Reference.solver one_result_env catalog_AB 1
    = Ground.mkRun (Ground.publish_all [[task_A]]) (Ground.Finished rep) /\
    Ground.warning rep = None /\
    Ground.per_task rep
    = Ground.summarize (delivered one_result_env 0 (Ground.total_assigned [[task_A]])) /\
    List.length (delivered one_result_env 0 (Ground.total_assigned [[task_A]]))
    = Ground.total_assigned [[task_A]] /\
    (Ground.finished_at rep < 30)%Q.
Proof.
  apply (results_in_time Reference.solver catalog_AB 1 [[task_A]] one_result_env (1 # 10) 1).
  - vm_compute. reflexivity.
  - lra.
  - exact one_result_env_in_time.
  - vm_compute. reflexivity.
  - apply le_n.
Defined.

(* ================================================================== *)
(** * Every dispatched payoff is accounted for *)

Lemma sumQ_permutation (l l' : list Q) : Permutation l l' -> (sumQ l == sumQ l')%Q.
Proof.
  induction 1 as [|x l l' _ IH|x y l|l l' l'' _ IH1 _ IH2].
  - reflexivity.
  - now rewrite !sumQ_cons, IH.
  - rewrite !sumQ_cons. ring.
  - now rewrite IH1.
Qed.

Lemma sumQ_split {A : Type} (p : A -> bool) (f : A -> Q) (l : list A) :
  (sumQ (map f (filter p l)) + sumQ (map f (filter (fun a => negb (p a)) l))
   == sumQ (map f l))%Q.
Proof.
  induction l as [|a l IH]; [reflexivity|].
  simpl. destruct (p a); simpl; rewrite !sumQ_cons, <- IH; ring.
Qed.

Lemma success_payoff_distinct (rs : list Result) :
  NoDup (map task_name rs) ->
  Ground.success_payoff (Ground.summarize rs)
  = sum (map (fun r => payoff (task r)) (filter success rs)).
Proof.
  intro Hnd. rewrite success_payoff_final, summarize_keys_distinct by assumption.
  now rewrite final_results_distinct by (auto; apply incl_refl).
Qed.

Lemma sat_success_payoff_distinct (rs : list Result) :
  NoDup (map task_name rs) ->
  Sat.total_success_payoff (Sat.summarize rs)
  = sum (map (fun r => if success r then payoff (task r) else fzero) rs).
Proof.
  intro Hnd. rewrite sat_success_payoff_final, summarize_keys_distinct by assumption.
  now rewrite final_results_distinct by (auto; apply incl_refl).
Qed.

Lemma exact_payoff_concat (a : list (list Task)) :
  (exact_payoff a == exact_sum (map payoff (concat a)))%Q.
Proof.
  unfold exact_payoff. rewrite exact_sum_map.
  rewrite <- (sumQ_concat (fun t => value (payoff t))).
  apply sumQ_ext. intros w _. now rewrite exact_sum_map.
Qed.

Lemma name_injective (tasks : list Task) (x y : Task) :
  NoDup (map name tasks) -> In x tasks -> In y tasks -> name x = name y -> x = y.
Proof.
  induction tasks as [|t tasks IH]; intros Hnd Hx Hy E; [destruct Hx|].
  simpl in Hnd. inversion Hnd as [|? ? Hfresh Hrest]; subst.
  destruct Hx as [->|Hx], Hy as [->|Hy].
  - reflexivity.
  - exfalso. apply Hfresh. rewrite E. now apply in_map.
  - exfalso. apply Hfresh. rewrite <- E. now apply in_map.
  - now apply IH.
Qed.

(** Distinct names in the catalog stay distinct among the assigned tasks. *)
Lemma assigned_names_distinct (tasks : list Task) (a : list (list Task)) :
  NoDup (map name tasks) -> placed_at_most_once tasks a ->
  NoDup (map name (concat a)).
Proof.
  intros Hnames Hplaced.
  assert (NoDup tasks) as Hnd by now apply NoDup_map_inv in Hnames.
  assert (NoDup (concat a)) as Hcat.
  { apply (NoDup_count_occ Task_eq_dec). intro t.
    destruct Hplaced as [Hcount _]. specialize (Hcount t). unfold placements in Hcount.
    rewrite (NoDup_count_occ Task_eq_dec) in Hnd. specialize (Hnd t). lia. }
  assert (incl (concat a) tasks) as Hincl
    by (intros t Ht; now apply (placed_In tasks a)).
  induction (concat a) as [|x l IH]; [constructor|].
  inversion Hcat as [|? ? Hfresh Hrest]; subst. simpl. constructor.
  - intro Hin. apply in_map_iff in Hin. destruct Hin as (y & E & Hy).
    assert (x = y) as ->; [|contradiction].
    apply (name_injective tasks); try assumption.
    + apply Hincl. now left.
    + apply Hincl. now right.
    + now symmetry.
  - apply IH; [assumption|]. intros t Ht. apply Hincl. now right.
Qed.

Lemma fleet_results_tasks (a : list (list Task)) (fps : nat -> Q) (rnds : nat -> nat -> Q) :
  map task (fleet_results (List.length a) a fps rnds) = concat a.
Proof.
  unfold fleet_results, Sat.send_all.
  transitivity (concat (map (fun s => nth s a []) (range (List.length a))));
    [|now rewrite (map_nth_range (fun l => l) [] a), map_id].
  rewrite flat_map_concat_map, concat_map, map_map. f_equal.
  apply map_ext_in. intros s Hs. apply range_In in Hs.
  rewrite (nth_indep _ [] [Some (nth 0 a []); None])
    by (unfold range; now rewrite length_map, length_seq).
  rewrite (map_nth (fun i => [Some (nth i a []); None])).
  unfold range. rewrite seq_nth by assumption. simpl.
  rewrite app_nil_r, sat_execute_eq.
  apply (proj1 (execute_tasks (s + 1) (fps s) (rnds s) 0 (nth s a []))).
Qed.

Lemma fleet_results_put (a : list (list Task)) (fps : nat -> Q) (rnds : nat -> nat -> Q)
    (k : nat) (r : Result) :
  In r (fleet_results k a fps rnds) -> put_by_process k a r.
Proof.
  unfold fleet_results. intro H. apply in_flat_map in H. destruct H as (s & _ & H).
  now exists s, (fps s), (rnds s).
Qed.

(** X11.  sat.py end to end: for a catalog with distinct task names, when the
    result queue delivers what the satellite processes produce, in whatever
    order, [run_groundstation] finishes and every assigned task has exactly
    one entry in the summary.  The collected results report the dispatched
    tasks, each once; every result adds its payoff to one of the achieved and
    the lost payoff and [0.0] to the other; so without rounding the two add
    up to the payoff of the dispatched tasks, for finite payoffs. *)
Theorem complete_accounting (solver : CpSat.CpSolver) (tasks : list Task) (k_sats : nat)
    (a : list (list Task)) (failure_probs : nat -> Q) (rnds : nat -> nat -> Q)
    (result_queue : list Result) :
  CpSat.solver_sound_on solver Sat.parameters (Sat.build_model tasks k_sats) ->
  NoDup (map name tasks) ->
  (forall t, In t tasks -> is_finite (payoff t) = true) ->
  Sat.cp_solve solver tasks k_sats = Some a ->
  Permutation result_queue (fleet_results k_sats a failure_probs rnds) ->
  exists rep,
    Sat.run_groundstation solver result_queue tasks k_sats
    = Sat.mkRun (Sat.send_all k_sats a) (Sat.Finished rep) /\
    Permutation (keys (Sat.per_task rep)) (map name (concat a)) /\
    Permutation (map task result_queue) (concat a) /\
    Sat.achieved_payoff rep
    = sum (map (fun r => if success r then payoff (task r) else fzero) result_queue) /\
    Sat.lost_payoff rep
    = sum (map (fun r => if negb (success r) then payoff (task r) else fzero) result_queue) /\
    (exact_sum (map (fun r => payoff (task r)) (filter success result_queue))
     + exact_sum (map (fun r => payoff (task r))
                      (filter (fun r => negb (success r)) result_queue))
     == exact_payoff a)%Q.
Proof.
  intros Hsound Hnames _ Ha Hperm.
  pose proof (sat_placed_at_most_once solver tasks k_sats a Hsound Ha) as Hplaced.
  assert (List.length a = k_sats) as Hlen.
  { apply sat_cp_solve_ok in Ha. destruct Ha as [_ ->].
    unfold range. now rewrite length_map, length_seq. }
  subst k_sats.
  assert (Permutation (map task result_queue) (concat a)) as Htasks.
  { rewrite <- (fleet_results_tasks a failure_probs rnds). now apply Permutation_map. }
  assert (forall r, In r result_queue -> task_name r = name (task r)) as Hname.
  { intros r Hr. apply (Permutation_in _ Hperm) in Hr.
    apply fleet_results_put, put_result in Hr. now destruct Hr. }
  assert (map task_name result_queue = map name (map task result_queue)) as Hkeys.
  { rewrite map_map. now apply map_ext_in. }
  assert (NoDup (map task_name result_queue)) as Hnd.
  { rewrite Hkeys. apply (Permutation_NoDup (l := map name (concat a))).
    - apply Permutation_map. now apply Permutation_sym.
    - now apply (assigned_names_distinct tasks). }
  assert (List.length result_queue = Sat.total_assigned a) as Hcount.
  { unfold Sat.total_assigned. rewrite <- length_concat.
    rewrite <- (Permutation_length Htasks). now rewrite length_map. }
  exists (Sat.report a result_queue).
  unfold Sat.run_groundstation. rewrite Ha, sat_collect_firstn.
  rewrite <- Hcount, Nat.leb_refl, firstn_all.
  cbn [Sat.report Sat.per_task Sat.achieved_payoff Sat.lost_payoff].
  split; [reflexivity|]. split.
  { change (Sat.summarize result_queue) with (Ground.summarize result_queue).
    rewrite summarize_keys_distinct by assumption.
    rewrite Hkeys. now apply Permutation_map. }
  split; [exact Htasks|].
  split; [now apply sat_success_payoff_distinct|].
  split; [now apply sat_fail_payoff_distinct|].
  rewrite exact_payoff_concat, !exact_sum_map.
  rewrite (sumQ_split success (fun r => value (payoff (task r)))).
  rewrite <- (map_map task (fun t => value (payoff t))).
  apply sumQ_permutation. now apply Permutation_map.
Qed.

Lemma catalog_AB_names : NoDup (map name catalog_AB).
Proof. simpl. repeat constructor; simpl; intuition discriminate. Qed.

Lemma complete_accounting_witness :
  exists rep,
    Sat.run_groundstation Reference.solver
      (fleet_results 2 [[task_A]; [task_B]] (fun _ => (1 # 10)%Q) (fun _ => half_draws))
      catalog_AB 2
    = Sat.mkRun (Sat.send_all 2 [[task_A]; [task_B]]) (Sat.Finished rep) /\
    Permutation (keys (Sat.per_task rep)) (map name (concat [[task_A]; [task_B]])) /\
    Permutation
      (map task (fleet_results 2 [[task_A]; [task_B]] (fun _ => (1 # 10)%Q)
                   (fun _ => half_draws)))
      (concat [[task_A]; [task_B]]) /\
    Sat.achieved_payoff rep
    = sum (map (fun r => if success r then payoff (task r) else fzero)
               (fleet_results 2 [[task_A]; [task_B]] (fun _ => (1 # 10)%Q)
                  (fun _ => half_draws))) /\
    Sat.lost_payoff rep
    = sum (map (fun r => if negb (success r) then payoff (task r) else fzero)
               (fleet_results 2 [[task_A]; [task_B]] (fun _ => (1 # 10)%Q)
                  (fun _ => half_draws))) /\
    (exact_sum (map (fun r => payoff (task r))
                    (filter success
                       (fleet_results 2 [[task_A]; [task_B]] (fun _ => (1 # 10)%Q)
                          (fun _ => half_draws))))
     + exact_sum (map (fun r => payoff (task r))
                      (filter (fun r => negb (success r))
                         (fleet_results 2 [[task_A]; [task_B]] (fun _ => (1 # 10)%Q)
                            (fun _ => half_draws))))
     == exact_payoff [[task_A]; [task_B]])%Q.
Proof.
  apply (complete_accounting Reference.solver catalog_AB 2 [[task_A]; [task_B]]
           (fun _ => (1 # 10)%Q) (fun _ => half_draws)).
  - apply reference_sound.
  - exact catalog_AB_names.
  - intros t [<-|[<-|[]]]; reflexivity.
  - vm_compute. reflexivity.
  - apply Permutation_refl.
Defined.

(* ================================================================== *)
(** * Loading the catalog *)

Section Loading.
Import Py.
Variable repr : json -> string.
Variable parse_float : string -> option double.
Variable parse_int : string -> option Z.

#[local] Abbreviation build := (build_task repr parse_float parse_int).
#[local] Abbreviation sat_item := (sat_load_item repr parse_float parse_int).

Lemma mapM_Forall2 {A B : Type} (f : A -> outcome B) (xs : list A) (ys : list B) :
  mapM f xs = Return ys <-> Forall2 (fun x y => f x = Return y) xs ys.
Proof.
  revert ys. induction xs as [|x xs IH]; intro ys; simpl.
  - split.
    + intro H. injection H as <-. constructor.
    + intro H. inversion H. reflexivity.
  - split.
    + destruct (f x) as [y|e] eqn:E; simpl; [|discriminate].
      destruct (mapM f xs) as [ys'|e] eqn:E'; simpl; [|discriminate].
      intro H. injection H as <-. constructor; [assumption|]. now apply IH.
    + intro H. inversion H as [|? y ? ys' Hy Hys]; subst.
      rewrite Hy. simpl. apply IH in Hys. rewrite Hys. reflexivity.
Qed.

Lemma mapM_app_throw {A B : Type} (f : A -> outcome B) (pre post : list A) (x : A)
    (ys : list B) (e : error) :
  mapM f pre = Return ys -> f x = Throw e -> mapM f (pre ++ x :: post) = Throw e.
Proof.
  revert ys. induction pre as [|a pre IH]; intros ys Hpre Hx; simpl.
  - now rewrite Hx.
  - simpl in Hpre. destruct (f a) as [y|e'] eqn:E; simpl in *; [|discriminate].
    destruct (mapM f pre) as [ys'|e'] eqn:E'; simpl in *; [|discriminate].
    now rewrite (IH ys' eq_refl Hx).
Qed.

Lemma mapM_int_ints (l : list Z) : mapM (int parse_int) (map JInt l) = Return l.
Proof. induction l as [|z l IH]; simpl; [|rewrite IH]; reflexivity. Qed.

(** What a successful [build_task] has read. *)
Lemma build_task_inv (it : json) (t : Task) :
  build it = Return t ->
  exists d vn vp vr xs,
    it = JDict d /\
    lookup d "name" = Some vn /\ name t = str repr vn /\
    lookup d "payoff" = Some vp /\ float parse_float vp = Return (payoff t) /\
    lookup d "resources" = Some vr /\ iter vr = Return xs /\
    mapM (int parse_int) xs = Return (resources t) /\
    match lookup d "execution_time" with
    | Some ve => exists e, int parse_int ve = Return e /\ execution_time t = Some e
    | None => execution_time t = None
    end.
Proof.
  unfold build_task. destruct it as [| | | | |l|d]; try discriminate.
  simpl. destruct (lookup d "name") as [vn|] eqn:Hn; simpl; [|discriminate].
  destruct (lookup d "payoff") as [vp|] eqn:Hp; simpl; [|discriminate].
  destruct (float parse_float vp) as [p|] eqn:Ep; simpl; [|discriminate].
  destruct (lookup d "resources") as [vr|] eqn:Hr; simpl; [|discriminate].
  destruct (iter vr) as [xs|] eqn:Ei; simpl; [|discriminate].
  destruct (mapM (int parse_int) xs) as [rs|] eqn:Er; simpl; [|discriminate].
  destruct (lookup d "execution_time") as [ve|] eqn:He; simpl.
  - destruct (int parse_int ve) as [e|] eqn:Ee; simpl; [|discriminate].
    intro H. injection H as <-. exists d, vn, vp, vr, xs. rewrite He. simpl.
    repeat split; try assumption. now exists e.
  - intro H. injection H as <-. exists d, vn, vp, vr, xs. rewrite He. simpl.
    repeat split; assumption.
Qed.

Lemma sat_item_success (it : json) (t : Task) :
  sat_item it = Return t <-> build it = Return t.
Proof.
  unfold sat_load_item. split.
  - destruct (assert_keys it) as [[]|e]; simpl; [auto|discriminate].
  - intro H. destruct (build_task_inv it t H)
      as (d & vn & vp & vr & xs & -> & Hn & _ & Hp & _ & Hr & _).
    unfold assert_keys. simpl. rewrite Hn, Hp, Hr. simpl. exact H.
Qed.

(** X12.  The two loaders accept the same files and build the same catalogs:
    whenever one of them returns a task list, the other returns the same
    list. *)
Theorem loaders_agree (items : json) (ts : list Task) :
  ground_load_tasks_from_json repr parse_float parse_int items = Return ts <->
  sat_load_tasks_from_json repr parse_float parse_int items = Return ts.
Proof.
  unfold ground_load_tasks_from_json, sat_load_tasks_from_json.
  destruct (iter items) as [its|e]; simpl; [|tauto].
  rewrite !mapM_Forall2. split; intro H;
    (eapply Forall2_impl; [|exact H]); intros it t Ht; now apply sat_item_success.
Qed.

(** X13.  An item that lacks a required key aborts the whole load, however
    many items were read before it: sat.py fails its assertion, ground.py
    raises [KeyError] for the first missing key it reaches. *)
Theorem missing_key_aborts_load (pre post : list json) (d : list (string * json))
    (ts : list Task) :
  mapM build pre = Return ts ->
  (lookup d "name" = None \/ lookup d "payoff" = None \/ lookup d "resources" = None) ->
  sat_load_tasks_from_json repr parse_float parse_int (JList (pre ++ JDict d :: post))
  = Throw AssertionError /\
  (exists e,
     ground_load_tasks_from_json repr parse_float parse_int (JList (pre ++ JDict d :: post))
     = Throw e) /\
  (lookup d "name" = None ->
   ground_load_tasks_from_json repr parse_float parse_int (JList (pre ++ JDict d :: post))
   = Throw (KeyError "name")) /\
  (lookup d "name" <> None -> lookup d "payoff" = None ->
   ground_load_tasks_from_json repr parse_float parse_int (JList (pre ++ JDict d :: post))
   = Throw (KeyError "payoff")).
Proof.
  intros Hpre Hmiss.
  assert (mapM sat_item pre = Return ts) as Hpre'.
  { apply mapM_Forall2. apply mapM_Forall2 in Hpre.
    eapply Forall2_impl; [|exact Hpre]. intros it t Ht. now apply sat_item_success. }
  unfold ground_load_tasks_from_json, sat_load_tasks_from_json. simpl.
  repeat split.
  - apply (mapM_app_throw _ _ _ _ ts); [exact Hpre'|].
    unfold sat_load_item, assert_keys. simpl.
    destruct (lookup d "name"); simpl; [|reflexivity].
    destruct (lookup d "payoff"); simpl; [|reflexivity].
    destruct (lookup d "resources"); simpl; [|reflexivity].
    destruct Hmiss as [H|[H|H]]; discriminate.
  - destruct (build (JDict d)) as [t|e] eqn:E.
    + exfalso. destruct (build_task_inv _ _ E)
        as (d' & vn & vp & vr & xs & Hd & Hn & _ & Hp & _ & Hr & _).
      injection Hd as <-. destruct Hmiss as [H|[H|H]]; congruence.
    + exists e. now apply (mapM_app_throw _ _ _ _ ts).
  - intro Hn. apply (mapM_app_throw _ _ _ _ ts); [exact Hpre|].
    unfold build_task. simpl. now rewrite Hn.
  - intros Hn Hp. apply (mapM_app_throw _ _ _ _ ts); [exact Hpre|].
    unfold build_task. simpl. destruct (lookup d "name"); [|contradiction].
    simpl. now rewrite Hp.
Qed.

(** X14.  A successful load returns one task per item, in file order; every
    item is an object, and the task holds [str] of its name, [float] of its
    payoff (an int payoff rounded to the nearest float), [int] of each
    resource, and an execution time exactly when the item has that key. *)
Theorem loaded_catalog_shape (items : json) (ts : list Task) :
  ground_load_tasks_from_json repr parse_float parse_int items = Return ts ->
  exists its,
    iter items = Return its /\
    List.length ts = List.length its /\
    Forall2 (fun it t =>
      exists d vn vp vr xs,
        it = JDict d /\
        lookup d "name" = Some vn /\ name t = str repr vn /\
        lookup d "payoff" = Some vp /\ float parse_float vp = Return (payoff t) /\
        lookup d "resources" = Some vr /\ iter vr = Return xs /\
        mapM (int parse_int) xs = Return (resources t) /\
        match lookup d "execution_time" with
        | Some ve => exists e, int parse_int ve = Return e /\ execution_time t = Some e
        | None => execution_time t = None
        end) its ts.
Proof.
  unfold ground_load_tasks_from_json.
  destruct (iter items) as [its|e]; simpl; [|discriminate].
  intro H. apply mapM_Forall2 in H. exists its. repeat split.
  - symmetry. exact (Forall2_length H).
  - eapply Forall2_impl; [|exact H]. intros it t Ht. now apply build_task_inv.
Qed.

(** X15.  Only the keys [name], [payoff], [resources] and [execution_time] of
    an item are read: two objects that agree on them load to the same task or
    fail with the same error, whatever else they hold and in whatever order. *)
Theorem only_four_keys_read (d d' : list (string * json)) :
  lookup d "name" = lookup d' "name" ->
  lookup d "payoff" = lookup d' "payoff" ->
  lookup d "resources" = lookup d' "resources" ->
  lookup d "execution_time" = lookup d' "execution_time" ->
  build (JDict d) = build (JDict d') /\ sat_item (JDict d) = sat_item (JDict d').
Proof.
  intros Hn Hp Hr He.
  assert (build (JDict d) = build (JDict d')) as Hb.
  { unfold build_task. simpl. now rewrite Hn, Hp, Hr, He. }
  split; [exact Hb|].
  unfold sat_load_item, assert_keys. simpl. now rewrite Hn, Hp, Hr, Hb.
Qed.

Lemma build_dump_task (t : Task) : build (dump_task t) = Return t.
Proof.
  destruct t as [n p r [e|]]; unfold build_task, dump_task; simpl;
    now rewrite mapM_int_ints.
Qed.

(** X16.  Round trip: the objects [json.dumps] writes for loaded tasks load
    back, with either loader, to exactly those tasks. *)
Theorem load_dump_round_trip (ts : list Task) :
  ground_load_tasks_from_json repr parse_float parse_int (JList (map dump_task ts))
  = Return ts /\
  sat_load_tasks_from_json repr parse_float parse_int (JList (map dump_task ts))
  = Return ts.
Proof.
  unfold ground_load_tasks_from_json, sat_load_tasks_from_json. simpl.
  split; apply mapM_Forall2.
  - induction ts as [|t ts IH]; constructor; [apply build_dump_task|exact IH].
  - induction ts as [|t ts IH]; constructor; [|exact IH].
    apply sat_item_success, build_dump_task.
Qed.
End Loading.

Lemma missing_key_aborts_load_witness :
  Py.sat_load_tasks_from_json no_repr no_float no_int
    (Py.JList ([Py.dump_task task_A] ++ Py.JDict item_without_payoff :: []))
  = Py.Throw Py.AssertionError /\
  Py.ground_load_tasks_from_json no_repr no_float no_int
    (Py.JList ([Py.dump_task task_A] ++ Py.JDict item_without_payoff :: []))
  = Py.Throw (Py.KeyError "payoff").
Proof.
  destruct (missing_key_aborts_load no_repr no_float no_int
              [Py.dump_task task_A] [] item_without_payoff [task_A])
    as (Hs & _ & _ & Hg).
  - reflexivity.
  - right. left. reflexivity.
  - split; [exact Hs|]. apply Hg; [discriminate|reflexivity].
Defined.

Lemma loaded_catalog_shape_witness :
  exists its,
    Py.iter (Py.JList [item_big_payoff]) = Py.Return its /\
    List.length [task_big_payoff] = List.length its /\
    Forall2 (fun it t =>
      exists d vn vp vr xs,
        it = Py.JDict d /\
        Py.lookup d "name" = Some vn /\ name t = Py.str no_repr vn /\
        Py.lookup d "payoff" = Some vp /\ Py.float no_float vp = Py.Return (payoff t) /\
        Py.lookup d "resources" = Some vr /\ Py.iter vr = Py.Return xs /\
        Py.mapM (Py.int no_int) xs = Py.Return (resources t) /\
        match Py.lookup d "execution_time" with
        | Some ve => exists e, Py.int no_int ve = Py.Return e /\ execution_time t = Some e
        | None => execution_time t = None
        end) its [task_big_payoff].
Proof.
  apply (loaded_catalog_shape no_repr no_float no_int
           (Py.JList [item_big_payoff]) [task_big_payoff]).
  vm_compute. reflexivity.
Defined.

Lemma only_four_keys_read_witness :
  Py.build_task no_repr no_float no_int
    (Py.JDict (("id"%string, Py.JInt 7) :: item_without_payoff))
  = Py.build_task no_repr no_float no_int (Py.JDict item_without_payoff).
Proof.
  apply (only_four_keys_read no_repr no_float no_int
           (("id"%string, Py.JInt 7) :: item_without_payoff) item_without_payoff);
    reflexivity.
Defined.

(* ================================================================== *)
(** * sat.py: one failure probability per satellite *)

Lemma concat_repeat_single {A : Type} (x : A) (k : nat) :
  concat (repeat [x] k) = repeat x k.
Proof. induction k as [|k IH]; [reflexivity|]. simpl. now rewrite IH. Qed.

(** X17.  Whenever [main] of sat.py gets as far as [run_groundstation], the
    list of failure probabilities has exactly one entry per satellite: the
    default 0.1 when the option is absent or empty, a single given value
    repeated for every satellite, or the given values when there are exactly
    [k] of them; any other count ends the program with [SystemExit]. *)
Theorem failure_probs_per_satellite (parse_float : string -> option Q)
    (arg : option string) (k : nat) :
  (forall probs, SatMain.failure_probs parse_float arg k = Py.Return probs ->
     List.length probs = k) /\
  (arg = None \/ arg = Some EmptyString ->
   SatMain.failure_probs parse_float arg k = Py.Return (repeat (1 # 10)%Q k)) /\
  (forall s qs,
     arg = Some s -> s <> EmptyString ->
     Py.mapM (SatMain.float_of_str parse_float) (SatMain.split_comma s) = Py.Return qs ->
     SatMain.failure_probs parse_float arg k
     = match qs with
       | [q] => Py.Return (repeat q k)
       | _ => if (List.length qs =? k)%nat then Py.Return qs
              else Py.Throw SatMain.length_mismatch
       end).
Proof.
  repeat split.
  - intros probs H. unfold SatMain.failure_probs in H.
    destruct arg as [s|]; [|injection H as <-; apply repeat_length].
    destruct (String.eqb s EmptyString); [injection H as <-; apply repeat_length|].
    destruct (Py.mapM (SatMain.float_of_str parse_float) (SatMain.split_comma s))
      as [qs|e]; simpl in H; [|discriminate].
    destruct (Nat.eqb_spec (List.length qs) 1) as [E1|E1].
    + injection H as <-. destruct qs as [|q [|q' qs]]; try discriminate.
      rewrite concat_repeat_single. apply repeat_length.
    + destruct (Nat.eqb_spec (List.length qs) k) as [Ek|Ek]; simpl in H; [|discriminate].
      now injection H as <-.
  - intros [->| ->]; reflexivity.
  - intros s qs -> Hs Hqs. unfold SatMain.failure_probs.
    destruct (String.eqb_spec s EmptyString) as [E|_]; [contradiction|].
    rewrite Hqs. simpl.
    destruct qs as [|q [|q' qs]].
    + change (List.length (@nil Q) =? 1)%nat with false.
      now destruct (List.length (@nil Q) =? k)%nat.
    + change (List.length [q] =? 1)%nat with true.
      now rewrite concat_repeat_single.
    + change (List.length (q :: q' :: qs) =? 1)%nat with false.
      now destruct (List.length (q :: q' :: qs) =? k)%nat.
Qed.

Lemma failure_probs_per_satellite_witness :
  List.length [(1 # 20)%Q; (3 # 20)%Q] = 2.
Proof.
  apply (proj1 (failure_probs_per_satellite two_numerals (Some "0.05,0.15"%string) 2)).
  vm_compute. reflexivity.
Defined.

(* ================================================================== *)
(** * The callbacks on arbitrary payloads *)

Section Payloads.
Import Py Payload.

Variable SAT_ID : Z.
Variable FAILURE_PROB : Q.
Variable rnd : nat -> Q.

Lemma execute_objects (l : list json) (n : nat) :
  Forall (fun t => is_object t = true) l ->
  snd (execute SAT_ID FAILURE_PROB rnd n l) = None /\
  List.length (fst (execute SAT_ID FAILURE_PROB rnd n l)) = List.length l.
Proof.
  intros H. revert n. induction H as [|t l Ht _ IH]; intros n; [now split|].
  destruct t; try discriminate. cbn [execute get].
  destruct (IH (S n)) as [IH1 IH2].
  destruct (execute SAT_ID FAILURE_PROB rnd (S n) l) as [out e]; simpl in *.
  split; [assumption | now f_equal].
Qed.

Lemma execute_stops (pre post : list json) (x : json) (n : nat) :
  Forall (fun t => is_object t = true) pre ->
  is_object x = false ->
  execute SAT_ID FAILURE_PROB rnd n (pre ++ x :: post)
  = (fst (execute SAT_ID FAILURE_PROB rnd n pre), Some AttributeError).
Proof.
  intros H Hx. revert n. induction H as [|t l Ht _ IH]; intros n.
  - destruct x; try discriminate; reflexivity.
  - destruct t; try discriminate. cbn [app execute get]. rewrite IH.
    destruct (execute SAT_ID FAILURE_PROB rnd (S n) l) as [out e]; reflexivity.
Qed.

(** X18.  A satellite handed a list publishes one result per element as long
    as the elements are objects; the first element that is not an object ends
    the callback with [AttributeError]: the results of the elements before it
    have been published, the elements after it are never executed. *)
Theorem on_message_stops_at_non_object (pre post : list json) (x : json) :
  Forall (fun t => is_object t = true) pre ->
  is_object x = false ->
  satellite_on_message SAT_ID FAILURE_PROB rnd (Some (JList (pre ++ x :: post)))
  = (fst (satellite_on_message SAT_ID FAILURE_PROB rnd (Some (JList pre))),
     Some AttributeError) /\
  snd (satellite_on_message SAT_ID FAILURE_PROB rnd (Some (JList pre))) = None /\
  List.length (fst (satellite_on_message SAT_ID FAILURE_PROB rnd (Some (JList pre))))
  = List.length pre.
Proof.
  intros H Hx. cbn [satellite_on_message]. split.
  - now apply execute_stops.
  - now apply execute_objects.
Qed.

Lemma get_name_dump (t : Task) (default : json) :
  get (dump_task t) "name" default = Return (JStr (name t)).
Proof. reflexivity. Qed.

Lemma execute_dump (sat : nat) (ts : list Task) (n : nat) :
  execute (Z.of_nat sat) FAILURE_PROB rnd n (map dump_task ts)
  = (map dump_result (Satellite.execute sat FAILURE_PROB rnd n ts), None).
Proof.
  revert n. induction ts as [|t ts IH]; intros n; [reflexivity|].
  cbn [map execute Satellite.execute]. rewrite get_name_dump, IH. reflexivity.
Qed.

End Payloads.

(** X19.  On the payload ground.py publishes for a satellite, the list of its
    loaded tasks, [on_message] of satellite.py raises nothing and publishes
    exactly the typed results of [Satellite.on_message]: the default name
    [<unnamed>] is never used. *)
Theorem on_message_on_published_tasks (sat : nat) (FAILURE_PROB : Q) (rnd : nat -> Q)
    (ts : list Task) :
  Payload.satellite_on_message (Z.of_nat sat) FAILURE_PROB rnd
    (Some (Py.JList (map Py.dump_task ts)))
  = (map Payload.dump_result (Satellite.on_message sat FAILURE_PROB rnd ts), None).
Proof. apply execute_dump. Qed.

Lemma on_message_stops_at_non_object_witness :
  Payload.satellite_on_message 1 (1 # 10) half_draws
    (Some (Py.JList ([anonymous_task] ++ Py.JInt 7 :: [anonymous_task])))
  = (fst (Payload.satellite_on_message 1 (1 # 10) half_draws
            (Some (Py.JList [anonymous_task]))),
     Some Py.AttributeError) /\
  snd (Payload.satellite_on_message 1 (1 # 10) half_draws
         (Some (Py.JList [anonymous_task]))) = None /\
  List.length (fst (Payload.satellite_on_message 1 (1 # 10) half_draws
                      (Some (Py.JList [anonymous_task]))))
  = List.length [anonymous_task].
Proof.
  apply (on_message_stops_at_non_object 1 (1 # 10) half_draws
           [anonymous_task] [anonymous_task] (Py.JInt 7)).
  - repeat constructor.
  - reflexivity.
Defined.

(* ================================================================== *)
(** * The summary on arbitrary payloads *)

Section PayloadSummary.
Import Payload.

#[local] Abbreviation entry sid suc tk :=
  (Py.JDict [("satellite", sid); ("success", suc); ("task", tk)]%string).

#[local] Abbreviation info_json i :=
  (entry (Py.JInt (Z.of_nat (satellite i))) (Py.JBool (info_success i))
         (Py.dump_task (info_task i))).

(** ** Agreement with the typed summary *)

Lemma setitem_dump (k : string) (i : Info) (d : list (string * Info)) :
  setitem (Py.JStr k) (info_json i) (map dump_entry d) = map dump_entry (dict_set k i d).
Proof.
  induction d as [|[k0 i0] d IH]; [reflexivity|].
  cbn [map dict_set setitem dump_entry fst snd key_eqb].
  destruct (String.eqb k k0); [reflexivity|].
  cbn [map]. now rewrite IH.
Qed.

Lemma summarize_step (r : Result) (rest : list Py.json) (d : list (Py.json * Py.json)) :
  summarize (dump_result r :: rest) d
  = summarize rest
      (setitem (Py.JStr (task_name r)) (info_json (mkInfo (sat_id r) (success r) (task r))) d).
Proof. reflexivity. Qed.

Lemma summarize_dump (rs : list Result) (acc : list (string * Info)) :
  summarize (map dump_result rs) (map dump_entry acc)
  = Py.Return (map dump_entry
      (for_each rs (fun r summary =>
         dict_set (task_name r) (mkInfo (sat_id r) (success r) (task r)) summary) acc)).
Proof.
  revert acc. induction rs as [|r rs IH]; intros acc; [reflexivity|].
  cbn [map]. rewrite summarize_step, setitem_dump, IH. reflexivity.
Qed.

Lemma payoff_dump (t : Task) :
  Py.getitem (Py.dump_task t) "payoff" = Py.Return (Py.JFloat (payoff t)).
Proof. reflexivity. Qed.

(** The accumulator of [sum]: the int [0] it starts from, or a float. *)
#[local] Abbreviation float_so_far acc := (acc = NInt 0 \/ exists y, acc = NFloat y).

Lemma add_float (acc : num) (p : double) :
  float_so_far acc ->
  add acc (Py.JFloat p) = Py.Return (NFloat (fadd (float_of_num acc) p)).
Proof. intros [->|[y ->]]; reflexivity. Qed.

Lemma payoff_sum_dump (want : bool) (s : list (string * Info)) (acc : num) :
  float_so_far acc ->
  exists acc',
    payoff_sum want (map dump_entry s) acc = Py.Return acc' /\
    float_so_far acc' /\
    float_of_num acc'
    = fold_left fadd
        (map (fun kv => payoff (info_task (snd kv)))
             (filter (fun kv => Bool.eqb (info_success (snd kv)) want) s))
        (float_of_num acc).
Proof.
  revert acc. induction s as [|[k i] s IH]; intros acc Hacc.
  - exists acc. repeat split. exact Hacc.
  - cbn [map payoff_sum dump_entry fst snd filter].
    change (Py.getitem (info_json i) "success") with (Py.Return (Py.JBool (info_success i))).
    cbn [Py.bind Py.truthy].
    destruct (Bool.eqb (info_success i) want).
    + change (Py.getitem (info_json i) "task") with (Py.Return (Py.dump_task (info_task i))).
      cbn [Py.bind]. rewrite payoff_dump. cbn [Py.bind].
      rewrite add_float by assumption. cbn [Py.bind map fold_left].
      destruct (IH (NFloat (fadd (float_of_num acc) (payoff (info_task i)))))
        as (acc' & Hsum & Hfl & Hval); [right; eauto|].
      exists acc'. repeat split; assumption.
    + apply IH. exact Hacc.
Qed.

Lemma dict_get_In {V : Type} (s : list (string * V)) (k : string) (x : V) :
  NoDup (keys s) -> In (k, x) s -> dict_get s k = Some x.
Proof.
  unfold keys. induction s as [|[k0 x0] s IH]; intros Hnd Hin; [destruct Hin|].
  cbn [map fst] in Hnd. inversion Hnd as [|? ? Hfresh Hrest]; subst.
  cbn [dict_get]. destruct Hin as [E|Hin].
  - injection E as -> ->. now rewrite String.eqb_refl.
  - destruct (String.eqb_spec k k0) as [->|_]; [|now apply IH].
    exfalso. apply Hfresh. apply in_map_iff. now exists (k0, x).
Qed.

(** Reading the summary key by key gives the entries in their order. *)
Lemma summary_entries {B : Type} (s : list (string * Info)) (P : Info -> bool)
    (F : Info -> B) :
  NoDup (keys s) ->
  map (fun t => F (getitem s t)) (filter (fun t => P (getitem s t)) (keys s))
  = map (fun kv => F (snd kv)) (filter (fun kv => P (snd kv)) s).
Proof.
  intro Hnd.
  assert (forall l, incl l s ->
            map (fun t => F (getitem s t)) (filter (fun t => P (getitem s t)) (map fst l))
            = map (fun kv => F (snd kv)) (filter (fun kv => P (snd kv)) l)) as H.
  { induction l as [|[k i] l IH]; intro Hincl; [reflexivity|].
    assert (getitem s k = i) as Hg.
    { unfold getitem. now rewrite (dict_get_In s k i Hnd) by (apply Hincl; now left). }
    cbn [map fst snd filter]. rewrite Hg.
    destruct (P i); cbn [map]; rewrite ?Hg, IH by (intros x Hx; apply Hincl; now right);
      reflexivity. }
  apply H, incl_refl.
Qed.

Lemma summary_of_dump (rs : list Result) :
  exists success_payoff failed_payoff,
    summary_of (map dump_result rs)
    = Py.Return (map dump_entry (Ground.summarize rs), success_payoff, failed_payoff) /\
    float_of_num success_payoff = Ground.success_payoff (Ground.summarize rs) /\
    float_of_num failed_payoff = Ground.failed_payoff (Ground.summarize rs).
Proof.
  unfold summary_of. change (@nil (Py.json * Py.json)) with (map dump_entry []).
  rewrite summarize_dump. fold (Ground.summarize rs). cbn [Py.bind].
  destruct (payoff_sum_dump true (Ground.summarize rs) (NInt 0))
    as (sp & Hsp & _ & Hvs); [now left|].
  destruct (payoff_sum_dump false (Ground.summarize rs) (NInt 0))
    as (fp & Hfp & _ & Hvf); [now left|].
  exists sp, fp. rewrite Hsp. cbn [Py.bind]. rewrite Hfp. cbn [Py.bind].
  split; [reflexivity|].
  unfold Ground.success_payoff, Ground.failed_payoff, sum.
  rewrite (summary_entries _ (fun i => info_success i) (fun i => payoff (info_task i)))
    by apply summarize_keys_NoDup.
  rewrite (summary_entries _ (fun i => negb (info_success i)) (fun i => payoff (info_task i)))
    by apply summarize_keys_NoDup.
  rewrite Hvs, Hvf. change (float_of_num (NInt 0)) with fzero. split.
  - rewrite (filter_ext (fun kv : string * Info => Bool.eqb (info_success (snd kv)) true)
               (fun kv => info_success (snd kv)))
      by (intros [k i]; cbn [snd]; now destruct (info_success i)).
    reflexivity.
  - rewrite (filter_ext (fun kv : string * Info => Bool.eqb (info_success (snd kv)) false)
               (fun kv => negb (info_success (snd kv))))
      by (intros [k i]; cbn [snd]; now destruct (info_success i)).
    reflexivity.
Qed.

Lemma on_message_queue (msgs : list (option Py.json)) (results_q : list Py.json) :
  for_each msgs ground_on_message results_q = results_q ++ parsed msgs.
Proof.
  unfold for_each, parsed. revert results_q.
  induction msgs as [|m msgs IH]; intros q; cbn [fold_left flat_map].
  - now rewrite app_nil_r.
  - rewrite IH. destruct m; cbn [ground_on_message]; [|reflexivity].
    now rewrite <- app_assoc.
Qed.

(** X20.  From the broker to the summary of ground.py: [on_message] queues
    the payloads that parse, in arrival order, and drops the others; when
    these payloads are the results the satellites published, the summary
    code run on the queue raises nothing and computes the typed summary, the
    same entries in the same order with the same achieved and lost payoff
    (as a number: the int [0] where no payoff is counted). *)
Theorem published_results_reach_summary (msgs : list (option Py.json)) (rs : list Result) :
  parsed msgs = map dump_result rs ->
  for_each msgs ground_on_message [] = map dump_result rs /\
  exists success_payoff failed_payoff,
    summary_of (for_each msgs ground_on_message [])
    = Py.Return (map dump_entry (Ground.summarize rs), success_payoff, failed_payoff) /\
    float_of_num success_payoff = Ground.success_payoff (Ground.summarize rs) /\
    float_of_num failed_payoff = Ground.failed_payoff (Ground.summarize rs).
Proof.
  intros H. rewrite on_message_queue, H. cbn [app].
  split; [reflexivity | apply summary_of_dump].
Qed.

End PayloadSummary.

Lemma published_results_reach_summary_witness :
  for_each [None; Some (Payload.dump_result result_A_ok); None;
            Some (Payload.dump_result result_B_fail)] Payload.ground_on_message []
  = map Payload.dump_result [result_A_ok; result_B_fail] /\
  exists success_payoff failed_payoff,
    Payload.summary_of
      (for_each [None; Some (Payload.dump_result result_A_ok); None;
                 Some (Payload.dump_result result_B_fail)] Payload.ground_on_message [])
    = Py.Return (map Payload.dump_entry (Ground.summarize [result_A_ok; result_B_fail]),
                 success_payoff, failed_payoff) /\
    Payload.float_of_num success_payoff
    = Ground.success_payoff (Ground.summarize [result_A_ok; result_B_fail]) /\
    Payload.float_of_num failed_payoff
    = Ground.failed_payoff (Ground.summarize [result_A_ok; result_B_fail]).
Proof.
  apply (published_results_reach_summary
           [None; Some (Payload.dump_result result_A_ok); None;
            Some (Payload.dump_result result_B_fail)]
           [result_A_ok; result_B_fail]).
  reflexivity.
Defined.

(** ** What a printed summary implies *)

Section PayloadChecks.
Import Payload.

#[local] Abbreviation shaped v :=
  (exists sid suc tk,
     v = Py.JDict [("satellite", sid); ("success", suc); ("task", tk)]%string).

Lemma Forall_setitem_val (P : Py.json -> Prop) (k v : Py.json) (d : list (Py.json * Py.json)) :
  Forall (fun kv => P (snd kv)) d -> P v -> Forall (fun kv => P (snd kv)) (setitem k v d).
Proof.
  intros Hd Hv. induction Hd as [|[k0 v0] d H0 Hd IH]; cbn [setitem].
  - now constructor.
  - destruct (key_eqb k k0); constructor; assumption.
Qed.

Lemma summarize_inv (collected : list Py.json) (d s : list (Py.json * Py.json)) :
  summarize collected d = Py.Return s ->
  Forall (fun kv => shaped (snd kv)) d ->
  Forall (fun r => is_object r = true) collected /\
  Forall (fun kv => shaped (snd kv)) s.
Proof.
  revert d. induction collected as [|r rest IH]; intros d H Hsh.
  - injection H as <-. split; [constructor | assumption].
  - destruct r as [| | | | | |o]; try discriminate H.
    cbn [summarize get Py.bind] in H. unfold store in H.
    destruct (hashable _) eqn:Hh; [|discriminate H]. cbn [Py.bind] in H.
    apply IH in H.
    + destruct H as (Hr & Hs). split; [now constructor | exact Hs].
    + apply (Forall_setitem_val (fun v => shaped v)); [assumption|].
      eexists _, _, _. reflexivity.
Qed.

Lemma payoff_sum_inv (want : bool) (entries : list (Py.json * Py.json)) (acc x : num) :
  payoff_sum want entries acc = Py.Return x ->
  Forall (fun kv => forall sid suc tk,
            snd kv = Py.JDict [("satellite", sid); ("success", suc); ("task", tk)]%string ->
            Bool.eqb (Py.truthy suc) want = true ->
            priced (snd kv)) entries.
Proof.
  revert acc. induction entries as [|[t info] entries IH]; intros acc H; [constructor|].
  cbn [payoff_sum] in H.
  destruct (Py.getitem info "success") as [suc0|] eqn:Hsuc; [|discriminate H].
  cbn [Py.bind] in H.
  destruct (Bool.eqb (Py.truthy suc0) want) eqn:Hw.
  - destruct (Py.getitem info "task") as [tk0|] eqn:Htk; [|discriminate H].
    cbn [Py.bind] in H.
    destruct (Py.getitem tk0 "payoff") as [p|] eqn:Hp; [|discriminate H].
    cbn [Py.bind] in H. unfold add in H.
    destruct (number p) as [q|] eqn:Hq; [|discriminate H].
    destruct (add_num acc q) as [acc'|] eqn:Hadd; [|discriminate H]. cbn [Py.bind] in H.
    constructor; [|exact (IH _ H)].
    intros sid suc tk Hinfo _. cbn [snd] in Hinfo |- *. subst info.
    injection Htk as <-.
    destruct tk as [| | | | | |o]; try discriminate Hp.
    cbn [Py.getitem] in Hp. destruct (Py.lookup o "payoff") as [p'|] eqn:Hl; [|discriminate Hp].
    injection Hp as ->. exists sid, suc, o, p, q. repeat split; assumption.
  - constructor; [|exact (IH _ H)].
    intros sid suc tk Hinfo Hw'. cbn [snd] in Hinfo. subst info.
    injection Hsuc as <-. rewrite Hw' in Hw. discriminate Hw.
Qed.

(** X21.  When the summary code of ground.py gets through, every collected
    payload was an object and every entry of the summary holds a task object
    with a numeric payoff: a payload that is not an object, or a last result
    for a task name without such a task, makes [main] raise instead of
    printing the summary. *)
Theorem summary_needs_payoffs (collected : list Py.json)
    (summary : list (Py.json * Py.json)) (success_payoff failed_payoff : num) :
  summary_of collected = Py.Return (summary, success_payoff, failed_payoff) ->
  Forall (fun r => is_object r = true) collected /\
  Forall (fun kv => priced (snd kv)) summary.
Proof.
  unfold summary_of. intros H.
  destruct (summarize collected []) as [s|] eqn:Hs; [|discriminate H]. cbn [Py.bind] in H.
  destruct (payoff_sum true s (NInt 0)) as [sp|] eqn:Hsp; [|discriminate H].
  cbn [Py.bind] in H.
  destruct (payoff_sum false s (NInt 0)) as [fp|] eqn:Hfp; [|discriminate H].
  cbn [Py.bind] in H. injection H as <- _ _.
  apply summarize_inv in Hs; [|constructor].
  destruct Hs as (Hobj & Hsh). split; [exact Hobj|].
  apply payoff_sum_inv in Hsp. apply payoff_sum_inv in Hfp.
  rewrite Forall_forall in Hsp, Hfp, Hsh |- *.
  intros kv Hin.
  destruct (Hsh _ Hin) as (sid & suc & tk & Hv).
  destruct (Py.truthy suc) eqn:Ht.
  - apply (Hsp kv Hin sid suc tk Hv). now rewrite Ht.
  - apply (Hfp kv Hin sid suc tk Hv). now rewrite Ht.
Qed.

End PayloadChecks.

Lemma summary_needs_payoffs_witness :
  Forall (fun r => Payload.is_object r = true) [Payload.dump_result result_A_ok] /\
  Forall (fun kv => priced (snd kv))
    [Payload.dump_entry ("A"%string, mkInfo 1 true task_A)].
Proof.
  apply (summary_needs_payoffs [Payload.dump_result result_A_ok]
           [Payload.dump_entry ("A"%string, mkInfo 1 true task_A)]
           (Payload.NFloat (of_int 10)) (Payload.NInt 0)).
  vm_compute. reflexivity.
Defined.
